(** * objects_on_shelves: the node pipeline of the toybox channel

    A shallow embedding of the three node files of the repository

    - [packages/example/example/nodes/weight.py]          (module [Weight]),
    - [packages/toybox/toybox/nodes/random_placement.py]  (module [Placement]),
    - [packages/toybox/toybox/nodes/simulation.py]        (modules [Simulation]
      and [SceneNodes]),

    followed by the properties of the specification that were checked
    against them.

    Conventions.  Python objects are references: an object is a handle
    ([nat]) into a store, a list of objects is a list of handles.  A call
    that can raise returns a [result]; state that the call has changed up
    to the point of the raise is kept.  Calls into Blender ([bpy]),
    [anatools], [imageio] and the Python builtins are not code of this
    repository: they appear as the fields of an interface class or as
    events of a trace. *)

From Stdlib Require Import ZArith QArith String Ascii List Floats Lia Lqa.
From Stdlib Require Import DecimalString DecimalPos DecimalN Sorted.
From stdpp Require Import gmap strings list.
Import ListNotations.

#[local] Open Scope Z_scope.

(** ** Python values shared by the three files *)

Module Py.

(** The exception classes that the modelled statements can raise. *)
Inductive exn : Type :=
| ValueError
| TypeError
| IndexError
| KeyError
| FileNotFoundError.

Inductive result (A : Type) : Type :=
| Return (a : A)
| Raise (e : exn).

Arguments Return {A} a.
Arguments Raise {A} e.

(** [l[0]] on a Python list. *)
Definition index0 {A : Type} (l : list A) : result A :=
  match l with
  | [] => Raise IndexError
  | x :: _ => Return x
  end.

End Py.

(** ** Python strings and paths *)

Module PyStr.

#[local] Open Scope string_scope.

(** [s.replace(c, by)] for a pattern of one character. *)
Fixpoint replace_char (c : ascii) (by_ : string) (s : string) : string :=
  match s with
  | EmptyString => EmptyString
  | String a s' =>
      if Ascii.eqb a c then by_ +:+ replace_char c by_ s'
      else String a (replace_char c by_ s')
  end.

(** [s.split(c)]: the fields between the occurrences of [c]; never empty. *)
Fixpoint split_char (c : ascii) (s : string) : list string :=
  match s with
  | EmptyString => [EmptyString]
  | String a s' =>
      if Ascii.eqb a c then EmptyString :: split_char c s'
      else match split_char c s' with
           | f :: fs => String a f :: fs
           | [] => [String a EmptyString]
           end
  end.

(** [s.split(c)[-1]]. *)
Definition last_field (c : ascii) (s : string) : string :=
  List.last (split_char c s) EmptyString.

(** [s.lower()] on ASCII letters. *)
Definition lower_char (a : ascii) : ascii :=
  let n := nat_of_ascii a in
  if (Nat.leb 65 n && Nat.leb n 90)%bool then ascii_of_nat (n + 32) else a.

Fixpoint lower (s : string) : string :=
  match s with
  | EmptyString => EmptyString
  | String a s' => String (lower_char a) (lower s')
  end.

(** [s.startswith(p)]. *)
Fixpoint starts_with (p s : string) : bool :=
  match p, s with
  | EmptyString, _ => true
  | String a p', String b s' => Ascii.eqb a b && starts_with p' s'
  | String _ _, EmptyString => false
  end.

Fixpoint contains_char (c : ascii) (s : string) : bool :=
  match s with
  | EmptyString => false
  | String a s' => Ascii.eqb a c || contains_char c s'
  end.

Fixpoint ends_with_char (c : ascii) (s : string) : bool :=
  match s with
  | EmptyString => false
  | String a EmptyString => Ascii.eqb a c
  | String _ s' => ends_with_char c s'
  end.

(** [os.path.join(a, b)] of [posixpath]: an absolute [b] discards [a];
    otherwise a separator is put after [a] unless [a] is empty or ends with
    one. *)
Definition with_sep (a : string) : string :=
  match a with
  | EmptyString => EmptyString
  | _ => if ends_with_char "/" a then a else a +:+ "/"
  end.

Definition path_join (a b : string) : string :=
  if starts_with "/" b then b else with_sep a +:+ b.

(** The decimal digits of a natural number, ["0"] for zero. *)
Definition digits (n : N) : string := NilZero.string_of_uint (N.to_uint n).

(** [str(z)] for an [int]. *)
Definition str_int (z : Z) : string :=
  if (z <? 0)%Z then "-" +:+ digits (Z.abs_N z) else digits (Z.to_N z).

Fixpoint zeros (k : nat) (s : string) : string :=
  match k with
  | O => s
  | S k' => String "0" (zeros k' s)
  end.

(** [s.zfill(w)] on a string of digits. *)
Definition zfill (w : nat) (s : string) : string := zeros (w - String.length s) s.

(** [format(z, '0w')], as in [f'{z:03}'] and [f'{z:010}']: zeros are put
    between the sign and the digits, up to the width [w]. *)
Definition format_0w (w : nat) (z : Z) : string :=
  if (z <? 0)%Z then "-" +:+ zfill (w - 1) (digits (Z.abs_N z))
  else zfill w (digits (Z.to_N z)).

(** The characters that make [glob] read a name as a pattern
    ([glob.has_magic]). *)
Definition has_magic (s : string) : bool :=
  contains_char "*" s || contains_char "?" s || contains_char "[" s.

(** The number that a string of digits denotes, and the characters that are
    no digit. *)
Definition parse_digits (s : string) : option N :=
  option_map N.of_uint (NilEmpty.uint_of_string s).

Definition no_digit (c : ascii) : bool :=
  forallb (fun a => negb (Ascii.eqb a c))
    ["0"; "1"; "2"; "3"; "4"; "5"; "6"; "7"; "8"; "9"]%char.

End PyStr.

(** ** weight.py *)

Module Weight.
Import Py.

(** What a link of a port can carry: a string, a float, or an object
    (a generator or a file object) held by reference. *)
Inductive portval : Type :=
| PStr (s : string)
| PFloat (f : float)
| PRef (h : nat).

(** [self.inputs] of the node: one list of links per port. *)
Record Inputs : Type := {
  Generator : list portval;
  Weight : list portval
}.

(** The [weight] attribute of the generator objects, by handle. *)
Abbreviation heap := (gmap nat float).

(** The two calls that leave the repository: the builtin [float] and
    [anatools.lib.file_handlers.file_to_objgen], which wraps the file
    objects of a port into generators (it may create objects, so it
    threads the heap) and returns the list of generators. *)
Class Externals : Type := {
  py_float : portval -> exn + float;
  file_to_objgen : list portval -> heap -> heap * list nat
}.

(** [Weight.exec].  The two [logger] calls are not modelled.  The
    [try] block covers the subscript, the conversion and the attribute
    store; its handler logs and re-raises, so every exception of the block
    leaves [exec] unchanged and the store of [generator.weight] is only
    reached when [float] has returned. *)
Definition exec `{Externals} (inputs : Inputs) (h : heap) : heap * result nat :=
  if negb (Nat.eqb (length (Generator inputs)) 1) then (h, Raise ValueError)
  else
    let '(h1, generators) := file_to_objgen (Generator inputs) h in
    match index0 generators with
    | Raise e => (h1, Raise e)
    | Return generator =>
        match index0 (Weight inputs) with
        | Raise e => (h1, Raise e)
        | Return w =>
            match py_float w with
            | inl e => (h1, Raise e)
            | inr f => (<[generator := f]> h1, Return generator)
            end
        end
    end.

(** A sample of the interface, used to run [exec]: [float] on the two
    strings of the specification, and a [file_to_objgen] that finds only
    generators on the port. *)
Definition sample_float (v : portval) : exn + float :=
  match v with
  | PStr s => if String.eqb s "2.5" then inr 2.5%float else inl ValueError
  | PFloat f => inr f
  | PRef _ => inl TypeError
  end.

Definition sample_file_to_objgen (l : list portval) (h : heap) : heap * list nat :=
  (h, omap (fun v => match v with PRef g => Some g | _ => None end) l).

Definition sample_externals : Externals :=
  {| py_float := sample_float; file_to_objgen := sample_file_to_objgen |}.

End Weight.

(** ** random_placement.py *)

Module Placement.
Import Py.

Inductive portval : Type :=
| PStr (s : string)
| PInt (z : Z)
| PRef (h : nat).

(** [v != ""] on a link of a port. *)
Definition is_empty_str (v : portval) : bool :=
  match v with
  | PStr s => String.eqb s ""
  | _ => false
  end.

Record Inputs : Type := {
  Number_of_Objects : list portval;
  Object_Generators : list portval;
  Floor_Generator : list portval;
  Container_Generator : list portval
}.

(** [math.radians(d)].  The angle is kept as the number of degrees it was
    converted from. *)
Inductive angle : Type :=
| radians (degrees : Q).

(** [obj.root.rigid_body]. *)
Record RigidBody : Type := {
  type : string;
  collision_shape : string;
  use_margin : bool;
  collision_margin : Q
}.

(** An object with its Blender root: [obj.root.location],
    [obj.root.rotation_euler], [obj.root.rigid_body].  Python floats are
    read as the rationals they stand for and their arithmetic as exact. *)
Record BObject : Type := {
  location : Q * Q * Q;
  rotation_euler : angle * angle * angle;
  rigid_body : option RigidBody
}.

(** The second argument of [file_to_objgen]. *)
Inductive objclass : Type :=
| ToyboxChannelObject
| AnaObject.

(** What the file calls outside the repository.
    - [rng_random] is [ctx.random.random()], one draw of the shared random
      source, with the state of the source after it.
    - [py_int] is the builtin [int].
    - [file_to_objgen] and [CreateBranchGenerator] are those of anatools;
      [branch_exec] is the [exec] of a branch generator: it picks a branch
      and returns the data of the object it creates, and may draw from the
      random source.
    - [default_rigid_body] is the rigid body Blender gives an object when it
      is linked into the collection of the rigid body world. *)
Class Externals : Type := {
  Rng : Type;
  rng_random : Rng -> Q * Rng;
  py_int : portval -> exn + Z;
  Gen : Type;
  BranchGenerator : Type;
  file_to_objgen : list portval -> objclass -> list Gen;
  CreateBranchGenerator : list Gen -> BranchGenerator;
  branch_exec : BranchGenerator -> Rng -> BObject * Rng;
  default_rigid_body : RigidBody
}.

(** The state the file reads and writes: the random source of [ctx], the
    objects created so far (an object made by a generator is new: it gets
    the handle [next]), the rigid body world of the scene, the current
    frame, and the number of times the physics was baked. *)
Record World `{Externals} : Type := {
  random : Rng;
  objects : gmap nat BObject;
  next : nat;
  rigidbody_enabled : bool;
  rigidbody_collection : list nat;
  frame_end : Z;
  frame_current : Z;
  bakes : nat
}.

Section Nodes.
Context `{Externals}.

Definition with_random (r : Rng) (w : World) : World :=
  {| random := r; objects := objects w; next := next w;
     rigidbody_enabled := rigidbody_enabled w;
     rigidbody_collection := rigidbody_collection w;
     frame_end := frame_end w; frame_current := frame_current w;
     bakes := bakes w |}.

Definition with_objects (m : gmap nat BObject) (w : World) : World :=
  {| random := random w; objects := m; next := next w;
     rigidbody_enabled := rigidbody_enabled w;
     rigidbody_collection := rigidbody_collection w;
     frame_end := frame_end w; frame_current := frame_current w;
     bakes := bakes w |}.

(** [ctx.random.random()]. *)
Definition ctx_random (w : World) : Q * World :=
  let '(u, r) := rng_random (random w) in (u, with_random r w).

(** [ctx.random.uniform(a, b)], which is [a + (b - a) * random()]. *)
Definition ctx_uniform (a b : Q) (w : World) : Q * World :=
  let '(u, w1) := ctx_random w in (a + (b - a) * u, w1)%Q.

(** [branch_generator.exec()]: the new object is stored under a fresh
    handle. *)
Definition branch_generator_exec (bg : BranchGenerator) (w : World) : nat * World :=
  let '(o, r) := branch_exec bg (random w) in
  (next w,
   {| random := r; objects := <[next w := o]> (objects w); next := S (next w);
      rigidbody_enabled := rigidbody_enabled w;
      rigidbody_collection := rigidbody_collection w;
      frame_end := frame_end w; frame_current := frame_current w;
      bakes := bakes w |}).

Definition set_location (h : nat) (l : Q * Q * Q) (w : World) : World :=
  with_objects
    (alter (fun o => {| location := l; rotation_euler := rotation_euler o;
                        rigid_body := rigid_body o |}) h (objects w)) w.

Definition set_rotation_euler (h : nat) (r : angle * angle * angle) (w : World) : World :=
  with_objects
    (alter (fun o => {| location := location o; rotation_euler := r;
                        rigid_body := rigid_body o |}) h (objects w)) w.

Definition set_rigid_body (h : nat) (f : RigidBody -> RigidBody) (w : World) : World :=
  with_objects
    (alter (fun o => {| location := location o; rotation_euler := rotation_euler o;
                        rigid_body := f <$> rigid_body o |}) h (objects w)) w.

(** [np.arange(n)]: 0, 1, ..., n-1, and nothing when [n <= 0]. *)
Definition arange (n : Z) : list Z := map Z.of_nat (seq 0 (Z.to_nat n)).

(** The body of the [for ii in np.arange(object_number)] loop.  The two
    nodes differ only in the factor of the horizontal offsets (0.1 on lines
    53-54, 0.5 on lines 92-93), here [scale]. *)
Definition place_one (scale : Q) (bg : BranchGenerator) (st : World * list nat) (ii : Z)
  : World * list nat :=
  let '(w, object_list) := st in
  let '(this_object, w) := branch_generator_exec bg w in
  let object_list := object_list ++ [this_object] in
  let '(u1, w) := ctx_random w in
  let '(u2, w) := ctx_random w in
  let w := set_location this_object
             ((scale * (u1 - 0.5))%Q, (scale * (u2 - 0.5))%Q, (2 + 0.1 * inject_Z ii)%Q) w in
  let '(d1, w) := ctx_uniform 0 360 w in
  let '(d2, w) := ctx_uniform 0 360 w in
  let '(d3, w) := ctx_uniform 0 360 w in
  let w := set_rotation_euler this_object (radians d1, radians d2, radians d3) w in
  (w, object_list).

(** [sc.rigidbody_world.collection.objects.link(root)]: the object joins
    the collection and, if it had none, gets a rigid body. *)
Definition link (h : nat) (w : World) : World :=
  {| random := random w;
     objects := alter (fun o => {| location := location o;
                                   rotation_euler := rotation_euler o;
                                   rigid_body := Some (default default_rigid_body (rigid_body o)) |})
                      h (objects w);
     next := next w;
     rigidbody_enabled := rigidbody_enabled w;
     rigidbody_collection := rigidbody_collection w ++ [h];
     frame_end := frame_end w; frame_current := frame_current w;
     bakes := bakes w |}.

(** Lines 131-134 and 141-144: the four stores into [root.rigid_body]. *)
Definition make_passive (rb : RigidBody) : RigidBody :=
  let rb := {| type := "PASSIVE"; collision_shape := collision_shape rb;
               use_margin := use_margin rb; collision_margin := collision_margin rb |} in
  let rb := {| type := type rb; collision_shape := "MESH";
               use_margin := use_margin rb; collision_margin := collision_margin rb |} in
  let rb := {| type := type rb; collision_shape := collision_shape rb;
               use_margin := true; collision_margin := collision_margin rb |} in
  {| type := type rb; collision_shape := collision_shape rb;
     use_margin := use_margin rb; collision_margin := 0.001%Q |}.

(** Lines 111-122: a rigid body world with a new, empty collection, and the
    frame used for the image. *)
Definition world_add (w : World) : World :=
  {| random := random w; objects := objects w; next := next w;
     rigidbody_enabled := true;
     rigidbody_collection := [];
     frame_end := 50; frame_current := 50;
     bakes := bakes w |}.

(** [bpy.ops.ptcache.bake_all()]: the result of the simulation is held by
    Blender's point cache; the model counts the call. *)
Definition bake_all (w : World) : World :=
  {| random := random w; objects := objects w; next := next w;
     rigidbody_enabled := rigidbody_enabled w;
     rigidbody_collection := rigidbody_collection w;
     frame_end := frame_end w; frame_current := frame_current w;
     bakes := S (bakes w) |}.

(** One static collider: a branch of the port is executed, linked and made
    passive (lines 128-134 for the floor, 138-144 for the container). *)
Definition add_collider (port : list portval) (w : World) : World :=
  let generator := CreateBranchGenerator (file_to_objgen port AnaObject) in
  let '(collider, w) := branch_generator_exec generator w in
  let w := link collider w in
  set_rigid_body collider make_passive w.

Definition drop (object_list : list nat) (inputs : Inputs) (w : World) : World * result unit :=
  let w := world_add w in
  let w := fold_left (fun w obj => link obj w) object_list w in
  let w := add_collider (Floor_Generator inputs) w in
  let container_input := Container_Generator inputs in
  match index0 container_input with
  | Raise e => (w, Raise e)
  | Return c0 =>
      let w := if is_empty_str c0 then w else add_collider container_input w in
      (bake_all w, Return tt)
  end.

(** The body shared by the two [exec] methods. *)
Definition exec_with (scale : Q) (inputs : Inputs) (w : World) : World * result (list nat) :=
  match index0 (Number_of_Objects inputs) with
  | Raise e => (w, Raise e)
  | Return v =>
  match py_int v with
  | inl e => (w, Raise e)
  | inr n =>
  let object_number := Z.min 200 n in
  let objects_input := Object_Generators inputs in
  match index0 objects_input with
  | Raise e => (w, Raise e)
  | Return g0 =>
  let '(w, object_list) :=
    if is_empty_str g0 then (w, [])
    else
      let generators := file_to_objgen objects_input ToyboxChannelObject in
      let branch_generator := CreateBranchGenerator generators in
      fold_left (place_one scale branch_generator) (arange object_number) (w, []) in
  match drop object_list inputs w with
  | (w, Raise e) => (w, Raise e)
  | (w, Return _) => (w, Return object_list)
  end end end end.

(** [PlacementOverContainerClass.exec]. *)
Definition PlacementOverContainerClass_exec := exec_with 0.1%Q.

(** [RandomPlacementClass.exec]. *)
Definition RandomPlacementClass_exec := exec_with 0.5%Q.

(** *** Vocabulary of the properties *)

(** The [k]-th draw of [ctx.random.random()] made from the state [r] of the
    random source (the first one is draw 0). *)
Definition draw (r : Rng) (k : nat) : Q :=
  fst (rng_random (Nat.iter k (fun r => snd (rng_random r)) r)).

(** The pose that one iteration of the placement loop gives an object: the
    five values come from five successive draws of the random source. *)
Definition posed (scale : Q) (ii : Z) (r : Rng) (o : BObject) : Prop :=
  location o = ((scale * (draw r 0 - 0.5))%Q, (scale * (draw r 1 - 0.5))%Q,
                (2 + 0.1 * inject_Z ii)%Q) /\
  rotation_euler o = (radians (0 + (360 - 0) * draw r 2)%Q,
                      radians (0 + (360 - 0) * draw r 3)%Q,
                      radians (0 + (360 - 0) * draw r 4)%Q).

Definition same_pose (o o' : BObject) : Prop :=
  location o' = location o /\ rotation_euler o' = rotation_euler o.

(** The configuration of a static collider (lines 131-134). *)
Definition passive_mesh (o : BObject) : Prop :=
  exists rb, rigid_body o = Some rb /\
    type rb = "PASSIVE"%string /\ collision_shape rb = "MESH"%string /\
    use_margin rb = true /\ collision_margin rb = 0.001%Q.

(** What C4 says of one run of a placement node on the count [n], where
    [g0] is the first link of the "Object Generators" port. *)
Definition returns_objects (n : nat) (g0 : portval) (inputs : Inputs) (w : World)
    (out : World * result (list nat)) : Prop :=
  exists w' l,
    out = (w', Return l) /\
    if is_empty_str g0
    then l = [] /\ drop [] inputs w = (w', Return tt) /\ bakes w' = S (bakes w)
    else length l = Nat.min n 200.

(** The ranges of C6 for the object of iteration [ii]: the two horizontal
    offsets within [half] of 0, the height [2 + 0.1 * ii], and every
    rotation angle the radians of a number of degrees in 0..360. *)
Definition pose_in_range (half : Q) (ii : nat) (o : BObject) : Prop :=
  match location o, rotation_euler o with
  | (x, y, z), (radians a, radians b, radians c) =>
      (- half <= x < half /\ - half <= y < half /\
       z == 2 + 0.1 * inject_Z (Z.of_nat ii) /\
       0 <= a < 360 /\ 0 <= b < 360 /\ 0 <= c < 360)%Q
  end.

(** What C6 says of one run of a placement node with offset factor [scale]:
    the run returns, and the object of every iteration [i] has the pose made
    from five successive draws, hence within the ranges. *)
Definition jittered (scale half : Q) (out : World * result (list nat)) : Prop :=
  exists w' l,
    out = (w', Return l) /\
    forall (i : nat) (h : nat), l !! i = Some h ->
      exists o r, objects w' !! h = Some o /\
                  posed scale (Z.of_nat i) r o /\ pose_in_range half i o.

End Nodes.

(** A sample of the interface, used to run the nodes: the random source is
    a counter whose draws are 0, 1/8, ..., 7/8, 0, ...; a branch generator
    yields an object at the origin without drawing. *)
Definition sample_random (r : nat) : Q * nat :=
  (Z.of_nat (r mod 8) # 8, S r).

Definition sample_int (v : portval) : exn + Z :=
  match v with
  | PInt z => inr z
  | PStr _ => inl ValueError
  | PRef _ => inl TypeError
  end.

Definition sample_object : BObject :=
  {| location := (0, 0, 0)%Q;
     rotation_euler := (radians 0, radians 0, radians 0);
     rigid_body := None |}.

Definition sample_externals : Externals :=
  {| Rng := nat;
     rng_random := sample_random;
     py_int := sample_int;
     Gen := portval;
     BranchGenerator := list portval;
     file_to_objgen := fun l _ => l;
     CreateBranchGenerator := fun l => l;
     branch_exec := fun _ r => (sample_object, r);
     default_rigid_body :=
       {| type := "ACTIVE"; collision_shape := "CONVEX_HULL";
          use_margin := false; collision_margin := 0.04%Q |} |}.

Definition sample_world : @World sample_externals :=
  @Build_World sample_externals 0%nat ∅ 0 false [] 250 1 0.

(** A world in which three objects were made. *)
Definition sample_world3 : @World sample_externals :=
  @Build_World sample_externals 0%nat
    (<[0%nat := sample_object]> (<[1%nat := sample_object]> (<[2%nat := sample_object]> ∅)))
    3 false [] 250 1 0.

(** Five objects from three candidate generators, two floors, no
    container. *)
Definition sample_inputs : Inputs :=
  {| Number_of_Objects := [PInt 5];
     Object_Generators := [PRef 10; PRef 11; PRef 12];
     Floor_Generator := [PRef 20; PRef 21];
     Container_Generator := [PStr ""] |}.

End Placement.

(** ** simulation.py: [render] and [RenderNode.exec] *)

Module Simulation.
Import Py PyStr.

(** An image as [imageio.imread] returns it: rows of pixel values. *)
Definition image : Type := list (list Z).

(** An object of interest: [obj.instance], [obj.root.hide_render],
    [obj.rendered], [obj.solo_mask_id] (absent until the mask pass sets it). *)
Record AnaObject : Type := {
  instance : Z;
  hide_render : bool;
  rendered : bool;
  solo_mask_id : option string
}.

(** A node of the compositor tree [scn.node_tree.nodes]: [node.name],
    [node.index] and the links of [node.outputs[0]], each given by the
    socket it goes to ([link.to_socket]).  A node is referred to by its
    position in the tree. *)
Record CompositorNode : Type := {
  name : string;
  index : Z;
  links : list nat
}.

(** A file output node of the AnaScene ([scene.maskout], [scene.imgout]):
    [base_path], [file_slots[0].path] and [format.file_format]. *)
Record FileOutput : Type := {
  base_path : string;
  slot_path : string;
  file_format : string
}.

(** The state [exec] reads and writes: the objects by handle, the render
    settings of the Blender scene, the compositor tree, the two file outputs
    of the AnaScene, and the files on disk by path.  The nodes that the
    AnaScene constructor and [obj.setup_mask()] create (both of anatools)
    are part of the state the model starts from: nothing in [exec] reads them
    before line 220. *)
Record Scene : Type := {
  objs : nat -> AnaObject;
  resolution_x : Z;
  resolution_y : Z;
  samples : Z;
  max_bounces : Z;
  frame_current : Z;
  nodes : list CompositorNode;
  maskout : FileOutput;
  imgout : FileOutput;
  files : gmap string image
}.

(** A link of the "Lights" port: the empty-string sentinel or a light. *)
Inductive lightval : Type :=
| LStr (s : string)
| LRef (h : nat).

(** A link of the "Resolution (px)" port: a string such as ["[640,384]"] or
    a list of integers. *)
Inductive resval : Type :=
| RStr (s : string)
| RList (l : list Z).

Record Inputs : Type := {
  Objects_of_Interest : list (list nat);
  Lights : list lightval;
  Camera : list nat;
  Resolution : list resval;
  Collect_Depth_and_Normal_Masks : list string;
  Calculate_Obstruction : list string
}.

(** [anatools.lib.context]: what [exec] reads of it. *)
Record Ctx : Type := {
  preview : bool;
  output : string;
  interp_num : Z
}.

(** The calls that leave the file, in the order they are made.  A render
    call records the argument of [render] and the state it renders. *)
Inductive event : Type :=
| EvLinkLight (l : nat)
| EvLinkCamera (c : nat)
| EvAnaScene (objects : list nat)
| EvCompositorSetup
| EvRender (resolution : string) (s : Scene)
| EvImsave (path : string)
| EvSetupMask (obj : nat)
| EvDepthNormalOutputs
| EvClearImageSlots
| EvUnlinkImage
| EvWriteAnnotations (calculate_obstruction : option string)
| EvWriteMetadata
| EvGlob (pattern : string)
| EvRemove (path : string).

(** The builtin [int] on a string, and what a call of
    [bpy.ops.render.render] leaves on disk. *)
Class Externals : Type := {
  py_int : string -> exn + Z;
  bpy_render : Scene -> gmap string image
}.

(** *** State, trace and exceptions *)

Definition M (A : Type) : Type := Scene -> Scene * list event * result A.

#[export] Instance M_ret : MRet M := fun A a s => (s, [], Return a).

#[export] Instance M_bind : MBind M := fun A B f m s =>
  match m s with
  | (s1, t1, Raise e) => (s1, t1, Raise e)
  | (s1, t1, Return a) =>
      match f a s1 with
      | (s2, t2, r) => (s2, t1 ++ t2, r)
      end
  end.

Definition raise {A : Type} (e : exn) : M A := fun s => (s, [], Raise e).
Definition get : M Scene := fun s => (s, [], Return s).
Definition modify (f : Scene -> Scene) : M unit := fun s => (f s, [], Return tt).
Definition emit (e : event) : M unit := fun s => (s, [e], Return tt).

Definition lift {A : Type} (r : result A) : M A :=
  match r with
  | Return a => mret a
  | Raise e => raise e
  end.

(** [for x in l: body(x)]. *)
Fixpoint for_each {A : Type} (l : list A) (body : A -> M unit) : M unit :=
  match l with
  | [] => mret tt
  | x :: l' => body x ;; for_each l' body
  end.

(** A loop that builds a value. *)
Fixpoint fold_each {A B : Type} (l : list A) (body : B -> A -> M B) (b : B) : M B :=
  match l with
  | [] => mret b
  | x :: l' => b' ← body b x; fold_each l' body b'
  end.

(** *** Field updates *)

Definition set_objs (f : nat -> AnaObject) (s : Scene) : Scene :=
  {| objs := f; resolution_x := resolution_x s; resolution_y := resolution_y s;
     samples := samples s; max_bounces := max_bounces s;
     frame_current := frame_current s; nodes := nodes s;
     maskout := maskout s; imgout := imgout s; files := files s |}.

Definition set_resolution_x (x : Z) (s : Scene) : Scene :=
  {| objs := objs s; resolution_x := x; resolution_y := resolution_y s;
     samples := samples s; max_bounces := max_bounces s;
     frame_current := frame_current s; nodes := nodes s;
     maskout := maskout s; imgout := imgout s; files := files s |}.

Definition set_resolution_y (y : Z) (s : Scene) : Scene :=
  {| objs := objs s; resolution_x := resolution_x s; resolution_y := y;
     samples := samples s; max_bounces := max_bounces s;
     frame_current := frame_current s; nodes := nodes s;
     maskout := maskout s; imgout := imgout s; files := files s |}.

Definition set_samples (n : Z) (s : Scene) : Scene :=
  {| objs := objs s; resolution_x := resolution_x s; resolution_y := resolution_y s;
     samples := n; max_bounces := max_bounces s;
     frame_current := frame_current s; nodes := nodes s;
     maskout := maskout s; imgout := imgout s; files := files s |}.

Definition set_max_bounces (n : Z) (s : Scene) : Scene :=
  {| objs := objs s; resolution_x := resolution_x s; resolution_y := resolution_y s;
     samples := samples s; max_bounces := n;
     frame_current := frame_current s; nodes := nodes s;
     maskout := maskout s; imgout := imgout s; files := files s |}.

Definition set_nodes (ns : list CompositorNode) (s : Scene) : Scene :=
  {| objs := objs s; resolution_x := resolution_x s; resolution_y := resolution_y s;
     samples := samples s; max_bounces := max_bounces s;
     frame_current := frame_current s; nodes := ns;
     maskout := maskout s; imgout := imgout s; files := files s |}.

Definition set_maskout (o : FileOutput) (s : Scene) : Scene :=
  {| objs := objs s; resolution_x := resolution_x s; resolution_y := resolution_y s;
     samples := samples s; max_bounces := max_bounces s;
     frame_current := frame_current s; nodes := nodes s;
     maskout := o; imgout := imgout s; files := files s |}.

Definition set_imgout (o : FileOutput) (s : Scene) : Scene :=
  {| objs := objs s; resolution_x := resolution_x s; resolution_y := resolution_y s;
     samples := samples s; max_bounces := max_bounces s;
     frame_current := frame_current s; nodes := nodes s;
     maskout := maskout s; imgout := o; files := files s |}.

Definition set_files (m : gmap string image) (s : Scene) : Scene :=
  {| objs := objs s; resolution_x := resolution_x s; resolution_y := resolution_y s;
     samples := samples s; max_bounces := max_bounces s;
     frame_current := frame_current s; nodes := nodes s;
     maskout := maskout s; imgout := imgout s; files := m |}.

Definition with_slot_path (p : string) (o : FileOutput) : FileOutput :=
  {| base_path := base_path o; slot_path := p; file_format := file_format o |}.

(** A store into an attribute of the object [h]. *)
Definition update_obj (h : nat) (f : AnaObject -> AnaObject) (s : Scene) : Scene :=
  set_objs (fun k => if Nat.eqb k h then f (objs s k) else objs s k) s.

Definition with_hide_render (b : bool) (o : AnaObject) : AnaObject :=
  {| instance := instance o; hide_render := b; rendered := rendered o;
     solo_mask_id := solo_mask_id o |}.

Definition with_rendered (b : bool) (o : AnaObject) : AnaObject :=
  {| instance := instance o; hide_render := hide_render o; rendered := b;
     solo_mask_id := solo_mask_id o |}.

Definition with_solo_mask_id (m : string) (o : AnaObject) : AnaObject :=
  {| instance := instance o; hide_render := hide_render o; rendered := rendered o;
     solo_mask_id := Some m |}.

Definition with_links (l : list nat) (n : CompositorNode) : CompositorNode :=
  {| name := name n; index := index n; links := l |}.

(** The links of [outputs[0]] of the node at position [i]. *)
Definition set_links (i : nat) (l : list nat) (s : Scene) : Scene :=
  set_nodes (alter (with_links l) i (nodes s)) s.

(** *** numpy and glob *)

(** [compimg[numpy.nonzero(compimg)]]: the non-zero pixel values, row by
    row. *)
Definition nonzero_values (img : image) : list Z :=
  List.filter (fun v => negb (Z.eqb v 0)) (concat img).

(** [numpy.unique]: the distinct values, in increasing order. *)
Fixpoint insert_unique (x : Z) (l : list Z) : list Z :=
  match l with
  | [] => [x]
  | y :: l' =>
      if Z.ltb x y then x :: l
      else if Z.eqb x y then l
      else y :: insert_unique x l'
  end.

Definition numpy_unique (l : list Z) : list Z := fold_right insert_unique [] l.

(** [x in a] for a numpy array [a]. *)
Definition in_array (x : Z) (a : list Z) : bool := existsb (Z.eqb x) a.

(** [obj in l] for a list of objects: the same object. *)
Definition in_list (obj : nat) (l : list nat) : bool := existsb (Nat.eqb obj) l.

Fixpoint strip_prefix (p s : string) : option string :=
  match p, s with
  | EmptyString, _ => Some s
  | String a p', String b s' => if Ascii.eqb a b then strip_prefix p' s' else None
  | String _ _, EmptyString => None
  end.

(** Whether the path [f] is found by [glob.glob(prefix + '-*')], for a
    [prefix] without the characters of [has_magic]: [f] is [prefix], a dash
    and any characters of one path component. *)
Definition glob_match (prefix f : string) : bool :=
  match strip_prefix (prefix +:+ "-") f with
  | Some rest => negb (contains_char "/" rest)
  | None => false
  end.

Definition glob_dash_star (prefix : string) (fs : gmap string image) : list string :=
  List.filter (glob_match prefix) (map fst (map_to_list fs)).

Section Node.
Context `{Externals}.

(** *** [render] (lines 286-305) *)

Definition render (resolution : string) : M unit :=
  (if String.eqb resolution "preview" then
     s ← get;
     (if 1000 <? resolution_x s
      then modify (set_resolution_x 640) ;; modify (set_resolution_y 384)
      else mret tt) ;;
     modify (set_samples 8) ;; modify (set_max_bounces 6)
   else if String.eqb resolution "high" then
     modify (set_samples 15) ;; modify (set_max_bounces 12)
   else
     modify (set_samples 1) ;; modify (set_max_bounces 1)) ;;
  s ← get;
  emit (EvRender resolution s) ;;
  modify (fun s => set_files (bpy_render s) s).

(** *** [RenderNode.exec] (lines 98-283) *)

Definition sensor_name : string := "RGBCamera".

(** [imageio.imread(path)]. *)
Definition imread (path : string) : M image :=
  s ← get;
  match files s !! path with
  | Some img => mret img
  | None => raise FileNotFoundError
  end.

(** [imageio.imsave(path, img)]. *)
Definition imsave (path : string) (img : image) : M unit :=
  emit (EvImsave path) ;;
  modify (fun s => set_files (<[path := img]> (files s)) s).

(** [[int(v) for v in fields]]. *)
Fixpoint ints (fields : list string) : result (list Z) :=
  match fields with
  | [] => Return []
  | v :: fields' =>
      match py_int v with
      | inl e => Raise e
      | inr z =>
          match ints fields' with
          | Raise e => Raise e
          | Return zs => Return (z :: zs)
          end
      end
  end.

(** Lines 124-126. *)
Definition parse_resolution (res : resval) : result (list Z) :=
  match res with
  | RList l => Return l
  | RStr r =>
      ints (split_char "," (replace_char "]" "" (replace_char "[" "" r)))
  end.

(** [l[i]]. *)
Definition subscript {A : Type} (l : list A) (i : nat) : result A :=
  match l !! i with
  | Some x => Return x
  | None => Raise IndexError
  end.

(** Lines 104-153: lights, camera, resolution, the AnaScene and the
    compositor of the image. *)
Definition setup (inputs : Inputs) : M (list nat) :=
  objects ← lift (index0 (Objects_of_Interest inputs));
  let lights := Lights inputs in
  l0 ← lift (index0 lights);
  (match l0 with
   | LStr "" => mret tt
   | _ => for_each lights (fun l =>
            match l with
            | LRef h => emit (EvLinkLight h)
            | LStr _ => raise TypeError
            end)
   end) ;;
  camera ← lift (index0 (Camera inputs));
  emit (EvLinkCamera camera) ;;
  res ← lift (index0 (Resolution inputs));
  res ← lift (parse_resolution res);
  x ← lift (subscript res 0);
  modify (set_resolution_x x) ;;
  y ← lift (subscript res 1);
  modify (set_resolution_y y) ;;
  emit (EvAnaScene objects) ;;
  emit EvCompositorSetup ;;
  mret objects.

(** Line 159. *)
Definition imgfilename (ctx : Ctx) (s : Scene) : string :=
  format_0w 10 (interp_num ctx) +:+ "-" +:+ str_int (frame_current s)
    +:+ "-" +:+ sensor_name +:+ ".png".

(** Lines 156-162. *)
Definition preview_pass (ctx : Ctx) : M unit :=
  render "preview" ;;
  s ← get;
  img ← imread (path_join (path_join (output ctx) "images") (imgfilename ctx s));
  imsave (path_join (output ctx) "preview.png") img.

(** Lines 165-204: the image, the masks of the objects, the optional depth
    and normal outputs, and the render of the masks. *)
Definition composite_and_masks (inputs : Inputs) (objects : list nat) : M unit :=
  render "high" ;;
  for_each objects (fun obj => emit (EvSetupMask obj)) ;;
  collect_depth ← lift (index0 (Collect_Depth_and_Normal_Masks inputs));
  (if String.eqb collect_depth "T" then emit EvDepthNormalOutputs else mret tt) ;;
  emit EvClearImageSlots ;;
  render "masks".

Definition links_of (s : Scene) (i : nat) : list nat :=
  match nodes s !! i with
  | Some n => links n
  | None => []
  end.

(** Line 221: the positions of the nodes whose name ends in ["_mask"] or is
    ["mask"]. *)
Definition is_masknode (n : CompositorNode) : bool :=
  String.eqb (last_field "_" (name n)) "mask".

Definition masknodes (s : Scene) : list nat :=
  List.filter (fun i => match nodes s !! i with
                        | Some n => is_masknode n
                        | None => false
                        end)
              (seq 0 (length (nodes s))).

(** The body of the loop of lines 223-228; a value of [masklinks] is the
    pair of ['masknode'] and ['socketinput']. *)
Definition unlink_mask (masklinks : gmap Z (nat * nat)) (masknode : nat)
  : M (gmap Z (nat * nat)) :=
  s ← get;
  match nodes s !! masknode with
  | None => mret masklinks
  | Some n =>
      match links n with
      | [] => raise IndexError
      | socketinput :: rest =>
          modify (set_links masknode rest) ;;
          mret (<[index n := (masknode, socketinput)]> masklinks)
      end
  end.

(** Lines 233-234. *)
Definition masktemplate (s : Scene) : string :=
  path_join (base_path (maskout s))
            (slot_path (maskout s) +:+ "." +:+ lower (file_format (maskout s))).

(** Line 237. *)
Definition compositemaskfile (s : Scene) : string :=
  replace_char "#" (str_int (frame_current s)) (masktemplate s).

(** Line 241, from the image read on line 238. *)
Definition renderedobjects (s : Scene) (compimg : image) (objects : list nat) : list nat :=
  let allmasks := nonzero_values compimg in
  let renderedobjectidxs := numpy_unique allmasks in
  List.filter (fun obj => in_array (instance (objs s obj)) renderedobjectidxs) objects.

(** The body of the loop of lines 244-247. *)
Definition mark_one (rendered_objects : list nat) (obj : nat) : M unit :=
  modify (update_obj obj (with_hide_render true)) ;;
  if negb (in_list obj rendered_objects)
  then modify (update_obj obj (with_rendered false))
  else mret tt.

(** Lines 244-247. *)
Definition mark (objects rendered_objects : list nat) : M unit :=
  for_each objects (mark_one rendered_objects).

(** The body of the loop of lines 251-267. *)
Definition mask_one (masklinks : gmap Z (nat * nat)) (imgpath maskpath : string)
    (obj : nat) : M unit :=
  s ← get;
  let inst := instance (objs s obj) in
  let solo := "obj" +:+ format_0w 3 inst in
  modify (update_obj obj (with_solo_mask_id solo)) ;;
  modify (fun s => set_maskout (with_slot_path (maskpath +:+ "-" +:+ solo) (maskout s)) s) ;;
  modify (fun s => set_imgout (with_slot_path (imgpath +:+ "-" +:+ solo) (imgout s)) s) ;;
  modify (update_obj obj (with_hide_render false)) ;;
  entry ← lift (match masklinks !! inst with
                | Some e => Return e
                | None => Raise KeyError
                end);
  let '(masknode, socketinput) := entry in
  modify (fun s => set_links masknode (links_of s masknode ++ [socketinput]) s) ;;
  render "low" ;;
  modify (update_obj obj (with_hide_render true)) ;;
  s ← get;
  match links_of s masknode with
  | [] => raise IndexError
  | _ :: rest => modify (set_links masknode rest)
  end.

(** [for filepath in glob.glob('{}-*'.format(pattern)): os.remove(filepath)]. *)
Definition remove_matching (pattern : string) : M unit :=
  emit (EvGlob (pattern +:+ "-*")) ;;
  s ← get;
  for_each (glob_dash_star pattern (files s)) (fun filepath =>
    emit (EvRemove filepath) ;;
    modify (fun s => set_files (delete filepath (files s)) s)).

(** Line 276 and line 279. *)
Definition maskpattern (s : Scene) (maskpath : string) : string :=
  path_join (base_path (maskout s))
            (replace_char "#" (str_int (frame_current s)) maskpath).

Definition imgpattern (s : Scene) (imgpath : string) : string :=
  path_join (base_path (imgout s))
            (replace_char "#" (str_int (frame_current s)) imgpath).

(** Lines 275-281. *)
Definition cleanup (imgpath maskpath : string) : M unit :=
  s ← get;
  remove_matching (maskpattern s maskpath) ;;
  s ← get;
  remove_matching (imgpattern s imgpath).

(** Lines 219-231: every mask node is unlinked and remembered by its index,
    and the image is unlinked from the compositor. *)
Definition unlink_masks : M (gmap Z (nat * nat)) :=
  s ← get;
  masklinks ← fold_each (masknodes s) unlink_mask ∅;
  emit EvUnlinkImage ;;
  mret masklinks.

(** Lines 233-247: the objects in the image are read off the mask that was
    rendered, every object is hidden, and the others are marked. *)
Definition mask_discovery (objects : list nat) : M (list nat) :=
  s ← get;
  compimg ← imread (compositemaskfile s);
  let rendered_objects := renderedobjects s compimg objects in
  mark objects rendered_objects ;;
  mret rendered_objects.

(** Lines 249-267: one mask per object in the image. *)
Definition per_object_masks (masklinks : gmap Z (nat * nat)) (rendered_objects : list nat)
  : M (string * string) :=
  s ← get;
  let imgpath := slot_path (imgout s) in
  let maskpath := slot_path (maskout s) in
  for_each rendered_objects (mask_one masklinks imgpath maskpath) ;;
  mret (imgpath, maskpath).

(** Lines 217-273: the masks of the objects in the image and the
    annotations; the value is the pair of [imgpath] and [maskpath]. *)
Definition masks_and_annotations (calculate_obstruction : string) (objects : list nat)
  : M (string * string) :=
  masklinks ← unlink_masks;
  rendered_objects ← mask_discovery objects;
  paths ← per_object_masks masklinks rendered_objects;
  emit (EvWriteAnnotations (Some calculate_obstruction)) ;;
  emit EvWriteMetadata ;;
  mret paths.

(** Lines 217-283: what follows when the obstruction is calculated. *)
Definition obstruction_pass (calculate_obstruction : string) (objects : list nat) : M unit :=
  paths ← masks_and_annotations calculate_obstruction objects;
  cleanup paths.1 paths.2.

Definition exec (ctx : Ctx) (inputs : Inputs) : M unit :=
  objects ← setup inputs;
  if preview ctx then preview_pass ctx
  else
    composite_and_masks inputs objects ;;
    calculate_obstruction ← lift (index0 (Calculate_Obstruction inputs));
    if String.eqb calculate_obstruction "F" then
      emit (EvWriteAnnotations None) ;;
      emit EvWriteMetadata
    else obstruction_pass calculate_obstruction objects.

(** *** Vocabulary of the properties *)

Definition final {A : Type} (m : M A) (s : Scene) : Scene := (m s).1.1.
Definition trace {A : Type} (m : M A) (s : Scene) : list event := (m s).1.2.
Definition outcome {A : Type} (m : M A) (s : Scene) : result A := (m s).2.

(** The run [x] after the calls [t]. *)
Definition prepend {A : Type} (t : list event) (x : Scene * list event * result A)
  : Scene * list event * result A :=
  (x.1.1, t ++ x.1.2, x.2).

(** From a state in [P], every call that [m] makes is in [E], and if [m]
    returns [a] the state is in [Q a]. *)
Definition triple {A : Type} (P : Scene -> Prop) (m : M A) (E : event -> Prop)
    (Q : A -> Scene -> Prop) : Prop :=
  forall s, P s ->
    Forall E (trace m s) /\ forall a, outcome m s = Return a -> Q a (final m s).

(** What the loop of lines 244-247 makes of the object [h]. *)
Definition marked (objects rendered_objects : list nat) (f : nat -> AnaObject)
    (h : nat) : AnaObject :=
  if in_list h objects then
    let o := with_hide_render true (f h) in
    if in_list h rendered_objects then o else with_rendered false o
  else f h.

(** The settings that [render(resolution)] leaves (lines 287-303), and the
    state after the call. *)
Definition render_settings (resolution : string) (s : Scene) : Scene :=
  if String.eqb resolution "preview" then
    set_max_bounces 6 (set_samples 8
      (if 1000 <? resolution_x s
       then set_resolution_y 384 (set_resolution_x 640 s) else s))
  else if String.eqb resolution "high" then set_max_bounces 12 (set_samples 15 s)
  else set_max_bounces 1 (set_samples 1 s).

Definition rendered_scene (resolution : string) (s : Scene) : Scene :=
  set_files (bpy_render (render_settings resolution s)) (render_settings resolution s).

(** Line 252. *)
Definition solo_id (s : Scene) (obj : nat) : string :=
  "obj" +:+ format_0w 3 (instance (objs s obj)).

(** The state that the mask pass renders for the object [obj], whose mask
    node is [masknode] with the socket [socketinput] (lines 252-261), and the
    state once the object is hidden again (line 266). *)
Definition mask_render_scene (imgpath maskpath : string) (obj masknode socketinput : nat)
    (s : Scene) : Scene :=
  let solo := solo_id s obj in
  let s := update_obj obj (with_solo_mask_id solo) s in
  let s := set_maskout (with_slot_path (maskpath +:+ "-" +:+ solo) (maskout s)) s in
  let s := set_imgout (with_slot_path (imgpath +:+ "-" +:+ solo) (imgout s)) s in
  let s := update_obj obj (with_hide_render false) s in
  let s := set_links masknode (links_of s masknode ++ [socketinput]) s in
  render_settings "low" s.

Definition mask_rehidden (imgpath maskpath : string) (obj masknode socketinput : nat)
    (s : Scene) : Scene :=
  update_obj obj (with_hide_render true)
    (rendered_scene "low"
       (let solo := solo_id s obj in
        let s := update_obj obj (with_solo_mask_id solo) s in
        let s := set_maskout (with_slot_path (maskpath +:+ "-" +:+ solo) (maskout s)) s in
        let s := set_imgout (with_slot_path (imgpath +:+ "-" +:+ solo) (imgout s)) s in
        let s := update_obj obj (with_hide_render false) s in
        set_links masknode (links_of s masknode ++ [socketinput]) s)).

(** The calls of each part of [exec]. *)
Definition setup_event (e : event) : Prop :=
  match e with
  | EvLinkLight _ | EvLinkCamera _ | EvAnaScene _ | EvCompositorSetup => True
  | _ => False
  end.

Definition preview_event (ctx : Ctx) (e : event) : Prop :=
  match e with
  | EvRender resolution _ => resolution = "preview"%string
  | EvImsave path => path = path_join (output ctx) "preview.png"
  | _ => False
  end.

Definition composite_event (e : event) : Prop :=
  match e with
  | EvRender resolution _ => resolution = "high"%string \/ resolution = "masks"%string
  | EvSetupMask _ | EvDepthNormalOutputs | EvClearImageSlots => True
  | _ => False
  end.

Definition cleanup_event (e : event) : Prop :=
  match e with
  | EvGlob _ | EvRemove _ => True
  | _ => False
  end.

(** Every object of the list is hidden; the object [obj] is the only one
    of the list that is not. *)
Definition all_hidden (objects : list nat) (s : Scene) : Prop :=
  forall h, In h objects -> hide_render (objs s h) = true.

Definition only_visible (objects : list nat) (obj : nat) (s : Scene) : Prop :=
  In obj objects /\ hide_render (objs s obj) = false /\
  forall h, In h objects -> hide_render (objs s h) = false -> h = obj.

(** What no part of [exec] but the mask pass changes. *)
Definition same_objects (s0 s : Scene) : Prop :=
  objs s = objs s0 /\ nodes s = nodes s0 /\ maskout s = maskout s0 /\
  imgout s = imgout s0 /\ frame_current s = frame_current s0.

(** The path of the rendered frame that the preview copies (line 160) and
    the path it is copied to (line 161). *)
Definition frame_path (ctx : Ctx) (s : Scene) : string :=
  path_join (path_join (output ctx) "images") (imgfilename ctx s).

Definition preview_path (ctx : Ctx) : string :=
  path_join (output ctx) "preview.png".

(** The calls of lines 165-204 after the render of the image, when the
    depth port holds [collect_depth]. *)
Definition mask_setup_events (objects : list nat) (collect_depth : string) : list event :=
  map EvSetupMask objects
  ++ (if String.eqb collect_depth "T" then [EvDepthNormalOutputs] else [])
  ++ [EvClearImageSlots].

(** The lights of a port that [exec] can link: the sentinel alone in front,
    or lights only. *)
Definition lights_ok (lights : list lightval) : Prop :=
  match lights with
  | LStr "" :: _ => True
  | _ => Forall (fun l => match l with LRef _ => True | LStr _ => False end) lights
  end.

(** The calls of a run in which the obstruction is not calculated. *)
Definition no_obstruction_event (e : event) : Prop :=
  setup_event e \/ composite_event e \/
  e = EvWriteAnnotations None \/ e = EvWriteMetadata.

(** In a render of the mask pass (argument ['low']) one object of the list
    is visible and no other. *)
Definition one_visible_in_mask_pass (objects : list nat) (e : event) : Prop :=
  match e with
  | EvRender resolution sn =>
      resolution = "low"%string -> exists obj, only_visible objects obj sn
  | _ => True
  end.

(** What the passes over the compositor and the disk leave alone. *)
Definition same_but_nodes (s0 s : Scene) : Prop :=
  objs s = objs s0 /\ maskout s = maskout s0 /\ imgout s = imgout s0 /\
  frame_current s = frame_current s0 /\ files s = files s0.

(** The files that the clean up removes: those found by one of the two
    patterns of lines 277 and 280. *)
Definition scratch_file (s : Scene) (imgpath maskpath path : string) : bool :=
  glob_match (maskpattern s maskpath) path || glob_match (imgpattern s imgpath) path.

(** Every mask node of the tree has exactly one link (the one that
    [obj.setup_mask()] made). *)
Definition one_link_each (s : Scene) : Prop :=
  forall j n, nodes s !! j = Some n -> is_masknode n = true ->
    exists socketinput, links n = [socketinput].

(** What lines 223-228 leave: the mask nodes of [s0] without a link, and in
    [masklinks], under the index of each mask node, a mask node with that
    index and the socket its link went to. *)
Definition unlinked (s0 s : Scene) : Prop :=
  forall j, nodes s !! j
            = (fun n => if is_masknode n then with_links [] n else n) <$> nodes s0 !! j.

Definition masklinks_of (s0 : Scene) (masklinks : gmap Z (nat * nat)) : Prop :=
  (forall z masknode socketinput,
     masklinks !! z = Some (masknode, socketinput) ->
     exists n, nodes s0 !! masknode = Some n /\ is_masknode n = true /\
               index n = z /\ links n = [socketinput]) /\
  (forall j n, nodes s0 !! j = Some n -> is_masknode n = true ->
     is_Some (masklinks !! index n)).

(** In the state [sn] the mask node [masknode] is linked to [socketinput]
    and no other mask node has a link. *)
Definition only_mask_link (masknode socketinput : nat) (sn : Scene) : Prop :=
  forall j n, nodes sn !! j = Some n -> is_masknode n = true ->
    links n = if Nat.eqb j masknode then [socketinput] else [].

(** The state [sn] of the render of the mask of [obj], in a mask pass that
    starts in [s] with the output paths [imgpath] and [maskpath]: [obj] alone
    is visible, its mask node alone is linked, to the socket it was linked to
    in [s0], the outputs are named after [obj], and the render has 1 sample
    and 1 bounce. *)
Definition mask_snapshot (s0 s : Scene) (objects : list nat) (imgpath maskpath : string)
    (obj : nat) (sn : Scene) : Prop :=
  only_visible objects obj sn /\
  samples sn = 1 /\ max_bounces sn = 1 /\
  slot_path (maskout sn) = maskpath +:+ "-" +:+ solo_id s obj /\
  slot_path (imgout sn) = imgpath +:+ "-" +:+ solo_id s obj /\
  exists masknode socketinput n,
    nodes s0 !! masknode = Some n /\ is_masknode n = true /\
    index n = instance (objs s obj) /\ links n = [socketinput] /\
    only_mask_link masknode socketinput sn.

(** What holds between two iterations of the mask pass that started in
    [s]: the instance ids and the nodes are those of [s], every object of the
    list is hidden, and the frame and the directories of the outputs are
    those of [s]. *)
Definition mask_pass_state (objects : list nat) (s st : Scene) : Prop :=
  (forall h, instance (objs st h) = instance (objs s h)) /\
  all_hidden objects st /\
  nodes st = nodes s /\
  frame_current st = frame_current s /\
  base_path (maskout st) = base_path (maskout s) /\
  base_path (imgout st) = base_path (imgout s).

(** The path of the combined mask (lines 233-237) when the slot of the mask
    output is [maskpath]. *)
Definition mask_file (s : Scene) (maskpath : string) : string :=
  replace_char "#" (str_int (frame_current s))
    (path_join (base_path (maskout s))
               (maskpath +:+ "." +:+ lower (file_format (maskout s)))).

(** The outputs as the AnaScene of anatools lays them out: masks and images
    in the directories [masks] and [images] of [ctx.output], the image slot
    named as on line 149, the mask slot a relative path. *)
Definition anascene_layout (ctx : Ctx) (s : Scene) (imgpath maskpath : string) : Prop :=
  base_path (maskout s) = path_join (output ctx) "masks" /\
  base_path (imgout s) = path_join (output ctx) "images" /\
  imgpath = format_0w 10 (interp_num ctx) +:+ "-#-" +:+ sensor_name +:+ ".png" /\
  starts_with "/" maskpath = false /\
  contains_char "#" (output ctx) = false.

End Node.

(** C3 as the specification states it: with the obstruction disabled, the
    image is the only thing [exec] renders. *)
Definition obstruction_disabled_skips_mask_render : Prop :=
  forall (H : Externals) (ctx : Ctx) (inputs : Inputs) (s0 : Scene) cos,
    preview ctx = false ->
    Calculate_Obstruction inputs = "F"%string :: cos ->
    forall resolution sn,
      In (EvRender resolution sn) (trace (exec ctx inputs) s0) ->
      resolution = "high"%string.

(** *** Vocabulary of the further properties *)

(** The place of a call in the order of the statements of [exec]. *)
Definition render_stage (resolution : string) : nat :=
  if String.eqb resolution "preview" || String.eqb resolution "high" then 4
  else if String.eqb resolution "masks" then 8
  else 10.

Definition stage (e : event) : nat :=
  match e with
  | EvLinkLight _ => 0
  | EvLinkCamera _ => 1
  | EvAnaScene _ => 2
  | EvCompositorSetup => 3
  | EvRender resolution _ => render_stage resolution
  | EvImsave _ | EvSetupMask _ => 5
  | EvDepthNormalOutputs => 6
  | EvClearImageSlots => 7
  | EvUnlinkImage => 9
  | EvWriteAnnotations _ => 11
  | EvWriteMetadata => 12
  | EvGlob _ | EvRemove _ => 13
  end%nat.

(** Every run of [m] makes its calls in the order of their stages, all of
    them between the stages [lo] and [hi]. *)
Definition staged {A : Type} (lo hi : nat) (m : M A) : Prop :=
  forall s, StronglySorted le (map stage (trace m s)) /\
            Forall (fun e => (lo <= stage e <= hi)%nat) (trace m s).

(** A part that makes no call. *)
Definition silent {A : Type} (m : M A) : Prop := forall s, trace m s = [].

(** Whatever the outcome, a run of [m] from a state in [I] ends in a state
    in [I]; and the value it returns, if it returns, is in [Q]. *)
Definition always {A : Type} (Inv : Scene -> Prop) (m : M A) (Q : A -> Prop) : Prop :=
  forall s, Inv s -> Inv (final m s) /\ forall a, outcome m s = Return a -> Q a.

(** The first link of the "Objects of Interest" port, if there is one. *)
Definition objects_of (inputs : Inputs) : list nat :=
  match Objects_of_Interest inputs with
  | objects :: _ => objects
  | [] => []
  end.

(** What [exec] leaves of the state [s0], in every state [s] it goes
    through: the instance ids, the objects that are not in the list, the
    objects that are marked as not rendered, the names and the indices of
    the compositor nodes, the frame, and the directories and the format of
    the two outputs. *)
Definition exec_frame (objects : list nat) (s0 s : Scene) : Prop :=
  (forall h, instance (objs s h) = instance (objs s0 h)) /\
  (forall h, ~ In h objects -> objs s h = objs s0 h) /\
  (forall h, rendered (objs s h) = true -> rendered (objs s0 h) = true) /\
  map name (nodes s) = map name (nodes s0) /\
  map index (nodes s) = map index (nodes s0) /\
  frame_current s = frame_current s0 /\
  base_path (maskout s) = base_path (maskout s0) /\
  file_format (maskout s) = file_format (maskout s0) /\
  base_path (imgout s) = base_path (imgout s0) /\
  file_format (imgout s) = file_format (imgout s0).

(** The calls that write the results of the node. *)
Definition result_event (e : event) : Prop :=
  e = EvWriteMetadata \/ exists c, e = EvWriteAnnotations c.

(** The inputs with other links on the "Resolution (px)" port. *)
Definition with_resolution (r : list resval) (inputs : Inputs) : Inputs :=
  {| Objects_of_Interest := Objects_of_Interest inputs;
     Lights := Lights inputs;
     Camera := Camera inputs;
     Resolution := r;
     Collect_Depth_and_Normal_Masks := Collect_Depth_and_Normal_Masks inputs;
     Calculate_Obstruction := Calculate_Obstruction inputs |}.

(** A field of a resolution string: it holds no bracket and no comma. *)
Definition resolution_field (f : string) : Prop :=
  contains_char "[" f = false /\ contains_char "]" f = false /\
  contains_char "," f = false.

(** *** A sample run

    Four objects with the instance ids 1, 3, 5, 7 (handles 0 to 3), one mask
    node per object with one link, and a renderer that writes the image and
    the mask named by the two file outputs; the mask it writes shows the ids
    3 and 7. *)

Definition sample_int (v : string) : exn + Z :=
  match NilEmpty.uint_of_string v with
  | Some d => inr (Z.of_N (N.of_uint d))
  | None => inl ValueError
  end.

Definition sample_mask : image := [[0; 3; 3]; [7; 0; 3]; [0; 0; 7]].

Definition sample_render (s : Scene) : gmap string image :=
  let frame := str_int (frame_current s) in
  <[ path_join (base_path (imgout s)) (replace_char "#" frame (slot_path (imgout s)))
       := [[255]] ]>
  (<[ replace_char "#" frame
        (path_join (base_path (maskout s))
           (slot_path (maskout s) +:+ "." +:+ lower (file_format (maskout s))))
       := sample_mask ]> (files s)).

Definition sample_externals : Externals :=
  {| py_int := sample_int; bpy_render := sample_render |}.

Definition sample_objs (h : nat) : AnaObject :=
  {| instance := 2 * Z.of_nat h + 1; hide_render := false; rendered := true;
     solo_mask_id := None |}.

Definition sample_nodes : list CompositorNode :=
  [ {| name := "Render Layers"; index := 0; links := [100; 101]%nat |};
    {| name := "1_mask"; index := 1; links := [11%nat] |};
    {| name := "3_mask"; index := 3; links := [13%nat] |};
    {| name := "5_mask"; index := 5; links := [15%nat] |};
    {| name := "7_mask"; index := 7; links := [17%nat] |} ].

Definition sample_ctx : Ctx :=
  {| preview := false; output := "out"; interp_num := 0 |}.

Definition sample_preview_ctx : Ctx :=
  {| preview := true; output := "out"; interp_num := 0 |}.

Definition sample_scene : Scene :=
  {| objs := sample_objs;
     resolution_x := 0; resolution_y := 0; samples := 128; max_bounces := 12;
     frame_current := 50;
     nodes := sample_nodes;
     maskout := {| base_path := "out/masks"; slot_path := "0000000000-#-RGBCamera";
                   file_format := "PNG" |};
     imgout := {| base_path := "out/images"; slot_path := "0000000000-#-RGBCamera.png";
                  file_format := "PNG" |};
     files := ∅ |}.

(** The sample scene once the masks were rendered. *)
Definition sample_scene_masks : Scene :=
  set_files (sample_render sample_scene) sample_scene.

(** The sample scene with the combined mask, the image, and the mask and the
    image of the object with the id 3 on disk. *)
Definition sample_scene_scratch : Scene :=
  set_files
    (<[ "out/masks/0000000000-50-RGBCamera-obj003.png"%string := sample_mask ]>
       (<[ "out/images/0000000000-50-RGBCamera.png-obj003"%string := [[255]] ]>
          (sample_render sample_scene)))
    sample_scene.

Definition sample_inputs (resolution calculate_obstruction : string) : Inputs :=
  {| Objects_of_Interest := [[0; 1; 2; 3]%nat];
     Lights := [LRef 40];
     Camera := [50%nat];
     Resolution := [RStr resolution];
     Collect_Depth_and_Normal_Masks := ["F"%string];
     Calculate_Obstruction := [calculate_obstruction] |}.

End Simulation.

(** ** simulation.py: [LightNode.exec] and [CameraNode.exec] *)

Module SceneNodes.
Import Py PyStr.

(** A link of a port: a string, a number, a list of numbers, or an object.
    Python floats are read as the rationals they stand for and their
    arithmetic as exact. *)
Inductive portval : Type :=
| PStr (s : string)
| PNum (q : Q)
| PList (l : list Q)
| PRef (h : nat).

Record LightInputs : Type := {
  Type_ : list portval;
  Radiant_Power : list portval;
  Location : list portval
}.

Record CameraInputs : Type := {
  Location_Height : list portval;
  Roll : list portval
}.

(** [bpy.data.lights]: a light has a name, the type it was made with and,
    once set, an energy. *)
Record LightData : Type := {
  light_name : string;
  light_type : portval;
  energy : option Q
}.

Inductive data : Type :=
| DLight (i : nat)
| DCamera (i : nat).

(** What is stored into [obj.location]: a sequence of floats, or the link of
    the port as it came. *)
Inductive locval : Type :=
| LFloats (l : list Q)
| LLink (v : portval).

(** [bpy.data.objects]: an object has a name, its data and a location;
    [pointed] holds the target and the roll that [point_at] was last called
    with on it (the rotation itself is computed by [mathutils]). *)
Record BObject : Type := {
  object_name : string;
  object_data : data;
  location : locval;
  pointed : option (list Q * Q)
}.

(** What the two nodes call outside the repository: [ctx.random.random()],
    the builtin [float], and [math.sqrt]. *)
Class Externals : Type := {
  Rng : Type;
  rng_random : Rng -> Q * Rng;
  py_float : portval -> exn + Q;
  math_sqrt : Q -> exn + Q
}.

(** The state: the random source of [ctx], and the lights, cameras and
    objects of [bpy.data] in the order they were made; the handle of a light,
    a camera or an object is its position. *)
Record Bpy `{Externals} : Type := {
  random : Rng;
  lights : list LightData;
  cameras : list string;
  objects : list BObject
}.

Section Nodes.
Context `{Externals}.

Definition St (A : Type) : Type := Bpy -> Bpy * result A.

#[export] Instance St_ret : MRet St := fun A a w => (w, Return a).

#[export] Instance St_bind : MBind St := fun A B f m w =>
  match m w with
  | (w1, Raise e) => (w1, Raise e)
  | (w1, Return a) => f a w1
  end.

Definition lift {A : Type} (r : result A) : St A := fun w => (w, r).

Definition of_sum {A : Type} (r : exn + A) : result A :=
  match r with
  | inl e => Raise e
  | inr a => Return a
  end.

(** [bpy.data.lights.new(name, type=type)]. *)
Definition lights_new (name : string) (type : portval) : St nat := fun w =>
  ({| random := random w;
      lights := lights w ++ [{| light_name := name; light_type := type; energy := None |}];
      cameras := cameras w; objects := objects w |},
   Return (length (lights w))).

(** [lightData.energy = e]. *)
Definition set_energy (i : nat) (e : Q) : St unit := fun w =>
  ({| random := random w;
      lights := alter (fun d => {| light_name := light_name d; light_type := light_type d;
                                   energy := Some e |}) i (lights w);
      cameras := cameras w; objects := objects w |},
   Return tt).

(** [bpy.data.cameras.new(name)]. *)
Definition cameras_new (name : string) : St nat := fun w =>
  ({| random := random w; lights := lights w;
      cameras := cameras w ++ [name]; objects := objects w |},
   Return (length (cameras w))).

(** [bpy.data.objects.new(name, data)]: a new object is at the origin. *)
Definition objects_new (name : string) (d : data) : St nat := fun w =>
  ({| random := random w; lights := lights w; cameras := cameras w;
      objects := objects w ++ [{| object_name := name; object_data := d;
                                  location := LFloats [0; 0; 0]%Q; pointed := None |}] |},
   Return (length (objects w))).

Definition update_object (obj : nat) (f : BObject -> BObject) : St unit := fun w =>
  ({| random := random w; lights := lights w; cameras := cameras w;
      objects := alter f obj (objects w) |},
   Return tt).

(** [obj.location = l]. *)
Definition set_location (obj : nat) (l : locval) : St unit :=
  update_object obj (fun o =>
    {| object_name := object_name o; object_data := object_data o;
       location := l; pointed := pointed o |}).

(** [point_at(obj, target, roll)] (lines 308-338): the body builds a
    rotation from [target - obj.location] and [roll] with [mathutils] and
    stores it into [obj.matrix_world]; the model keeps the two arguments. *)
Definition point_at (obj : nat) (target : list Q) (roll : Q) : St unit :=
  update_object obj (fun o =>
    {| object_name := object_name o; object_data := object_data o;
       location := location o; pointed := Some (target, roll) |}).

(** [ctx.random.uniform(a, b)], which is [a + (b - a) * random()]. *)
Definition uniform (a b : Q) : St Q := fun w =>
  let '(u, r) := rng_random (random w) in
  ({| random := r; lights := lights w; cameras := cameras w; objects := objects w |},
   Return (a + (b - a) * u)%Q).

(** [[float(v) for v in fields]]. *)
Fixpoint floats (fields : list string) : result (list Q) :=
  match fields with
  | [] => Return []
  | v :: fields' =>
      match py_float (PStr v) with
      | inl e => Raise e
      | inr q =>
          match floats fields' with
          | Raise e => Raise e
          | Return qs => Return (q :: qs)
          end
      end
  end.

(** Lines 46-48. *)
Definition parse_location (v : portval) : result locval :=
  match v with
  | PStr s =>
      match floats (split_char "," (replace_char "]" "" (replace_char "[" "" s))) with
      | Raise e => Raise e
      | Return l => Return (LFloats l)
      end
  | PList l => Return (LFloats l)
  | _ => Return (LLink v)
  end.

(** [LightNode.exec] (lines 33-56), for the node named [name]. *)
Definition LightNode_exec (name : string) (inputs : LightInputs) : St nat :=
  lightType ← lift (index0 (Type_ inputs));
  power ← lift (index0 (Radiant_Power inputs));
  lightEnergy ← lift (of_sum (py_float power));
  lightData ← lights_new name lightType;
  set_energy lightData lightEnergy ;;
  lightLocation ← lift (index0 (Location inputs));
  lightLocation ← lift (parse_location lightLocation);
  lightObject ← objects_new name (DLight lightData);
  set_location lightObject lightLocation ;;
  point_at lightObject [0; 0; 0]%Q 0 ;;
  mret lightObject.

(** A Python value that is a float or a string, and [==] on two of them: a
    float never equals a string. *)
Inductive pyval : Type :=
| VFloat (q : Q)
| VStr (s : string).

Definition py_eq (a b : pyval) : bool :=
  match a, b with
  | VFloat x, VFloat y => Qeq_bool x y
  | VStr s, VStr t => String.eqb s t
  | _, _ => false
  end.

(** [roll * f] for a float [f]: a string, a list or an object times a float
    raises [TypeError]. *)
Definition mul_float (roll : portval) (f : Q) : result Q :=
  match roll with
  | PNum r => Return (r * f)%Q
  | _ => Raise TypeError
  end.

(** [CameraNode.exec] (lines 64-90), for the node named [name]. *)
Definition CameraNode_exec (name : string) (inputs : CameraInputs) : St nat :=
  cameraData ← cameras_new name;
  cameraObject ← objects_new name (DCamera cameraData);
  h ← lift (index0 (Location_Height inputs));
  height ← lift (of_sum (py_float h));
  let height_limits := (0.4, 0.7)%Q in
  height ← (if py_eq (VFloat height) (VStr "<random>")
            then uniform (fst height_limits) (snd height_limits)
            else mret height);
  x ← uniform 0 height;
  y_limit ← lift (of_sum (math_sqrt (height ^ 2 - x ^ 2)%Q));
  y ← uniform (- y_limit)%Q y_limit;
  set_location cameraObject (LFloats [x; y; height]) ;;
  roll ← lift (index0 (Roll inputs));
  r ← lift (mul_float roll 3.14%Q);
  point_at cameraObject [0; 0; 0]%Q (r / 180)%Q ;;
  mret cameraObject.

End Nodes.

(** *** Vocabulary of the properties *)

(** [','.join(fields)]. *)
Fixpoint join_comma (fields : list string) : string :=
  match fields with
  | [] => ""
  | [f] => f
  | f :: fields' => f +:+ "," +:+ join_comma fields'
  end.

(** A field of a location string: it holds no bracket and no comma. *)
Definition location_field (f : string) : Prop :=
  contains_char "[" f = false /\ contains_char "]" f = false /\
  contains_char "," f = false.

(** The inputs of a light with other links on the "Location (m)" port. *)
Definition with_location (l : list portval) (inputs : LightInputs) : LightInputs :=
  {| Type_ := Type_ inputs; Radiant_Power := Radiant_Power inputs; Location := l |}.

(** *** A sample of the interface

    The random source is a counter whose draws are 0, 1/8, ..., 7/8, 0, ...;
    [float] reads numbers and strings of digits; the square root is rounded
    down to a multiple of the inverse of the denominator. *)
Definition sample_random (r : nat) : Q * nat :=
  (Z.of_nat (r mod 8) # 8, S r).

Definition sample_float (v : portval) : exn + Q :=
  match v with
  | PNum q => inr q
  | PStr "" => inl ValueError
  | PStr s =>
      match NilEmpty.uint_of_string s with
      | Some d => inr (inject_Z (Z.of_N (N.of_uint d)))
      | None => inl ValueError
      end
  | _ => inl TypeError
  end.

Definition sample_sqrt (v : Q) : exn + Q :=
  if (Qnum v <? 0)%Z then inl ValueError
  else inr (Z.sqrt (Qnum v * Zpos (Qden v)) # Qden v).

Definition sample_externals : Externals :=
  {| Rng := nat; rng_random := sample_random;
     py_float := sample_float; math_sqrt := sample_sqrt |}.

Definition sample_bpy : @Bpy sample_externals :=
  @Build_Bpy sample_externals 0%nat [] [] [].

Definition sample_camera_inputs : CameraInputs :=
  {| Location_Height := [PNum 0.5%Q]; Roll := [PNum 90%Q] |}.

Definition sample_light_inputs (location : portval) : LightInputs :=
  {| Type_ := [PStr "POINT"]; Radiant_Power := [PStr "100"]; Location := [location] |}.

End SceneNodes.

(** * Properties *)

(** ** Strings and paths *)

Module PyStrSpec.
Import PyStr.

#[local] Open Scope string_scope.

Lemma append_cons a x y : String a x +:+ y = String a (x +:+ y).
Proof. reflexivity. Qed.

Lemma append_nil_l y : "" +:+ y = y.
Proof. reflexivity. Qed.

Lemma append_assoc x y z : (x +:+ y) +:+ z = x +:+ y +:+ z.
Proof.
  induction x as [|a x IH]; [reflexivity|].
  rewrite !append_cons, IH. reflexivity.
Qed.

Lemma append_inj_l a x y : a +:+ x = a +:+ y -> x = y.
Proof.
  induction a as [|c a IH]; [auto|]. rewrite !append_cons. intros [=]. auto.
Qed.

(** *** Digits *)

Lemma digits_nil_empty n : digits n = NilEmpty.string_of_uint (N.to_uint n).
Proof.
  unfold digits, NilZero.string_of_uint.
  destruct (N.to_uint n) eqn:E; try reflexivity.
  exfalso. destruct n as [|p]; [discriminate|].
  exact (DecimalPos.Unsigned.to_uint_nonnil p E).
Qed.

Lemma parse_digits_digits n : parse_digits (digits n) = Some n.
Proof.
  unfold parse_digits. rewrite digits_nil_empty, NilEmpty.usu. cbn.
  f_equal. apply DecimalN.Unsigned.of_to.
Qed.

Lemma parse_digits_zeros k s : parse_digits (zeros k s) = parse_digits s.
Proof.
  induction k as [|k IH]; [reflexivity|].
  cbn [zeros]. rewrite <- IH. unfold parse_digits. cbn.
  destruct (NilEmpty.uint_of_string (zeros k s)); reflexivity.
Qed.

Lemma parse_digits_dash s : parse_digits ("-" +:+ s) = None.
Proof.
  unfold parse_digits. change ("-" +:+ s) with (String "-" s).
  cbn [NilEmpty.uint_of_string].
  destruct (NilEmpty.uint_of_string s); reflexivity.
Qed.

(** [format(z, '0w')] tells two integers apart. *)
Lemma format_0w_inj w z1 z2 : format_0w w z1 = format_0w w z2 -> z1 = z2.
Proof.
  unfold format_0w, zfill. intros E.
  destruct (Z.ltb_spec z1 0), (Z.ltb_spec z2 0).
  - apply append_inj_l in E. apply (f_equal parse_digits) in E.
    rewrite !parse_digits_zeros, !parse_digits_digits in E. injection E as E. lia.
  - apply (f_equal parse_digits) in E.
    rewrite parse_digits_dash, parse_digits_zeros, parse_digits_digits in E.
    discriminate.
  - apply (f_equal parse_digits) in E.
    rewrite parse_digits_dash, parse_digits_zeros, parse_digits_digits in E.
    discriminate.
  - apply (f_equal parse_digits) in E.
    rewrite !parse_digits_zeros, !parse_digits_digits in E. injection E as E. lia.
Qed.

(** *** The characters of a string *)

Lemma contains_char_app c x y :
  contains_char c (x +:+ y) = contains_char c x || contains_char c y.
Proof.
  induction x as [|a x IH]; [reflexivity|].
  rewrite append_cons. cbn [contains_char]. rewrite IH. apply orb_assoc.
Qed.

Lemma contains_char_uint c d :
  no_digit c = true -> contains_char c (NilEmpty.string_of_uint d) = false.
Proof.
  unfold no_digit. cbn [forallb]. intros Hc.
  repeat (apply andb_prop in Hc; destruct Hc as [?%negb_true_iff Hc]).
  induction d; cbn [NilEmpty.string_of_uint contains_char]; rewrite ?IHd;
    try reflexivity;
    match goal with
    | |- (?b || false)%bool = false => replace b with false by congruence
    end; reflexivity.
Qed.

Lemma contains_char_digits c n : no_digit c = true -> contains_char c (digits n) = false.
Proof. intros Hc. rewrite digits_nil_empty. apply contains_char_uint, Hc. Qed.

Lemma contains_char_zeros c k s :
  Ascii.eqb "0" c = false -> contains_char c (zeros k s) = contains_char c s.
Proof.
  intros Hc. induction k as [|k IH]; [reflexivity|].
  cbn [zeros contains_char]. rewrite Hc, IH. reflexivity.
Qed.

Lemma no_digit_zero c : no_digit c = true -> Ascii.eqb "0" c = false.
Proof.
  unfold no_digit. cbn [forallb]. intros Hc.
  apply andb_prop in Hc. destruct Hc as [Hc _]. apply negb_true_iff, Hc.
Qed.

Lemma contains_char_str_int c z :
  no_digit c = true -> Ascii.eqb "-" c = false -> contains_char c (str_int z) = false.
Proof.
  intros Hc Hd. unfold str_int. destruct (z <? 0)%Z.
  - rewrite contains_char_app, contains_char_digits by exact Hc.
    cbn [contains_char]. rewrite Hd. reflexivity.
  - apply contains_char_digits, Hc.
Qed.

Lemma contains_char_format_0w c w z :
  no_digit c = true -> Ascii.eqb "-" c = false -> contains_char c (format_0w w z) = false.
Proof.
  intros Hc Hd. pose proof (no_digit_zero c Hc) as H0.
  unfold format_0w, zfill. destruct (z <? 0)%Z.
  - rewrite contains_char_app, contains_char_zeros, contains_char_digits by assumption.
    cbn [contains_char]. rewrite Hd. reflexivity.
  - rewrite contains_char_zeros, contains_char_digits by assumption. reflexivity.
Qed.

Lemma digits_nonempty n : digits n <> "".
Proof.
  rewrite digits_nil_empty.
  assert (Hn : N.to_uint n <> Decimal.Nil).
  { destruct n as [|p]; [discriminate|]. apply DecimalPos.Unsigned.to_uint_nonnil. }
  destruct (N.to_uint n); [congruence|..]; discriminate.
Qed.

Lemma str_int_nonempty z : str_int z <> "".
Proof.
  unfold str_int. destruct (z <? 0)%Z; [discriminate|apply digits_nonempty].
Qed.

(** *** [replace] *)

Lemma replace_char_app c b x y :
  replace_char c b (x +:+ y) = replace_char c b x +:+ replace_char c b y.
Proof.
  induction x as [|a x IH]; [reflexivity|].
  rewrite append_cons. cbn [replace_char].
  destruct (Ascii.eqb a c); rewrite IH; [|reflexivity].
  symmetry. apply append_assoc.
Qed.

Lemma replace_char_absent c b s : contains_char c s = false -> replace_char c b s = s.
Proof.
  induction s as [|a s IH]; [reflexivity|].
  cbn [contains_char replace_char]. intros [Ha Hs]%orb_false_elim.
  rewrite Ha, IH by exact Hs. reflexivity.
Qed.

(** *** Paths *)

Lemma starts_with_slash_absent s : contains_char "/" s = false -> starts_with "/" s = false.
Proof.
  destruct s as [|a s]; [reflexivity|].
  cbn [contains_char starts_with]. intros [Ha _]%orb_false_elim.
  rewrite Ascii.eqb_sym, Ha. reflexivity.
Qed.

Lemma starts_with_slash_app x y :
  starts_with "/" (x +:+ y)
  = match x with "" => starts_with "/" y | _ => starts_with "/" x end.
Proof. destruct x; reflexivity. Qed.

Lemma starts_with_slash_replace c b s :
  b <> "" -> starts_with "/" b = false -> starts_with "/" s = false ->
  starts_with "/" (replace_char c b s) = false.
Proof.
  intros Hb Hs. destruct s as [|a s]; [reflexivity|].
  cbn [replace_char]. destruct (Ascii.eqb a c); [|auto].
  intros _. rewrite starts_with_slash_app. destruct b; [congruence|exact Hs].
Qed.

Lemma path_join_relative a b : starts_with "/" b = false -> path_join a b = with_sep a +:+ b.
Proof. unfold path_join. intros ->. reflexivity. Qed.

Lemma ends_with_char_app c x y :
  y <> "" -> ends_with_char c (x +:+ y) = ends_with_char c y.
Proof.
  intros Hy. induction x as [|a x IH]; [reflexivity|].
  rewrite append_cons. cbn [ends_with_char]. rewrite IH.
  destruct (x +:+ y) eqn:E; [|reflexivity].
  destruct x; [|discriminate]. rewrite append_nil_l in E. congruence.
Qed.

Lemma with_sep_app x y :
  y <> "" -> ends_with_char "/" y = false -> with_sep (x +:+ y) = x +:+ y +:+ "/".
Proof.
  intros Hy He. unfold with_sep. rewrite ends_with_char_app, He by exact Hy.
  destruct (x +:+ y) eqn:E; [|symmetry; rewrite <- E; symmetry; apply append_assoc].
  destruct x; [|discriminate]. rewrite append_nil_l in E. congruence.
Qed.

Lemma contains_char_with_sep c a :
  Ascii.eqb "/" c = false -> contains_char c (with_sep a) = contains_char c a.
Proof.
  intros Hc. unfold with_sep. destruct a as [|x a]; [reflexivity|].
  destruct (ends_with_char "/" (String x a)); [reflexivity|].
  rewrite contains_char_app. cbn [contains_char]. rewrite Hc. apply orb_false_r.
Qed.

Lemma subdirectory out d :
  d <> "" -> starts_with "/" d = false -> ends_with_char "/" d = false ->
  with_sep (path_join out d) = with_sep out +:+ d +:+ "/".
Proof.
  intros Hd Hs He. rewrite path_join_relative by exact Hs. apply with_sep_app; assumption.
Qed.

End PyStrSpec.

Module WeightSpec.
Import Py Weight.

Section Exec.
Context `{Externals}.

Lemma exec_arity inputs (h : heap) :
  length (Generator inputs) <> 1%nat -> exec inputs h = (h, Raise ValueError).
Proof.
  intros Hlen. unfold exec.
  destruct (Nat.eqb_spec (length (Generator inputs)) 1) as [E|E]; [contradiction|reflexivity].
Qed.

Lemma exec_converted inputs (h h1 : heap) g0 g gs w ws f :
  Generator inputs = [g0] -> Weight inputs = w :: ws ->
  file_to_objgen [g0] h = (h1, g :: gs) ->
  py_float w = inr f ->
  exec inputs h = (<[g := f]> h1, Return g).
Proof.
  intros HG HW Hwrap Hf. unfold exec. rewrite HG, HW. cbn.
  rewrite Hwrap. cbn. rewrite Hf. reflexivity.
Qed.

Lemma exec_not_converted inputs (h h1 : heap) g0 g gs w ws e :
  Generator inputs = [g0] -> Weight inputs = w :: ws ->
  file_to_objgen [g0] h = (h1, g :: gs) ->
  py_float w = inl e ->
  exec inputs h = (h1, Raise e).
Proof.
  intros HG HW Hwrap Hf. unfold exec. rewrite HG, HW. cbn.
  rewrite Hwrap. cbn. rewrite Hf. reflexivity.
Qed.

(** C7. With exactly one link on the "Generator" port: on the weight
    ["2.5"], which [float] converts to 2.5, [exec] stores the float 2.5 in the
    [weight] attribute of the generator and returns the generator; on the
    weight ["abc"], on which [float] raises [ValueError], [exec] raises that
    error and leaves every [weight] as it was.  And [exec] raises whenever
    the "Generator" port does not hold exactly one link, before anything is
    touched. *)
Theorem weight_exec_spec (h h1 : heap) g0 g gs ws :
  py_float (PStr "2.5") = inr 2.5%float ->
  py_float (PStr "abc") = inl ValueError ->
  file_to_objgen [g0] h = (h1, g :: gs) ->
  (exec {| Generator := [g0]; Weight := PStr "2.5" :: ws |} h
     = (<[g := 2.5%float]> h1, Return g) /\
   (<[g := 2.5%float]> h1) !! g = Some 2.5%float) /\
  exec {| Generator := [g0]; Weight := PStr "abc" :: ws |} h
     = (h1, Raise ValueError) /\
  (forall inputs (h' : heap),
     length (Generator inputs) <> 1%nat -> exec inputs h' = (h', Raise ValueError)).
Proof.
  intros Hnum Hbad Hwrap. split; [split|split].
  - eapply exec_converted; eauto.
  - apply lookup_insert_eq.
  - eapply exec_not_converted; eauto.
  - intros inputs h' Hlen. apply exec_arity. exact Hlen.
Qed.

End Exec.

Lemma weight_exec_spec_witness :
  (exec (H := sample_externals)
        {| Generator := [PRef 7]; Weight := [PStr "2.5"] |} ∅
     = (<[7%nat := 2.5%float]> ∅, Return 7%nat) /\
   (<[7%nat := 2.5%float]> (∅ : heap)) !! 7%nat = Some 2.5%float) /\
  exec (H := sample_externals)
       {| Generator := [PRef 7]; Weight := [PStr "abc"] |} ∅
     = (∅, Raise ValueError) /\
  (forall inputs (h' : heap),
     length (Generator inputs) <> 1%nat ->
     exec (H := sample_externals) inputs h' = (h', Raise ValueError)).
Proof.
  apply (weight_exec_spec (H := sample_externals) ∅ ∅ (PRef 7) 7%nat [] []);
    reflexivity.
Defined.

End WeightSpec.

Module PlacementSpec.
Import Py Placement.

Section Nodes.
Context `{Externals}.

Lemma place_one_spec scale bg (w : World) acc ii :
  exists w' o r,
    place_one scale bg (w, acc) ii = (w', acc ++ [next w]) /\
    next w' = S (next w) /\
    bakes w' = bakes w /\
    objects w' = <[next w := o]> (objects w) /\
    posed scale ii r o.
Proof.
  unfold place_one, branch_generator_exec, ctx_uniform, ctx_random.
  destruct (branch_exec bg (random w)) as [o r0] eqn:Eb. cbn.
  destruct (rng_random r0) as [u1 r1] eqn:E1. cbn.
  destruct (rng_random r1) as [u2 r2] eqn:E2. cbn.
  destruct (rng_random r2) as [u3 r3] eqn:E3. cbn.
  destruct (rng_random r3) as [u4 r4] eqn:E4. cbn.
  destruct (rng_random r4) as [u5 r5] eqn:E5. cbn.
  eexists _, _, r0. split; [reflexivity|]. cbn.
  split; [reflexivity|]. split; [reflexivity|].
  split.
  - rewrite alter_insert_eq. rewrite alter_insert_eq. cbn. reflexivity.
  - unfold posed, draw. cbn. rewrite !E1. cbn. rewrite !E2. cbn.
    rewrite !E3. cbn. rewrite !E4. cbn. rewrite !E5. cbn. split; reflexivity.
Qed.

(** The loop from index [a], [k] iterations: the new objects get the handles
    [next w], ..., [next w + k - 1] in this order, each with the pose of its
    iteration; the objects that existed are untouched. *)
Lemma place_loop_spec scale bg : forall k a (w : World) acc,
  exists w',
    fold_left (place_one scale bg) (map Z.of_nat (seq a k)) (w, acc)
      = (w', acc ++ seq (next w) k) /\
    next w' = (next w + k)%nat /\
    bakes w' = bakes w /\
    (forall h, (h < next w)%nat -> objects w' !! h = objects w !! h) /\
    (forall i, (i < k)%nat ->
       exists o r, objects w' !! (next w + i)%nat = Some o /\
                   posed scale (Z.of_nat (a + i)) r o).
Proof.
  induction k as [|k IH]; intros a w acc.
  - exists w. cbn. rewrite app_nil_r. repeat split; auto with lia.
  - cbn [seq map fold_left].
    destruct (place_one_spec scale bg w acc (Z.of_nat a))
      as (w1 & o & r & E1 & Hn1 & Hb1 & Ho1 & Hp1).
    rewrite E1.
    destruct (IH (S a) w1 (acc ++ [next w])) as (w' & E & Hn & Hb & Hold & Hnew).
    exists w'. rewrite E, Hn1, <- app_assoc. cbn.
    split; [reflexivity|].
    split; [lia|]. split; [congruence|]. split.
    + intros h Hh. rewrite Hold by lia. rewrite Ho1.
      apply lookup_insert_ne. lia.
    + intros [|i] Hi.
      * exists o, r. rewrite Nat.add_0_r. split.
        -- rewrite Hold by lia. rewrite Ho1. apply lookup_insert_eq.
        -- rewrite Nat.add_0_r. exact Hp1.
      * destruct (Hnew i ltac:(lia)) as (o' & r' & Hl & Hp).
        exists o', r'. rewrite Hn1 in Hl.
        replace (next w + S i)%nat with (S (next w) + i)%nat by lia.
        replace (a + S i)%nat with (S a + i)%nat by lia. auto.
Qed.

(** *** Physics drop *)

Lemma link_all_spec : forall (l : list nat) (w : World),
  let w' := fold_left (fun w obj => link obj w) l w in
  next w' = next w /\ bakes w' = bakes w /\ random w' = random w /\
  rigidbody_enabled w' = rigidbody_enabled w /\
  frame_current w' = frame_current w /\
  rigidbody_collection w' = rigidbody_collection w ++ l /\
  (forall h o, objects w !! h = Some o ->
     exists o', objects w' !! h = Some o' /\ same_pose o o').
Proof.
  induction l as [|x l IH]; intros w; cbn.
  - rewrite app_nil_r. repeat split; auto.
    intros h o Ho. exists o. repeat split; auto.
  - destruct (IH (link x w)) as (Hn & Hb & Hr & He & Hf & Hc & Hp).
    rewrite Hn, Hb, Hr, He, Hf, Hc. cbn. rewrite <- app_assoc. cbn.
    repeat split; auto.
    intros h o Ho.
    assert (exists o1, objects (link x w) !! h = Some o1 /\ same_pose o o1)
      as (o1 & Ho1 & [Hl1 Hr1]).
    { cbn. rewrite lookup_alter. destruct (decide (x = h)) as [->|Hne].
      - rewrite Ho. cbn. eexists. split; [reflexivity|]. split; reflexivity.
      - exists o. repeat split; auto. }
    destruct (Hp h o1 Ho1) as (o' & Ho' & [Hl' Hr']).
    exists o'. split; [exact Ho'|]. split; congruence.
Qed.

Lemma add_collider_spec (port : list portval) (w : World) :
  let w' := add_collider port w in
  next w' = S (next w) /\ bakes w' = bakes w /\
  rigidbody_enabled w' = rigidbody_enabled w /\
  frame_current w' = frame_current w /\
  rigidbody_collection w' = rigidbody_collection w ++ [next w] /\
  (exists o, objects w' !! next w = Some o /\ passive_mesh o) /\
  (forall h, h <> next w -> objects w' !! h = objects w !! h).
Proof.
  unfold add_collider, branch_generator_exec.
  destruct (branch_exec _ (random w)) as [o r]. cbn.
  repeat split; auto.
  - rewrite !alter_insert_eq, lookup_insert_eq. cbn.
    eexists. split; [reflexivity|]. eexists. cbn. split; [reflexivity|].
    repeat split.
  - intros h Hh. rewrite !lookup_alter_ne by auto.
    apply lookup_insert_ne. auto.
Qed.

Lemma drop_spec (l : list nat) (inputs : Inputs) (w : World) c0 cs :
  Container_Generator inputs = c0 :: cs ->
  exists w',
    drop l inputs w = (w', Return tt) /\
    bakes w' = S (bakes w) /\
    rigidbody_enabled w' = true /\ frame_current w' = 50 /\
    rigidbody_collection w'
      = l ++ [next w] ++ (if is_empty_str c0 then [] else [S (next w)]) /\
    next w' = (if is_empty_str c0 then S (next w) else S (S (next w))) /\
    (exists o, objects w' !! next w = Some o /\ passive_mesh o) /\
    (is_empty_str c0 = false ->
       exists o, objects w' !! S (next w) = Some o /\ passive_mesh o) /\
    (forall h o, (h < next w)%nat -> objects w !! h = Some o ->
       exists o', objects w' !! h = Some o' /\ same_pose o o').
Proof.
  intros HC. unfold drop. rewrite HC. cbn [index0].
  set (w0 := world_add w).
  destruct (link_all_spec l w0) as (Hn & Hb & _ & He & Hf & Hc & Hp).
  set (w1 := fold_left (fun w obj => link obj w) l w0) in *.
  destruct (add_collider_spec (Floor_Generator inputs) w1)
    as (Hn2 & Hb2 & He2 & Hf2 & Hc2 & Hfloor & Hsame2).
  set (w2 := add_collider (Floor_Generator inputs) w1) in *.
  assert (Hnw : next w1 = next w) by (rewrite Hn; reflexivity).
  rewrite Hnw in *.
  destruct (is_empty_str c0) eqn:Ec.
  - exists (bake_all w2). cbn.
    rewrite Hb2, Hb, He2, He, Hf2, Hf, Hc2, Hc, Hn2. cbn.
    repeat split; auto.
    + discriminate.
    + intros h o Hh Ho. destruct (Hp h o Ho) as (o' & Ho' & Hs).
      exists o'. split; [|exact Hs]. rewrite Hsame2 by lia. exact Ho'.
  - destruct (add_collider_spec (c0 :: cs) w2)
      as (Hn3 & Hb3 & He3 & Hf3 & Hc3 & Hcont & Hsame3).
    exists (bake_all (add_collider (c0 :: cs) w2)). cbn.
    rewrite Hb3, Hb2, Hb, He3, He2, He, Hf3, Hf2, Hf, Hc3, Hc2, Hc, Hn3, Hn2.
    cbn. rewrite <- app_assoc. cbn.
    rewrite Hn2 in Hcont, Hsame3.
    repeat split; auto.
    + destruct Hfloor as (o & Ho & Hpass). exists o. split; [|exact Hpass].
      rewrite Hsame3 by lia. exact Ho.
    + intros h o Hh Ho. destruct (Hp h o Ho) as (o' & Ho' & Hs).
      exists o'. split; [|exact Hs].
      rewrite Hsame3 by lia. rewrite Hsame2 by lia. exact Ho'.
Qed.

(** *** The two placement nodes *)

Lemma posed_same_pose scale ii r o o' :
  posed scale ii r o -> same_pose o o' -> posed scale ii r o'.
Proof. intros [Hl Hr] [Hl' Hr']. split; congruence. Qed.

Lemma exec_with_spec scale (inputs : Inputs) (w : World) v vs n g0 gs c0 cs :
  Number_of_Objects inputs = v :: vs -> py_int v = inr n ->
  Object_Generators inputs = g0 :: gs ->
  Container_Generator inputs = c0 :: cs ->
  exists w1 w' l,
    exec_with scale inputs w = (w', Return l) /\
    drop l inputs w1 = (w', Return tt) /\
    (is_empty_str g0 = true -> l = [] /\ w1 = w) /\
    (is_empty_str g0 = false ->
       length l = Z.to_nat (Z.min 200 n) /\
       forall i h, l !! i = Some h ->
         exists o r, objects w' !! h = Some o /\ posed scale (Z.of_nat i) r o).
Proof.
  intros HN Hint HO HC. unfold exec_with. rewrite HN. cbn [index0].
  rewrite Hint, HO. cbn [index0].
  destruct (is_empty_str g0) eqn:Eg.
  - destruct (drop_spec [] inputs w c0 cs HC) as (w' & Ed & _).
    exists w, w', []. rewrite Ed. repeat split; auto; discriminate.
  - unfold arange.
    set (bg := CreateBranchGenerator (file_to_objgen (g0 :: gs) ToyboxChannelObject)).
    destruct (place_loop_spec scale bg (Z.to_nat (Z.min 200 n)) 0 w [])
      as (w1 & El & Hn1 & _ & _ & Hnew).
    rewrite El. cbn [app].
    destruct (drop_spec (seq (next w) (Z.to_nat (Z.min 200 n))) inputs w1 c0 cs HC)
      as (w' & Ed & _ & _ & _ & _ & _ & _ & _ & Hkept).
    exists w1, w', (seq (next w) (Z.to_nat (Z.min 200 n))). rewrite Ed.
    split; [reflexivity|]. split; [reflexivity|]. split; [discriminate|].
    intros _. split; [apply length_seq|].
    intros i h Hi. apply lookup_seq in Hi as [-> Hi].
    destruct (Hnew i Hi) as (o & r & Ho & Hp).
    destruct (Hkept (next w + i)%nat o ltac:(lia) Ho) as (o' & Ho' & Hs).
    exists o', r. split; [exact Ho'|].
    eapply posed_same_pose; eauto.
Qed.

(** The integer on the count port may be negative: [np.arange] of a
    negative number is empty and no object is placed. *)
Lemma exec_with_negative_count scale (inputs : Inputs) (w : World) v vs n g0 gs c0 cs :
  Number_of_Objects inputs = v :: vs -> py_int v = inr n -> n < 0 ->
  Object_Generators inputs = g0 :: gs ->
  Container_Generator inputs = c0 :: cs ->
  exists w', exec_with scale inputs w = (w', Return []).
Proof.
  intros HN Hint Hneg HO HC.
  destruct (exec_with_spec scale inputs w v vs n g0 gs c0 cs HN Hint HO HC)
    as (w1 & w' & l & E & _ & Hs & Hk).
  exists w'. rewrite E. destruct (is_empty_str g0).
  - destruct (Hs eq_refl) as [-> _]. reflexivity.
  - destruct (Hk eq_refl) as [Hlen _].
    replace (Z.to_nat (Z.min 200 n)) with 0%nat in Hlen by lia.
    destruct l; [reflexivity|discriminate].
Qed.

Lemma draw_range (r : Rng) k :
  (forall r, 0 <= fst (rng_random r) < 1)%Q -> (0 <= draw r k < 1)%Q.
Proof. intros Hr. unfold draw. apply Hr. Qed.

Lemma posed_in_range (i : nat) r o :
  (forall r, 0 <= fst (rng_random r) < 1)%Q ->
  (posed 0.1 (Z.of_nat i) r o -> pose_in_range 0.05 i o) /\
  (posed 0.5 (Z.of_nat i) r o -> pose_in_range 0.25 i o).
Proof.
  intros Hr.
  pose proof (draw_range r 0 Hr). pose proof (draw_range r 1 Hr).
  pose proof (draw_range r 2 Hr). pose proof (draw_range r 3 Hr).
  pose proof (draw_range r 4 Hr).
  split; intros [Hl Hrot]; unfold pose_in_range; rewrite Hl, Hrot;
    repeat split; try lra; reflexivity.
Qed.




End Nodes.



Lemma sample_random_range :
  forall r : nat, (0 <= fst (sample_random r) < 1)%Q.
Proof.
  intros r. unfold sample_random. cbn.
  pose proof (Nat.mod_upper_bound r 8 ltac:(lia)).
  unfold Qle, Qlt. cbn. lia.
Defined.


End PlacementSpec.

Module SimulationSpec.
Import Py PyStr Simulation.

(** *** The monad *)

Section Monad.
Context {A B : Type}.

Lemma run_bind_return (m : M A) (f : A -> M B) s s1 t1 a :
  m s = (s1, t1, Return a) ->
  (m ≫= f) s = ((f a s1).1.1, t1 ++ (f a s1).1.2, (f a s1).2).
Proof.
  intros E. unfold mbind, M_bind. rewrite E.
  destruct (f a s1) as [[s2 t2] r]. reflexivity.
Qed.

Lemma run_bind_raise (m : M A) (f : A -> M B) s s1 t1 e :
  m s = (s1, t1, Raise e) -> (m ≫= f) s = (s1, t1, Raise e).
Proof. intros E. unfold mbind, M_bind. rewrite E. reflexivity. Qed.

Lemma bind_run (m : M A) (f : A -> M B) s s1 t1 a :
  m s = (s1, t1, Return a) -> (m ≫= f) s = prepend t1 (f a s1).
Proof. apply run_bind_return. Qed.

Lemma bind_ret (a : A) (f : A -> M B) s : (mret a ≫= f) s = f a s.
Proof.
  unfold mbind, M_bind, mret, M_ret. destruct (f a s) as [[s2 t2] r]. reflexivity.
Qed.

Lemma bind_raise (e : exn) (f : A -> M B) s : (raise e ≫= f) s = (s, [], Raise e).
Proof. reflexivity. Qed.

Lemma bind_lift (r : result A) (f : A -> M B) s :
  (lift r ≫= f) s = match r with Return a => f a s | Raise e => (s, [], Raise e) end.
Proof. destruct r; [apply bind_ret|reflexivity]. Qed.

(** A sequence returns only if both parts do. *)
Lemma bind_returns (m : M A) (f : A -> M B) s s' t b :
  (m ≫= f) s = (s', t, Return b) ->
  exists s1 t1 a t2,
    m s = (s1, t1, Return a) /\ f a s1 = (s', t2, Return b) /\ t = t1 ++ t2.
Proof.
  unfold mbind, M_bind. destruct (m s) as [[s1 t1] [a|e]]; [|discriminate].
  destruct (f a s1) as [[s2 t2] r] eqn:Ef. intros [= -> <- ->].
  exists s1, t1, a, t2. auto.
Qed.

Lemma triple_bind (P : Scene -> Prop) (R : A -> Scene -> Prop) (Q : B -> Scene -> Prop)
    (E : event -> Prop) (m : M A) (f : A -> M B) :
  triple P m E R -> (forall a, triple (R a) (f a) E Q) -> triple P (m ≫= f) E Q.
Proof.
  intros Hm Hf s HP. destruct (Hm s HP) as [Ht Hq].
  unfold trace, outcome, final, mbind, M_bind in *.
  destruct (m s) as [[s1 t1] [a|e]]; cbn in *; [|split; [exact Ht|discriminate]].
  destruct (Hf a s1 (Hq a eq_refl)) as [Ht2 Hq2].
  unfold trace, outcome, final in *.
  destruct (f a s1) as [[s2 t2] r]; cbn in *.
  split; [apply Forall_app; auto|exact Hq2].
Qed.

Lemma triple_weaken (P P' : Scene -> Prop) (Q Q' : A -> Scene -> Prop)
    (E E' : event -> Prop) (m : M A) :
  triple P m E Q -> (forall s, P' s -> P s) -> (forall e, E e -> E' e) ->
  (forall a s, Q a s -> Q' a s) -> triple P' m E' Q'.
Proof.
  intros Hm HP HE HQ s Hs. destruct (Hm s (HP s Hs)) as [Ht Hq]. split.
  - eapply Forall_impl; [exact Ht|exact HE].
  - intros a Ha. apply HQ, Hq, Ha.
Qed.

Lemma triple_ret (P : Scene -> Prop) (Q : A -> Scene -> Prop) (E : event -> Prop) (a : A) :
  (forall s, P s -> Q a s) -> triple P (mret a) E Q.
Proof.
  intros H s HP. split; [constructor|]. intros a' [= <-]. apply H, HP.
Qed.

Lemma triple_raise (P : Scene -> Prop) (Q : A -> Scene -> Prop) (E : event -> Prop) e :
  triple P (raise e) E Q.
Proof. intros s HP. split; [constructor|]. intros a' [=]. Qed.

Lemma triple_lift (P : Scene -> Prop) (Q : A -> Scene -> Prop) (E : event -> Prop)
    (r : result A) :
  (forall a s, r = Return a -> P s -> Q a s) -> triple P (lift r) E Q.
Proof.
  intros H. destruct r as [a|e]; [|apply triple_raise].
  apply triple_ret. intros s HP. apply H; auto.
Qed.

End Monad.

Lemma prepend_nil {A : Type} (x : Scene * list event * result A) : prepend [] x = x.
Proof. destruct x as [[s t] r]. reflexivity. Qed.

Lemma prepend_prepend {A : Type} t1 t2 (x : Scene * list event * result A) :
  prepend t1 (prepend t2 x) = prepend (t1 ++ t2) x.
Proof. destruct x as [[s t] r]. unfold prepend. cbn. rewrite app_assoc. reflexivity. Qed.

Lemma bind_get {B : Type} (f : Scene -> M B) s : (get ≫= f) s = f s s.
Proof.
  unfold mbind, M_bind, get. destruct (f s s) as [[s2 t2] r]. reflexivity.
Qed.

Lemma bind_modify {B : Type} (g : Scene -> Scene) (f : unit -> M B) s :
  (modify g ≫= f) s = f tt (g s).
Proof.
  unfold mbind, M_bind, modify. destruct (f tt (g s)) as [[s2 t2] r]. reflexivity.
Qed.

Lemma bind_emit {B : Type} (e : event) (f : unit -> M B) s :
  (emit e ≫= f) s = prepend [e] (f tt s).
Proof.
  unfold mbind, M_bind, emit, prepend. destruct (f tt s) as [[s2 t2] r]. reflexivity.
Qed.

Lemma triple_get (P : Scene -> Prop) (Q : Scene -> Scene -> Prop) (E : event -> Prop) :
  (forall s, P s -> Q s s) -> triple P get E Q.
Proof.
  intros H s HP. split; [constructor|]. intros a' [= <-]. apply H, HP.
Qed.

Lemma triple_modify (P : Scene -> Prop) (Q : unit -> Scene -> Prop) (E : event -> Prop) f :
  (forall s, P s -> Q tt (f s)) -> triple P (modify f) E Q.
Proof.
  intros H s HP. split; [constructor|]. intros [] _. apply H, HP.
Qed.

Lemma triple_emit (P : Scene -> Prop) (Q : unit -> Scene -> Prop) (E : event -> Prop) e :
  (forall s, P s -> E e /\ Q tt s) -> triple P (emit e) E Q.
Proof.
  intros H s HP. destruct (H s HP) as [He HQ].
  split; [repeat constructor; exact He|]. intros [] _. exact HQ.
Qed.

Lemma triple_for_each {A : Type} (I : Scene -> Prop) (E : event -> Prop)
    (l : list A) (body : A -> M unit) :
  (forall x, In x l -> triple I (body x) E (fun _ => I)) ->
  triple I (for_each l body) E (fun _ => I).
Proof.
  induction l as [|x l IH]; intros Hb; cbn [for_each].
  - apply triple_ret. auto.
  - eapply triple_bind; [apply Hb; left; reflexivity|].
    intros ?. apply IH. intros y Hy. apply Hb. right. exact Hy.
Qed.

Lemma triple_fold_each {A B : Type} (I : Scene -> Prop) (E : event -> Prop)
    (l : list A) (body : B -> A -> M B) :
  (forall b x, In x l -> triple I (body b x) E (fun _ => I)) ->
  forall b, triple I (fold_each l body b) E (fun _ => I).
Proof.
  induction l as [|x l IH]; intros Hb b; cbn [fold_each].
  - apply triple_ret. auto.
  - eapply triple_bind; [apply Hb; left; reflexivity|].
    intros b'. apply IH. intros b'' y Hy. apply Hb. right. exact Hy.
Qed.

(** *** Mask discovery (lines 233-247) *)

Lemma insert_unique_In x y l : In x (insert_unique y l) <-> x = y \/ In x l.
Proof.
  induction l as [|z l IH]; cbn.
  - intuition.
  - destruct (Z.ltb_spec y z); [cbn; intuition|].
    destruct (Z.eqb_spec y z); [subst; cbn; intuition|].
    cbn. rewrite IH. intuition.
Qed.

Lemma numpy_unique_In x l : In x (numpy_unique l) <-> In x l.
Proof.
  induction l as [|y l IH]; cbn; [reflexivity|].
  rewrite insert_unique_In, IH. intuition.
Qed.

Lemma nonzero_values_In x img : In x (nonzero_values img) <-> x <> 0 /\ In x (concat img).
Proof.
  unfold nonzero_values. rewrite filter_In.
  destruct (Z.eqb_spec x 0); cbn; intuition congruence.
Qed.

Lemma in_array_In x a : in_array x a = true <-> In x a.
Proof.
  unfold in_array. rewrite existsb_exists. split.
  - intros (y & Hy & E). apply Z.eqb_eq in E. subst. exact Hy.
  - intros Hx. exists x. split; [exact Hx|apply Z.eqb_refl].
Qed.

Lemma in_list_In x l : in_list x l = true <-> In x l.
Proof.
  unfold in_list. rewrite existsb_exists. split.
  - intros (y & Hy & E). apply Nat.eqb_eq in E. subst. exact Hy.
  - intros Hx. exists x. split; [exact Hx|apply Nat.eqb_refl].
Qed.

Lemma renderedobjects_In s compimg objects obj :
  In obj (renderedobjects s compimg objects) <->
  In obj objects /\ In (instance (objs s obj)) (numpy_unique (nonzero_values compimg)).
Proof. unfold renderedobjects. rewrite filter_In, in_array_In. reflexivity. Qed.

Lemma mark_one_run rendered_objects obj s :
  mark_one rendered_objects obj s
  = ((if negb (in_list obj rendered_objects)
      then update_obj obj (with_rendered false) else fun s => s)
       (update_obj obj (with_hide_render true) s), [], Return tt).
Proof.
  unfold mark_one, mbind, M_bind, modify, mret, M_ret.
  destruct (negb (in_list obj rendered_objects)); reflexivity.
Qed.

Lemma mark_run rendered_objects : forall objects s,
  exists g,
    mark objects rendered_objects s = (set_objs g s, [], Return tt) /\
    forall h, g h = marked objects rendered_objects (objs s) h.
Proof.
  induction objects as [|obj objects IH]; intros s.
  - exists (objs s). split; [destruct s; reflexivity|]. intros h. reflexivity.
  - destruct (IH
      ((if negb (in_list obj rendered_objects)
        then update_obj obj (with_rendered false) else fun s => s)
         (update_obj obj (with_hide_render true) s)))
      as (g & Eg & Hg).
    exists g. split.
    + unfold mark in *. cbn [for_each].
      rewrite (run_bind_return _ _ _ _ _ _ (mark_one_run rendered_objects obj s)).
      rewrite Eg. cbn.
      destruct (negb (in_list obj rendered_objects)); reflexivity.
    + intros h. rewrite Hg. unfold marked. cbn [in_list existsb].
      fold (in_list h objects) (in_list h rendered_objects).
      destruct (Nat.eqb_spec h obj) as [->|Hne].
      * cbn [orb]. destruct (in_list obj rendered_objects) eqn:ER; cbn;
          rewrite Nat.eqb_refl; destruct (in_list obj objects); reflexivity.
      * cbn [orb]. destruct (in_list obj rendered_objects); cbn;
          destruct (Nat.eqb_spec h obj); try contradiction; reflexivity.
Qed.

Section Node.
Context `{Externals}.

Lemma mask_discovery_run objects s compimg :
  files s !! compositemaskfile s = Some compimg ->
  exists g,
    mask_discovery objects s
      = (set_objs g s, [], Return (renderedobjects s compimg objects)) /\
    forall h, g h = marked objects (renderedobjects s compimg objects) (objs s) h.
Proof.
  intros Hf.
  destruct (mark_run (renderedobjects s compimg objects) objects s)
    as (g & Eg & Hg).
  exists g. split; [|exact Hg].
  unfold mask_discovery, imread, mbind, M_bind, get, mret, M_ret. cbn.
  rewrite Hf. cbn. rewrite Eg. reflexivity.
Qed.

(** C1. For every list of objects and every combined mask image, mask
    discovery returns, and for each object of the list: its [rendered] flag
    is set to [False] when its instance id is not among the distinct non-zero
    pixel values of the image and is left as it was when the id is among
    them; so an object that was rendered is marked not-rendered if and only
    if its id is absent.  The objects kept for the mask pass are those whose
    id is present. *)
Theorem mask_discovery_marks (objects : list nat) (s : Scene) (compimg : image) :
  files s !! compositemaskfile s = Some compimg ->
  let ids := numpy_unique (nonzero_values compimg) in
  let s' := final (mask_discovery objects) s in
  outcome (mask_discovery objects) s = Return (renderedobjects s compimg objects) /\
  forall obj, In obj objects ->
    instance (objs s' obj) = instance (objs s obj) /\
    (~ In (instance (objs s obj)) ids -> rendered (objs s' obj) = false) /\
    (In (instance (objs s obj)) ids -> rendered (objs s' obj) = rendered (objs s obj)) /\
    (rendered (objs s obj) = true ->
       (rendered (objs s' obj) = false <-> ~ In (instance (objs s obj)) ids)) /\
    (In obj (renderedobjects s compimg objects) <-> In (instance (objs s obj)) ids).
Proof.
  intros Hf ids s'. subst s'.
  destruct (mask_discovery_run objects s compimg Hf) as (g & Eg & Hg).
  unfold final, outcome. rewrite Eg. cbn. split; [reflexivity|].
  intros obj Hobj. rewrite Hg. unfold marked.
  apply in_list_In in Hobj as Hobj'. rewrite Hobj'.
  pose proof (renderedobjects_In s compimg objects obj) as HR.
  fold ids in HR.
  destruct (in_list obj (renderedobjects s compimg objects)) eqn:ER.
  - apply in_list_In in ER. assert (Hin : In (instance (objs s obj)) ids) by tauto.
    cbn. repeat split; auto; try tauto; try congruence.
  - assert (Hnin : ~ In (instance (objs s obj)) ids).
    { intros Hin. assert (In obj (renderedobjects s compimg objects)) as Hc by tauto.
      apply in_list_In in Hc. congruence. }
    cbn. repeat split; auto; try tauto; try congruence.
Qed.

End Node.

(** The example of the specification: mask pixels {3, 7} and objects with
    the ids {1, 3, 5, 7}. *)
Lemma mask_discovery_marks_witness :
  let s' := final (mask_discovery [0; 1; 2; 3]%nat) sample_scene_masks in
  map (fun obj => instance (objs sample_scene_masks obj)) [0; 1; 2; 3]%nat = [1; 3; 5; 7] /\
  numpy_unique (nonzero_values sample_mask) = [3; 7] /\
  map (fun obj => rendered (objs s' obj)) [0; 1; 2; 3]%nat = [false; true; false; true].
Proof.
  intros s'. split; [reflexivity|]. split; [reflexivity|].
  destruct (mask_discovery_marks [0; 1; 2; 3]%nat sample_scene_masks sample_mask eq_refl)
    as [_ Hm].
  assert (Hids : numpy_unique (nonzero_values sample_mask) = [3; 7]) by reflexivity.
  rewrite Hids in Hm. fold s' in Hm.
  destruct (Hm 0%nat ltac:(cbn; auto)) as (_ & H0 & _).
  destruct (Hm 1%nat ltac:(cbn; auto)) as (_ & _ & H1 & _).
  destruct (Hm 2%nat ltac:(cbn; auto)) as (_ & H2 & _).
  destruct (Hm 3%nat ltac:(cbn; auto)) as (_ & _ & H3 & _).
  cbn [map]. rewrite H0, H1, H2, H3; [reflexivity|..]; cbn; intuition lia.
Defined.

Section Node.
Context `{Externals}.

(** *** [render] *)

Lemma render_run resolution s :
  render resolution s
  = (rendered_scene resolution s, [EvRender resolution (render_settings resolution s)],
     Return tt).
Proof.
  unfold render, rendered_scene, render_settings, mbind, M_bind, get, modify, emit,
    mret, M_ret.
  destruct (String.eqb resolution "preview"); cbn.
  - destruct (1000 <? resolution_x s); reflexivity.
  - destruct (String.eqb resolution "high"); reflexivity.
Qed.

(** *** The mask of one object (lines 251-267) *)

Lemma bind_render {B : Type} resolution (f : unit -> M B) s :
  (render resolution ≫= f) s
  = prepend [EvRender resolution (render_settings resolution s)]
      (f tt (rendered_scene resolution s)).
Proof. apply bind_run, render_run. Qed.

Lemma mask_one_run masklinks imgpath maskpath obj s :
  mask_one masklinks imgpath maskpath obj s
  = match masklinks !! instance (objs s obj) with
    | None =>
        (update_obj obj (with_hide_render false)
           (set_imgout (with_slot_path (imgpath +:+ "-" +:+ solo_id s obj) (imgout s))
              (set_maskout (with_slot_path (maskpath +:+ "-" +:+ solo_id s obj) (maskout s))
                 (update_obj obj (with_solo_mask_id (solo_id s obj)) s))),
         [], Raise KeyError)
    | Some (masknode, socketinput) =>
        let sr := mask_render_scene imgpath maskpath obj masknode socketinput s in
        let s7 := mask_rehidden imgpath maskpath obj masknode socketinput s in
        match links_of s7 masknode with
        | [] => (s7, [EvRender "low" sr], Raise IndexError)
        | _ :: rest => (set_links masknode rest s7, [EvRender "low" sr], Return tt)
        end
    end.
Proof.
  unfold mask_one. rewrite bind_get. cbn beta zeta.
  rewrite !bind_modify, bind_lift.
  destruct (masklinks !! instance (objs s obj)) as [[masknode socketinput]|] eqn:El;
    [|reflexivity].
  rewrite bind_modify, bind_render, bind_modify, bind_get.
  unfold mask_rehidden, mask_render_scene, solo_id, rendered_scene. cbn beta zeta.
  match goal with |- context [match ?l with [] => raise IndexError | _ => _ end] =>
    destruct l end; reflexivity.
Qed.

End Node.

(** *** The parts of [exec], call by call *)

Lemma triple_from_eq {A : Type} (P : Scene -> Prop) (m : M A) (E : event -> Prop)
    (Q : Scene -> A -> Scene -> Prop) :
  (forall s0, P s0 -> triple (eq s0) m E (Q s0)) ->
  triple P m E (fun a s => exists s0, P s0 /\ Q s0 a s).
Proof.
  intros Hm s HP. destruct (Hm s HP s eq_refl) as [Ht Hq]. split; [exact Ht|].
  intros a Ha. exists s. split; [exact HP|apply Hq, Ha].
Qed.

Section Node.
Context `{Externals}.

Lemma same_objects_refl s : same_objects s s.
Proof. repeat split. Qed.

Lemma same_objects_trans s0 s1 s2 :
  same_objects s0 s1 -> same_objects s1 s2 -> same_objects s0 s2.
Proof.
  intros (A1 & A2 & A3 & A4 & A5) (B1 & B2 & B3 & B4 & B5).
  repeat split; congruence.
Qed.

Lemma same_objects_render_settings resolution s :
  same_objects s (render_settings resolution s).
Proof.
  unfold render_settings.
  destruct (String.eqb resolution "preview");
    [destruct (1000 <? resolution_x s)|destruct (String.eqb resolution "high")];
    repeat split.
Qed.

Lemma same_objects_rendered resolution s :
  same_objects s (rendered_scene resolution s).
Proof.
  unfold rendered_scene.
  destruct (same_objects_render_settings resolution s) as (A1 & A2 & A3 & A4 & A5).
  repeat split; cbn; assumption.
Qed.

Ltac run_step :=
  first [ rewrite bind_get | rewrite bind_modify | rewrite bind_emit
        | rewrite bind_render | rewrite bind_ret | rewrite bind_lift ];
  cbn beta zeta.

Ltac run_done :=
  unfold trace, outcome, final;
  cbn [prepend fst snd app emit modify mret M_ret raise get lift];
  split; [repeat constructor; auto | intros ? [=]; subst; auto].

Lemma link_lights_run (E : event -> Prop) (lights : list lightval) s :
  (forall e, setup_event e -> E e) ->
  exists t r,
    for_each lights (fun l => match l with
                              | LRef h => emit (EvLinkLight h)
                              | LStr _ => raise TypeError
                              end) s = (s, t, r) /\ Forall E t.
Proof.
  intros HE. induction lights as [|l lights (t & r & Et & Ht)]; cbn [for_each].
  - exists [], (Return tt). split; [reflexivity|constructor].
  - destruct l as [str|h].
    + rewrite bind_raise. exists [], (Raise TypeError). split; [reflexivity|constructor].
    + rewrite bind_emit, Et. exists (EvLinkLight h :: t), r.
      split; [reflexivity|]. constructor; [apply HE; exact I|exact Ht].
Qed.

Lemma setup_triple (E : event -> Prop) (inputs : Inputs) s0 :
  (forall e, setup_event e -> E e) ->
  triple (eq s0) (setup inputs) E
    (fun objects s =>
       index0 (Objects_of_Interest inputs) = Return objects /\
       same_objects s0 s /\ files s = files s0).
Proof.
  intros HE s <-. unfold trace, outcome, final, setup.
  rewrite bind_lift. destruct (index0 (Objects_of_Interest inputs)) as [objects|e];
    [|run_done].
  rewrite bind_lift. destruct (index0 (Lights inputs)) as [l0|e]; [|run_done].
  assert (Hrest : forall t0, Forall E t0 ->
    let x := prepend t0
      ((camera ← lift (index0 (Camera inputs));
        emit (EvLinkCamera camera) ;;
        res ← lift (index0 (Resolution inputs));
        res ← lift (parse_resolution res);
        x ← lift (subscript res 0);
        modify (set_resolution_x x) ;;
        y ← lift (subscript res 1);
        modify (set_resolution_y y) ;;
        emit (EvAnaScene objects) ;;
        emit EvCompositorSetup ;;
        mret objects) s0) in
    Forall E x.1.2 /\
    forall a, x.2 = Return a ->
      Return objects = Return a /\ same_objects s0 x.1.1 /\ files x.1.1 = files s0).
  { intros t0 Ht0.
    rewrite bind_lift. destruct (index0 (Camera inputs)) as [camera|e];
      [|cbn; rewrite app_nil_r; split; [exact Ht0|discriminate]].
    rewrite bind_emit, bind_lift.
    assert (Hc : E (EvLinkCamera camera)) by (apply HE; exact I).
    assert (Ha : E (EvAnaScene objects)) by (apply HE; exact I).
    assert (Hs : E EvCompositorSetup) by (apply HE; exact I).
    destruct (index0 (Resolution inputs)) as [res|e];
      [|cbn; split; [apply Forall_app; split; auto|discriminate]].
    rewrite bind_lift. destruct (parse_resolution res) as [l|e];
      [|cbn; split; [apply Forall_app; split; auto|discriminate]].
    rewrite bind_lift. destruct (subscript l 0) as [x|e];
      [|cbn; split; [apply Forall_app; split; auto|discriminate]].
    rewrite bind_modify, bind_lift. destruct (subscript l 1) as [y|e];
      [|cbn; split; [apply Forall_app; split; auto|discriminate]].
    rewrite bind_modify, !bind_emit. cbn.
    split; [apply Forall_app; split; auto|].
    intros a [= <-]. repeat split. }
  assert (Hnone : forall m : M unit, m = mret tt ->
    let x := (m ≫= fun _ =>
      (camera ← lift (index0 (Camera inputs));
        emit (EvLinkCamera camera) ;;
        res ← lift (index0 (Resolution inputs));
        res ← lift (parse_resolution res);
        x ← lift (subscript res 0);
        modify (set_resolution_x x) ;;
        y ← lift (subscript res 1);
        modify (set_resolution_y y) ;;
        emit (EvAnaScene objects) ;;
        emit EvCompositorSetup ;;
        mret objects)) s0 in
    Forall E x.1.2 /\
    forall a, x.2 = Return a ->
      Return objects = Return a /\ same_objects s0 x.1.1 /\ files x.1.1 = files s0).
  { intros m ->. rewrite bind_ret. specialize (Hrest [] ltac:(constructor)).
    rewrite prepend_nil in Hrest. exact Hrest. }
  assert (Hloop :
    let x := (for_each (Lights inputs)
                (fun l => match l with
                          | LRef h => emit (EvLinkLight h)
                          | LStr _ => raise TypeError
                          end) ≫= fun _ =>
      (camera ← lift (index0 (Camera inputs));
        emit (EvLinkCamera camera) ;;
        res ← lift (index0 (Resolution inputs));
        res ← lift (parse_resolution res);
        x ← lift (subscript res 0);
        modify (set_resolution_x x) ;;
        y ← lift (subscript res 1);
        modify (set_resolution_y y) ;;
        emit (EvAnaScene objects) ;;
        emit EvCompositorSetup ;;
        mret objects)) s0 in
    Forall E x.1.2 /\
    forall a, x.2 = Return a ->
      Return objects = Return a /\ same_objects s0 x.1.1 /\ files x.1.1 = files s0).
  { destruct (link_lights_run E (Lights inputs) s0 HE) as (t & r & Et & Ht).
    destruct r as [[]|e].
    - rewrite (bind_run _ _ _ _ _ _ Et). apply Hrest, Ht.
    - rewrite (run_bind_raise _ _ _ _ _ _ Et). cbn. split; [exact Ht|discriminate]. }
  destruct l0 as [[|c str]|h]; [apply Hnone; reflexivity|exact Hloop|exact Hloop].
Qed.

Lemma preview_pass_run ctx s0 :
  preview_pass ctx s0
  = let s1 := rendered_scene "preview" s0 in
    match files s1 !! frame_path ctx s1 with
    | Some img =>
        (set_files (<[preview_path ctx := img]> (files s1)) s1,
         [EvRender "preview" (render_settings "preview" s0); EvImsave (preview_path ctx)],
         Return tt)
    | None => (s1, [EvRender "preview" (render_settings "preview" s0)],
               Raise FileNotFoundError)
    end.
Proof.
  unfold preview_pass. rewrite bind_render, bind_get. cbn zeta.
  unfold imread. fold (frame_path ctx (rendered_scene "preview" s0)).
  change (imsave (path_join (output ctx) "preview.png")) with (imsave (preview_path ctx)).
  unfold mbind at 1. unfold M_bind at 1. rewrite bind_get.
  destruct (files (rendered_scene "preview" s0)
              !! frame_path ctx (rendered_scene "preview" s0)) as [img|]; reflexivity.
Qed.

Lemma setup_masks_run (objects : list nat) s :
  for_each objects (fun obj => emit (EvSetupMask obj)) s
  = (s, map EvSetupMask objects, Return tt).
Proof.
  induction objects as [|obj objects IH]; cbn [for_each map]; [reflexivity|].
  rewrite bind_emit, IH. reflexivity.
Qed.

Lemma composite_and_masks_run inputs objects s0 :
  composite_and_masks inputs objects s0
  = let s1 := rendered_scene "high" s0 in
    match index0 (Collect_Depth_and_Normal_Masks inputs) with
    | Raise e =>
        (s1, EvRender "high" (render_settings "high" s0) :: map EvSetupMask objects,
         Raise e)
    | Return collect_depth =>
        (rendered_scene "masks" s1,
         EvRender "high" (render_settings "high" s0)
           :: mask_setup_events objects collect_depth
           ++ [EvRender "masks" (render_settings "masks" s1)],
         Return tt)
    end.
Proof.
  unfold composite_and_masks. rewrite bind_render.
  rewrite (bind_run _ _ _ _ _ _ (setup_masks_run objects _)).
  rewrite bind_lift. cbn zeta.
  destruct (index0 (Collect_Depth_and_Normal_Masks inputs)) as [cd|e].
  - unfold mask_setup_events.
    destruct (String.eqb cd "T").
    + rewrite !bind_emit, render_run. cbn. rewrite <- !app_assoc. reflexivity.
    + rewrite bind_ret, bind_emit, render_run. cbn. rewrite <- !app_assoc. reflexivity.
  - unfold prepend. cbn. rewrite app_nil_r. reflexivity.
Qed.

Lemma link_lights_ok (lights : list lightval) s :
  Forall (fun l => match l with LRef _ => True | LStr _ => False end) lights ->
  exists t,
    for_each lights (fun l => match l with
                              | LRef h => emit (EvLinkLight h)
                              | LStr _ => raise TypeError
                              end) s = (s, t, Return tt) /\ Forall setup_event t.
Proof.
  induction 1 as [|l lights Hl _ (t & Et & Ht)]; cbn [for_each].
  - exists []. split; [reflexivity|constructor].
  - destruct l as [str|h]; [contradiction|].
    rewrite bind_emit, Et. exists (EvLinkLight h :: t).
    split; [reflexivity|]. constructor; [exact I|exact Ht].
Qed.

(** When the ports are well formed [setup] returns the objects and has set
    the resolution. *)
Lemma setup_run inputs s0 objects os c cs res rs rx ry rest :
  Objects_of_Interest inputs = objects :: os ->
  lights_ok (Lights inputs) -> Lights inputs <> [] ->
  Camera inputs = c :: cs ->
  Resolution inputs = res :: rs ->
  parse_resolution res = Return (rx :: ry :: rest) ->
  exists t,
    setup inputs s0 = (set_resolution_y ry (set_resolution_x rx s0), t, Return objects) /\
    Forall setup_event t.
Proof.
  intros HO HL HLn HC HR HP. unfold setup.
  rewrite HO, HC, HR. rewrite bind_lift. cbn [index0].
  rewrite bind_lift.
  assert (Hrest : forall t0, Forall setup_event t0 -> exists t,
    prepend t0
      ((camera ← lift (Return c);
        emit (EvLinkCamera camera) ;;
        res ← lift (Return res);
        res ← lift (parse_resolution res);
        x ← lift (subscript res 0);
        modify (set_resolution_x x) ;;
        y ← lift (subscript res 1);
        modify (set_resolution_y y) ;;
        emit (EvAnaScene objects) ;;
        emit EvCompositorSetup ;;
        mret objects) s0)
    = (set_resolution_y ry (set_resolution_x rx s0), t, Return objects) /\
    Forall setup_event t).
  { intros t0 Ht0. rewrite bind_lift, bind_emit, bind_lift, bind_lift, HP, bind_lift.
    cbn [subscript lookup list_lookup]. rewrite bind_modify, bind_lift, bind_modify.
    rewrite !bind_emit. cbn. eexists. split; [reflexivity|].
    apply Forall_app. split; [exact Ht0|]. repeat constructor. }
  destruct (Lights inputs) as [|l0 ls] eqn:EL; [contradiction|]. cbn [index0].
  assert (Hloop : Forall (fun l => match l with LRef _ => True | LStr _ => False end)
                    (l0 :: ls) -> exists t,
    (for_each (l0 :: ls)
       (fun l => match l with
                 | LRef h => emit (EvLinkLight h)
                 | LStr _ => raise TypeError
                 end) ≫= fun _ =>
      (camera ← lift (Return c);
        emit (EvLinkCamera camera) ;;
        res ← lift (Return res);
        res ← lift (parse_resolution res);
        x ← lift (subscript res 0);
        modify (set_resolution_x x) ;;
        y ← lift (subscript res 1);
        modify (set_resolution_y y) ;;
        emit (EvAnaScene objects) ;;
        emit EvCompositorSetup ;;
        mret objects)) s0
    = (set_resolution_y ry (set_resolution_x rx s0), t, Return objects) /\
    Forall setup_event t).
  { intros Hall. destruct (link_lights_ok (l0 :: ls) s0 Hall) as (t0 & Et & Ht).
    rewrite (bind_run _ _ _ _ _ _ Et). apply Hrest, Ht. }
  destruct l0 as [[|ch str]|h].
  - rewrite bind_ret. destruct (Hrest [] ltac:(constructor)) as (t & Et & Ht).
    rewrite prepend_nil in Et. exists t. split; [exact Et|exact Ht].
  - apply Hloop. exact HL.
  - apply Hloop. exact HL.
Qed.

Lemma triple_seq {A B : Type} (m : M A) (f : A -> M B) (E : event -> Prop)
    (R : A -> Scene -> Prop) (Q : B -> Scene -> Prop) s0 :
  triple (eq s0) m E R ->
  (forall a s1, R a s1 -> triple (eq s1) (f a) E Q) ->
  triple (eq s0) (m ≫= f) E Q.
Proof.
  intros Hm Hf. eapply triple_bind; [exact Hm|].
  intros a s1 HR. exact (Hf a s1 HR s1 eq_refl).
Qed.

Lemma triple_eq_run {A : Type} (m : M A) (E : event -> Prop) (Q : A -> Scene -> Prop)
    s0 s' t r :
  m s0 = (s', t, r) -> Forall E t -> (forall a, r = Return a -> Q a s') ->
  triple (eq s0) m E Q.
Proof.
  intros Em Ht Hq s <-. unfold trace, outcome, final. rewrite Em. cbn. auto.
Qed.

(** *** Preview (lines 156-162) *)

Lemma preview_pass_triple ctx (E : event -> Prop) s0 :
  (forall e, preview_event ctx e -> E e) ->
  triple (eq s0) (preview_pass ctx) E (fun _ s => same_objects s0 s).
Proof.
  intros HE.
  pose proof (same_objects_rendered "preview" s0) as Hsame.
  assert (Hr : E (EvRender "preview" (render_settings "preview" s0)))
    by (apply HE; reflexivity).
  assert (Hs : E (EvImsave (preview_path ctx))) by (apply HE; reflexivity).
  pose proof (preview_pass_run ctx s0) as Erun. cbn zeta in Erun.
  destruct (files (rendered_scene "preview" s0)
              !! frame_path ctx (rendered_scene "preview" s0)) as [img|].
  - eapply triple_eq_run; [exact Erun|repeat constructor; auto|].
    intros _ _. destruct Hsame as (A1 & A2 & A3 & A4 & A5). repeat split; assumption.
  - eapply triple_eq_run; [exact Erun|repeat constructor; auto|]. intros a [=].
Qed.

(** C8. When the preview is requested, whatever the inputs: [exec] only
    sets up the scene, renders with the argument ['preview'] and saves the
    preview; it writes no annotation or metadata, sets up and renders no mask,
    removes no file, and leaves the objects and the compositor nodes as they
    were.  When the ports are well formed, with the resolution [(rx, ry)], and
    the rendered frame is on disk, [exec] returns after exactly one render, at
    8 samples and 6 bounces, at 640 x 384 if [rx > 1000] and at [(rx, ry)]
    otherwise, and the frame has been copied to [preview.png] under the output
    directory. *)
Theorem preview_returns_early (ctx : Ctx) (inputs : Inputs) (s0 : Scene) :
  preview ctx = true ->
  (Forall (fun e => setup_event e \/ preview_event ctx e) (trace (exec ctx inputs) s0) /\
   (outcome (exec ctx inputs) s0 = Return tt ->
    same_objects s0 (final (exec ctx inputs) s0))) /\
  forall objects os c cs res rs rx ry rest img,
    Objects_of_Interest inputs = objects :: os ->
    lights_ok (Lights inputs) -> Lights inputs <> [] ->
    Camera inputs = c :: cs ->
    Resolution inputs = res :: rs ->
    parse_resolution res = Return (rx :: ry :: rest) ->
    let sr := render_settings "preview" (set_resolution_y ry (set_resolution_x rx s0)) in
    bpy_render sr !! frame_path ctx s0 = Some img ->
    exists t,
      exec ctx inputs s0
        = (set_files (<[preview_path ctx := img]> (bpy_render sr)) sr,
           t ++ [EvRender "preview" sr; EvImsave (preview_path ctx)], Return tt) /\
      Forall setup_event t /\
      samples sr = 8 /\ max_bounces sr = 6 /\
      (resolution_x sr, resolution_y sr)
        = (if 1000 <? rx then (640, 384) else (rx, ry)).
Proof.
  intros Hp. split.
  - assert (Ht : triple (eq s0) (exec ctx inputs)
                   (fun e => setup_event e \/ preview_event ctx e)
                   (fun _ s => same_objects s0 s)).
    { unfold exec. eapply triple_seq; [apply setup_triple; auto|].
      cbn beta. intros objects s1 (_ & Hsame & _). rewrite Hp.
      eapply triple_weaken; [apply (preview_pass_triple ctx _ s1)|..]; eauto.
      cbn beta. intros _ s. apply same_objects_trans. exact Hsame. }
    destruct (Ht s0 eq_refl) as [Htr Hq]. split; [exact Htr|].
    intros Hret. apply (Hq tt Hret).
  - intros objects os c cs res rs rx ry rest img HO HL HLn HC HR HP sr Himg.
    destruct (setup_run inputs s0 objects os c cs res rs rx ry rest HO HL HLn HC HR HP)
      as (t & Et & Ht).
    exists t. unfold exec. rewrite (bind_run _ _ _ _ _ _ Et), Hp.
    rewrite preview_pass_run. cbn zeta. fold sr.
    assert (Hfp : frame_path ctx (rendered_scene "preview"
                    (set_resolution_y ry (set_resolution_x rx s0))) = frame_path ctx s0).
    { unfold frame_path, imgfilename.
      destruct (same_objects_rendered "preview"
                  (set_resolution_y ry (set_resolution_x rx s0))) as (_ & _ & _ & _ & Hf).
      rewrite Hf. reflexivity. }
    rewrite Hfp. unfold rendered_scene at 1. cbn [files set_files]. fold sr.
    rewrite Himg. unfold rendered_scene. fold sr. cbn.
    split; [reflexivity|]. split; [exact Ht|].
    subst sr. unfold render_settings. cbn.
    destruct (1000 <? rx); cbn; auto.
Qed.

(** *** Image and masks (lines 165-204) *)

Lemma mask_setup_events_composite objects collect_depth :
  Forall composite_event (mask_setup_events objects collect_depth).
Proof.
  unfold mask_setup_events. apply Forall_app. split.
  - apply List.Forall_forall. intros e He. apply in_map_iff in He as (obj & <- & _). exact I.
  - apply Forall_app. split; [destruct (String.eqb collect_depth "T")|];
      repeat constructor.
Qed.

Lemma composite_and_masks_triple inputs objects (E : event -> Prop) s0 :
  (forall e, composite_event e -> E e) ->
  triple (eq s0) (composite_and_masks inputs objects) E
    (fun _ s => same_objects s0 s /\
                s = rendered_scene "masks" (rendered_scene "high" s0)).
Proof.
  intros HE.
  pose proof (composite_and_masks_run inputs objects s0) as Erun. cbn zeta in Erun.
  assert (Hh : E (EvRender "high" (render_settings "high" s0)))
    by (apply HE; left; reflexivity).
  destruct (index0 (Collect_Depth_and_Normal_Masks inputs)) as [cd|e].
  - eapply triple_eq_run; [exact Erun|..].
    + constructor; [exact Hh|]. apply Forall_app. split.
      * eapply Forall_impl; [apply mask_setup_events_composite|exact HE].
      * repeat constructor. apply HE. right. reflexivity.
    + intros _ _. split; [|reflexivity].
      eapply same_objects_trans; apply same_objects_rendered.
  - eapply triple_eq_run; [exact Erun|..].
    + constructor; [exact Hh|]. apply List.Forall_forall. intros ev Hev.
      apply in_map_iff in Hev as (obj & <- & _). apply HE. exact I.
    + intros a [=].
Qed.

Lemma exec_obstruction_disabled (ctx : Ctx) (inputs : Inputs) (s0 : Scene) cos
    objects os c cs res rs rx ry rest collect_depth cds :
  preview ctx = false ->
  Calculate_Obstruction inputs = "F"%string :: cos ->
  Objects_of_Interest inputs = objects :: os ->
  lights_ok (Lights inputs) -> Lights inputs <> [] ->
  Camera inputs = c :: cs ->
  Resolution inputs = res :: rs ->
  parse_resolution res = Return (rx :: ry :: rest) ->
  Collect_Depth_and_Normal_Masks inputs = collect_depth :: cds ->
  let s1 := set_resolution_y ry (set_resolution_x rx s0) in
  let sm := render_settings "masks" (rendered_scene "high" s1) in
  exists t,
    exec ctx inputs s0
      = (rendered_scene "masks" (rendered_scene "high" s1),
         t ++ EvRender "high" (render_settings "high" s1)
           :: mask_setup_events objects collect_depth
           ++ [EvRender "masks" sm; EvWriteAnnotations None; EvWriteMetadata],
         Return tt) /\
    Forall setup_event t /\ samples sm = 1 /\ max_bounces sm = 1.
Proof.
  intros Hp Hco HO HL HLn HC HR HP HD s1 sm.
  destruct (setup_run inputs s0 objects os c cs res rs rx ry rest HO HL HLn HC HR HP)
    as (t & Et & Ht).
  exists t. unfold exec. rewrite (bind_run _ _ _ _ _ _ Et), Hp.
  fold s1.
  pose proof (composite_and_masks_run inputs objects s1) as Ec.
  rewrite HD in Ec. cbn [index0] in Ec. cbn zeta in Ec.
  rewrite (bind_run _ _ _ _ _ _ Ec), Hco. cbn [index0].
  rewrite bind_lift. cbn [String.eqb Ascii.eqb Bool.eqb].
  rewrite bind_emit. unfold prepend, emit. cbn [fst snd].
  split; [|split; [exact Ht|split; reflexivity]].
  f_equal. f_equal. f_equal. cbn [app]. f_equal.
  rewrite <- app_assoc. reflexivity.
Qed.

(** C3, as the code has it.  With the obstruction disabled (the first link
    of "Calculate Obstruction" is ['F']) and no preview, whatever the other
    inputs: [exec] only sets up the scene, renders with ['high'] and with
    ['masks'], sets up the masks and writes annotations and metadata; it
    renders no mask of a single object, unlinks nothing, removes no file, and
    leaves the objects and the compositor nodes as they were.  When the ports
    are well formed it returns, and its calls end with the render of the
    masks at 1 sample and 1 bounce, the annotations and the metadata. *)
Theorem obstruction_disabled_run (ctx : Ctx) (inputs : Inputs) (s0 : Scene) cos :
  preview ctx = false ->
  Calculate_Obstruction inputs = "F"%string :: cos ->
  (Forall no_obstruction_event (trace (exec ctx inputs) s0) /\
   (outcome (exec ctx inputs) s0 = Return tt ->
    same_objects s0 (final (exec ctx inputs) s0))) /\
  forall objects os c cs res rs rx ry rest collect_depth cds,
    Objects_of_Interest inputs = objects :: os ->
    lights_ok (Lights inputs) -> Lights inputs <> [] ->
    Camera inputs = c :: cs ->
    Resolution inputs = res :: rs ->
    parse_resolution res = Return (rx :: ry :: rest) ->
    Collect_Depth_and_Normal_Masks inputs = collect_depth :: cds ->
    let s1 := set_resolution_y ry (set_resolution_x rx s0) in
    let sm := render_settings "masks" (rendered_scene "high" s1) in
    exists t,
      exec ctx inputs s0
        = (rendered_scene "masks" (rendered_scene "high" s1),
           t ++ EvRender "high" (render_settings "high" s1)
             :: mask_setup_events objects collect_depth
             ++ [EvRender "masks" sm; EvWriteAnnotations None; EvWriteMetadata],
           Return tt) /\
      Forall setup_event t /\ samples sm = 1 /\ max_bounces sm = 1.
Proof.
  intros Hp Hco. split.
  - assert (Ht : triple (eq s0) (exec ctx inputs) no_obstruction_event
                   (fun _ s => same_objects s0 s)).
    { unfold exec. eapply triple_seq; [apply setup_triple; unfold no_obstruction_event; auto|].
      cbn beta. intros objects s1 (_ & Hsame & _). rewrite Hp.
      eapply triple_seq;
        [apply composite_and_masks_triple; unfold no_obstruction_event; auto|].
      cbn beta. intros _ s2 (Hsame2 & _). rewrite Hco. cbn [index0].
      intros s <-. unfold trace, outcome, final.
      rewrite bind_lift. cbn [String.eqb Ascii.eqb Bool.eqb].
      rewrite bind_emit. cbn.
      split.
      + constructor; [right; right; left; reflexivity|].
        constructor; [right; right; right; reflexivity|constructor].
      + intros _ _. eapply same_objects_trans; eauto. }
    destruct (Ht s0 eq_refl) as [Htr Hq]. split; [exact Htr|].
    intros Hret. apply (Hq tt Hret).
  - intros objects os c cs res rs rx ry rest cd cds HO HL HLn HC HR HP HD.
    eapply exec_obstruction_disabled; eauto.
Qed.

(** *** The mask pass (lines 249-267) *)

Lemma mask_render_objs imgpath maskpath obj masknode socketinput s h :
  objs (mask_render_scene imgpath maskpath obj masknode socketinput s) h
  = if Nat.eqb h obj
    then with_hide_render false (with_solo_mask_id (solo_id s obj) (objs s h))
    else objs s h.
Proof.
  unfold mask_render_scene, render_settings. cbn.
  destruct (Nat.eqb h obj); reflexivity.
Qed.

Lemma mask_rehidden_objs imgpath maskpath obj masknode socketinput s h :
  objs (mask_rehidden imgpath maskpath obj masknode socketinput s) h
  = if Nat.eqb h obj
    then with_hide_render true (with_solo_mask_id (solo_id s obj) (objs s h))
    else objs s h.
Proof.
  unfold mask_rehidden, rendered_scene, render_settings. cbn.
  destruct (Nat.eqb h obj); reflexivity.
Qed.

Lemma mask_render_only_visible objects imgpath maskpath obj masknode socketinput s :
  In obj objects -> all_hidden objects s ->
  only_visible objects obj (mask_render_scene imgpath maskpath obj masknode socketinput s).
Proof.
  intros Hobj Hs. split; [exact Hobj|]. split.
  - rewrite mask_render_objs, Nat.eqb_refl. reflexivity.
  - intros h Hh. rewrite mask_render_objs.
    destruct (Nat.eqb_spec h obj) as [->|Hne]; [reflexivity|].
    rewrite (Hs h Hh). discriminate.
Qed.

Lemma mask_rehidden_all_hidden objects imgpath maskpath obj masknode socketinput s :
  all_hidden objects s ->
  all_hidden objects (mask_rehidden imgpath maskpath obj masknode socketinput s).
Proof.
  intros Hs h Hh. rewrite mask_rehidden_objs.
  destruct (Nat.eqb h obj); [reflexivity|apply Hs, Hh].
Qed.

Lemma mask_one_triple (E : event -> Prop) objects masklinks imgpath maskpath obj :
  (forall sn, only_visible objects obj sn -> E (EvRender "low" sn)) ->
  In obj objects ->
  triple (all_hidden objects) (mask_one masklinks imgpath maskpath obj) E
    (fun _ => all_hidden objects).
Proof.
  intros HE Hobj s Hs. unfold trace, outcome, final. rewrite mask_one_run.
  destruct (masklinks !! instance (objs s obj)) as [[masknode socketinput]|].
  - cbn zeta.
    pose proof (mask_render_only_visible objects imgpath maskpath obj masknode
                  socketinput s Hobj Hs) as Hvis.
    pose proof (mask_rehidden_all_hidden objects imgpath maskpath obj masknode
                  socketinput s Hs) as Hhid.
    destruct (links_of _ masknode) as [|l rest]; cbn [fst snd].
    + split; [|intros a [=]]. constructor; [|constructor]. apply HE, Hvis.
    + split; [constructor; [|constructor]; apply HE, Hvis|].
      intros _ _. exact Hhid.
  - cbn. split; [constructor|intros a [=]].
Qed.

Lemma per_object_masks_triple (E : event -> Prop) objects masklinks rendered_objects :
  (forall obj sn, only_visible objects obj sn -> E (EvRender "low" sn)) ->
  (forall obj, In obj rendered_objects -> In obj objects) ->
  triple (all_hidden objects) (per_object_masks masklinks rendered_objects) E
    (fun _ => all_hidden objects).
Proof.
  intros HE Hsub. unfold per_object_masks.
  eapply triple_bind with (R := fun _ s => all_hidden objects s);
    [apply triple_get; intros s Hs; exact Hs|].
  intros s0. cbn beta zeta.
  eapply triple_bind with (R := fun _ s => all_hidden objects s).
  - apply triple_for_each. intros obj Hobj.
    apply mask_one_triple; [apply HE|apply Hsub, Hobj].
  - intros ?. apply triple_ret. auto.
Qed.

(** *** Clean up (lines 275-281) *)

Lemma remove_files_run : forall (l : list string) s,
  for_each l (fun filepath =>
    emit (EvRemove filepath) ;;
    modify (fun s => set_files (delete filepath (files s)) s)) s
  = (set_files (foldl (fun m filepath => delete filepath m) (files s) l) s,
     map EvRemove l, Return tt).
Proof.
  induction l as [|f l IH]; intros s; cbn [for_each foldl map].
  - destruct s; reflexivity.
  - unfold mbind at 1. unfold M_bind at 1.
    rewrite bind_emit. unfold modify at 1. cbn [prepend fst snd app].
    rewrite IH. reflexivity.
Qed.

Lemma lookup_remove_files (l : list string) : forall (m : gmap string image) k,
  foldl (fun m filepath => delete filepath m) m l !! k
  = if bool_decide (k ∈ l) then None else m !! k.
Proof.
  induction l as [|f l IH]; intros m k; cbn [foldl].
  - rewrite bool_decide_eq_false_2; [reflexivity|]. apply not_elem_of_nil.
  - rewrite IH. destruct (bool_decide (k ∈ l)) eqn:E.
    + apply bool_decide_eq_true in E. rewrite bool_decide_eq_true_2; [reflexivity|].
      apply elem_of_cons. right. exact E.
    + apply bool_decide_eq_false in E.
      destruct (decide (f = k)) as [->|Hne].
      * rewrite bool_decide_eq_true_2 by (apply elem_of_cons; left; reflexivity).
        apply lookup_delete_eq.
      * rewrite bool_decide_eq_false_2
          by (rewrite elem_of_cons; intros [?|?]; congruence).
        apply lookup_delete_ne. exact Hne.
Qed.

Lemma glob_dash_star_In prefix (m : gmap string image) k :
  In k (glob_dash_star prefix m) <-> glob_match prefix k = true /\ is_Some (m !! k).
Proof.
  unfold glob_dash_star. rewrite filter_In, in_map_iff. split.
  - intros [([k' img] & <- & Hin) Hm]. split; [exact Hm|].
    apply list_elem_of_In, elem_of_map_to_list in Hin. cbn. eauto.
  - intros [Hm [img Hk]]. split; [|exact Hm].
    exists (k, img). split; [reflexivity|].
    apply list_elem_of_In, elem_of_map_to_list. exact Hk.
Qed.

Lemma remove_matching_run pattern s :
  exists F,
    remove_matching pattern s
    = (set_files F s,
       EvGlob (pattern +:+ "-*") :: map EvRemove (glob_dash_star pattern (files s)),
       Return tt) /\
    forall k, F !! k = if glob_match pattern k then None else files s !! k.
Proof.
  eexists. split.
  - unfold remove_matching. rewrite bind_emit, bind_get, remove_files_run. reflexivity.
  - intros k. rewrite lookup_remove_files.
    destruct (bool_decide (k ∈ glob_dash_star pattern (files s))) eqn:E.
    + apply bool_decide_eq_true in E.
      apply list_elem_of_In, glob_dash_star_In in E as [-> _]. reflexivity.
    + apply bool_decide_eq_false in E. rewrite list_elem_of_In, glob_dash_star_In in E.
      destruct (glob_match pattern k); [|reflexivity].
      destruct (files s !! k) eqn:Ek; [|reflexivity].
      exfalso. apply E. split; [reflexivity|eauto].
Qed.

(** The clean up always returns; it makes the two searches, removes what
    they find and nothing else. *)
Lemma cleanup_run imgpath maskpath s :
  exists F t,
    cleanup imgpath maskpath s
    = (set_files F s, EvGlob (maskpattern s maskpath +:+ "-*") :: t, Return tt) /\
    Forall cleanup_event t /\
    forall k, F !! k = if scratch_file s imgpath maskpath k then None else files s !! k.
Proof.
  unfold cleanup. rewrite bind_get. cbn beta.
  destruct (remove_matching_run (maskpattern s maskpath) s) as (F1 & E1 & HF1).
  rewrite (bind_run _ _ _ _ _ _ E1), bind_get. cbn beta.
  destruct (remove_matching_run (imgpattern (set_files F1 s) imgpath) (set_files F1 s))
    as (F2 & E2 & HF2).
  rewrite E2. exists F2. eexists. split; [reflexivity|]. split.
  - apply Forall_app. split.
    + apply List.Forall_forall. intros e He. apply in_map_iff in He as (k & <- & _). exact I.
    + constructor; [exact I|].
      apply List.Forall_forall. intros e He. apply in_map_iff in He as (k & <- & _). exact I.
  - intros k. rewrite HF2. unfold scratch_file.
    change (imgpattern (set_files F1 s) imgpath) with (imgpattern s imgpath).
    cbn [files set_files]. rewrite HF1.
    destruct (glob_match (maskpattern s maskpath) k),
             (glob_match (imgpattern s imgpath) k); reflexivity.
Qed.

Lemma cleanup_triple imgpath maskpath (E : event -> Prop) s0 :
  (forall e, cleanup_event e -> E e) ->
  triple (eq s0) (cleanup imgpath maskpath) E (fun _ s => same_objects s0 s).
Proof.
  intros HE. destruct (cleanup_run imgpath maskpath s0) as (F & t & Erun & Ht & _).
  eapply triple_eq_run; [exact Erun|..].
  - constructor; [apply HE; exact I|]. eapply Forall_impl; [exact Ht|exact HE].
  - intros _ _. repeat split.
Qed.

(** *** Unlinking and discovery (lines 219-247), whatever the state *)

Lemma same_but_nodes_set_links s0 s i l :
  same_but_nodes s0 s -> same_but_nodes s0 (set_links i l s).
Proof. intros (A1 & A2 & A3 & A4 & A5). repeat split; assumption. Qed.

Lemma unlink_mask_triple (E : event -> Prop) s0 masklinks masknode :
  triple (same_but_nodes s0) (unlink_mask masklinks masknode) E
    (fun _ => same_but_nodes s0).
Proof.
  intros s Hs. unfold trace, outcome, final, unlink_mask. rewrite bind_get.
  destruct (nodes s !! masknode) as [n|]; [|cbn; split; [constructor|auto]].
  destruct (links n) as [|socketinput rest]; [cbn; split; [constructor|intros a [=]]|].
  rewrite bind_modify. cbn. split; [constructor|].
  intros _ _. apply same_but_nodes_set_links, Hs.
Qed.

Lemma unlink_masks_triple (E : event -> Prop) s0 :
  E EvUnlinkImage ->
  triple (eq s0) unlink_masks E (fun _ => same_but_nodes s0).
Proof.
  intros HE. unfold unlink_masks.
  eapply triple_bind with (R := fun _ s => same_but_nodes s0 s).
  { apply triple_get. intros s <-. repeat split. }
  intros s1. eapply triple_bind with (R := fun _ s => same_but_nodes s0 s).
  { apply triple_fold_each. intros b x _. apply unlink_mask_triple. }
  intros masklinks. eapply triple_bind with (R := fun _ s => same_but_nodes s0 s).
  { apply triple_emit. auto. }
  intros ?. apply triple_ret. auto.
Qed.

Lemma mask_discovery_triple (E : event -> Prop) objects s0 :
  triple (eq s0) (mask_discovery objects) E
    (fun rendered_objects s =>
       all_hidden objects s /\
       (forall obj, In obj rendered_objects -> In obj objects)).
Proof.
  intros s <-. unfold trace, outcome, final.
  destruct (files s0 !! compositemaskfile s0) as [compimg|] eqn:Ef.
  - destruct (mask_discovery_run objects s0 compimg Ef) as (g & Eg & Hg).
    rewrite Eg. cbn. split; [constructor|]. intros a [= <-]. split.
    + intros h Hh. rewrite Hg. unfold marked.
      apply in_list_In in Hh. rewrite Hh.
      destruct (in_list h (renderedobjects s0 compimg objects)); reflexivity.
    + intros obj Hobj. apply renderedobjects_In in Hobj. tauto.
  - assert (Erun : mask_discovery objects s0 = (s0, [], Raise FileNotFoundError)).
    { unfold mask_discovery. rewrite bind_get.
      apply run_bind_raise. unfold imread. rewrite bind_get, Ef. reflexivity. }
    rewrite Erun. cbn. split; [constructor|intros a [=]].
Qed.

(** *** [exec] as a whole: the visibility of the objects *)

Lemma masks_and_annotations_triple (E : event -> Prop) co objects s0 :
  E EvUnlinkImage ->
  (forall obj sn, only_visible objects obj sn -> E (EvRender "low" sn)) ->
  E (EvWriteAnnotations (Some co)) -> E EvWriteMetadata ->
  triple (eq s0) (masks_and_annotations co objects) E (fun _ => all_hidden objects).
Proof.
  intros HU HL HA HM. unfold masks_and_annotations.
  eapply triple_seq; [apply unlink_masks_triple; exact HU|].
  cbn beta. intros masklinks s4 _.
  eapply triple_seq; [apply mask_discovery_triple|].
  cbn beta. intros rendered_objects s5 [Hhid Hsub].
  eapply triple_bind with (R := fun _ s => all_hidden objects s).
  { eapply triple_weaken; [apply (per_object_masks_triple E); eauto|..]; auto.
    intros s <-. exact Hhid. }
  intros paths.
  eapply triple_bind with (R := fun _ s => all_hidden objects s).
  { apply triple_emit. intros s Hs. split; [exact HA|exact Hs]. }
  intros ?.
  eapply triple_bind with (R := fun _ s => all_hidden objects s).
  { apply triple_emit. intros s Hs. split; [exact HM|exact Hs]. }
  intros ?. apply triple_ret. auto.
Qed.

Lemma exec_visibility (ctx : Ctx) (inputs : Inputs) (s0 : Scene) objects os :
  Objects_of_Interest inputs = objects :: os ->
  triple (eq s0) (exec ctx inputs) (one_visible_in_mask_pass objects)
    (fun _ s =>
       preview ctx = false ->
       (forall cos, Calculate_Obstruction inputs <> "F"%string :: cos) ->
       all_hidden objects s).
Proof.
  intros HO. unfold exec.
  eapply triple_seq.
  { apply setup_triple. intros [] He; try contradiction; exact I. }
  cbn beta. intros objects' s1 (Hidx & _ & _).
  rewrite HO in Hidx. injection Hidx as <-.
  destruct (preview ctx).
  { eapply triple_weaken.
    - apply (preview_pass_triple ctx (preview_event ctx) s1). auto.
    - auto.
    - intros [] He; try contradiction; try exact I.
      cbn in *. subst. discriminate.
    - cbn beta. intros _ s _ [=]. }
  eapply triple_seq.
  { apply composite_and_masks_triple.
    intros [] He; try contradiction; try exact I.
    cbn in *. intros ->. destruct He; discriminate. }
  cbn beta. intros _ s2 _.
  eapply triple_seq with (R := fun co s => index0 (Calculate_Obstruction inputs) = Return co).
  { apply triple_lift. auto. }
  intros co s3 Hco.
  destruct (String.eqb_spec co "F") as [->|Hne].
  { intros s <-. unfold trace, outcome, final. rewrite bind_emit. cbn.
    split; [repeat constructor|].
    intros _ _ _ HnF. exfalso.
    destruct (Calculate_Obstruction inputs) as [|c cos]; [discriminate|].
    injection Hco as ->. apply (HnF cos). reflexivity. }
  unfold obstruction_pass.
  eapply triple_bind with (R := fun _ s => all_hidden objects s).
  { apply masks_and_annotations_triple; try exact I.
    intros obj sn Hvis _. exists obj. exact Hvis. }
  intros paths.
  eapply triple_weaken.
  { apply triple_from_eq with (P := all_hidden objects) (E := cleanup_event)
      (Q := fun s0 _ s => same_objects s0 s).
    intros s6 _. apply cleanup_triple. auto. }
  - auto.
  - intros [] He; try contradiction; exact I.
  - cbn beta. intros _ s (s6 & Hs6 & (Hobjs & _)) _ _ h Hh.
    rewrite Hobjs. apply Hs6, Hh.
Qed.

(** *** Unlinking the mask nodes (lines 219-231), one link per node *)

Lemma masknodes_In s j :
  In j (masknodes s) <-> exists n, nodes s !! j = Some n /\ is_masknode n = true.
Proof.
  unfold masknodes. rewrite filter_In, in_seq. split.
  - intros [_ Hm]. destruct (nodes s !! j) as [n|]; [eauto|discriminate].
  - intros (n & Hn & Hm). rewrite Hn. split; [|exact Hm].
    apply lookup_lt_Some in Hn. lia.
Qed.

Lemma masknodes_NoDup s : List.NoDup (masknodes s).
Proof. apply List.NoDup_filter, List.seq_NoDup. Qed.

Lemma unlink_mask_run masklinks masknode s n socketinput rest :
  nodes s !! masknode = Some n -> links n = socketinput :: rest ->
  unlink_mask masklinks masknode s
  = (set_links masknode rest s, [],
     Return (<[index n := (masknode, socketinput)]> masklinks)).
Proof.
  intros Hn Hl. unfold unlink_mask. rewrite bind_get, Hn, Hl, bind_modify. reflexivity.
Qed.

Lemma unlink_fold : forall ps s (masklinks : gmap Z (nat * nat)),
  List.NoDup ps ->
  (forall j, In j ps -> exists n socketinput,
     nodes s !! j = Some n /\ links n = [socketinput]) ->
  exists s' masklinks',
    fold_each ps unlink_mask masklinks s = (s', [], Return masklinks') /\
    same_but_nodes s s' /\
    (forall k, nodes s' !! k
               = if bool_decide (k ∈ ps) then with_links [] <$> nodes s !! k
                 else nodes s !! k) /\
    (forall z mn sock, masklinks' !! z = Some (mn, sock) ->
       masklinks !! z = Some (mn, sock) \/
       (In mn ps /\ exists n, nodes s !! mn = Some n /\ index n = z /\ links n = [sock])) /\
    (forall z, is_Some (masklinks !! z) -> is_Some (masklinks' !! z)) /\
    (forall j n, In j ps -> nodes s !! j = Some n -> is_Some (masklinks' !! index n)).
Proof.
  induction ps as [|j ps IH]; intros s masklinks Hnd Hone.
  - exists s, masklinks. cbn [fold_each]. split; [reflexivity|].
    split; [repeat split|]. split.
    { intros k. rewrite bool_decide_eq_false_2; [reflexivity|apply not_elem_of_nil]. }
    split; [auto|]. split; [auto|]. intros j n [].
  - inversion Hnd as [|? ? Hj Hnd']; subst.
    destruct (Hone j (or_introl eq_refl)) as (n & sock & Hn & Hl).
    pose proof (unlink_mask_run masklinks j s n sock [] Hn Hl) as Erun.
    set (s1 := set_links j [] s) in *.
    set (ml1 := <[index n := (j, sock)]> masklinks) in *.
    assert (Hother : forall k, k <> j -> nodes s1 !! k = nodes s !! k).
    { intros k Hk. subst s1. cbn. apply list_lookup_alter_ne. congruence. }
    destruct (IH s1 ml1 Hnd') as (s' & ml' & Efold & Hsame & Hnodes & Hml & Hmono & Hdom).
    { intros k Hk. rewrite Hother; [apply Hone; right; exact Hk|].
      intros ->. contradiction. }
    exists s', ml'. cbn [fold_each]. rewrite (bind_run _ _ _ _ _ _ Erun), Efold.
    split; [reflexivity|]. split.
    { destruct Hsame as (A1 & A2 & A3 & A4 & A5). repeat split; assumption. }
    split.
    { intros k. rewrite Hnodes.
      destruct (decide (k = j)) as [->|Hk].
      - rewrite bool_decide_eq_false_2 by (rewrite list_elem_of_In; exact Hj).
        rewrite bool_decide_eq_true_2 by (apply elem_of_cons; left; reflexivity).
        cbn. rewrite list_lookup_alter.
        destruct (decide (j = j)); [reflexivity|congruence].
      - rewrite (Hother k Hk).
        destruct (bool_decide (k ∈ ps)) eqn:Ek.
        + apply bool_decide_eq_true in Ek.
          rewrite bool_decide_eq_true_2 by (apply elem_of_cons; right; exact Ek).
          reflexivity.
        + apply bool_decide_eq_false in Ek.
          rewrite bool_decide_eq_false_2
            by (rewrite elem_of_cons; intros [?|?]; [congruence|contradiction]).
          reflexivity. }
    split.
    { intros z mn sock' Hz. destruct (Hml z mn sock' Hz) as [Hz1|(Hin & n' & Hn' & Hi & Hl')].
      - subst ml1. destruct (decide (index n = z)) as [<-|Hne].
        + rewrite lookup_insert_eq in Hz1. injection Hz1 as <- <-.
          right. split; [left; reflexivity|]. exists n. auto.
        + rewrite lookup_insert_ne in Hz1 by exact Hne. left. exact Hz1.
      - right. split; [right; exact Hin|]. exists n'.
        rewrite Hother in Hn'; [auto|]. intros ->. contradiction. }
    split.
    { intros z Hz. apply Hmono. subst ml1.
      destruct (decide (index n = z)) as [<-|Hne].
      - rewrite lookup_insert_eq. eauto.
      - rewrite lookup_insert_ne by exact Hne. exact Hz. }
    intros k n' [<-|Hk] Hn'.
    + rewrite Hn in Hn'. injection Hn' as <-. apply Hmono. subst ml1.
      rewrite lookup_insert_eq. eauto.
    + apply (Hdom k n' Hk). rewrite Hother; [exact Hn'|].
      intros ->. contradiction.
Qed.

Lemma unlink_masks_run s0 :
  one_link_each s0 ->
  exists s1 masklinks,
    unlink_masks s0 = (s1, [EvUnlinkImage], Return masklinks) /\
    same_but_nodes s0 s1 /\ unlinked s0 s1 /\ masklinks_of s0 masklinks.
Proof.
  intros Hone.
  destruct (unlink_fold (masknodes s0) s0 ∅ (masknodes_NoDup s0))
    as (s1 & ml & Efold & Hsame & Hnodes & Hml & _ & Hdom).
  { intros j Hj. apply masknodes_In in Hj as (n & Hn & Hm).
    destruct (Hone j n Hn Hm) as (sock & Hl). eauto. }
  exists s1, ml. split.
  { unfold unlink_masks. rewrite bind_get, (bind_run _ _ _ _ _ _ Efold), bind_emit.
    reflexivity. }
  split; [exact Hsame|]. split.
  - intros j. rewrite Hnodes.
    destruct (bool_decide (j ∈ masknodes s0)) eqn:Ej.
    + apply bool_decide_eq_true in Ej.
      apply list_elem_of_In, masknodes_In in Ej as (n & Hn & Hm).
      rewrite Hn. cbn. rewrite Hm. reflexivity.
    + apply bool_decide_eq_false in Ej. rewrite list_elem_of_In, masknodes_In in Ej.
      destruct (nodes s0 !! j) as [n|] eqn:Hn; [|reflexivity]. cbn.
      destruct (is_masknode n) eqn:Hm; [|reflexivity].
      exfalso. apply Ej. eauto.
  - split.
    + intros z mn sock Hz.
      destruct (Hml z mn sock Hz) as [Hz0|(Hin & n & Hn & Hi & Hl)].
      * rewrite lookup_empty in Hz0. discriminate.
      * apply masknodes_In in Hin as (n' & Hn' & Hm).
        rewrite Hn in Hn'. injection Hn' as <-. exists n. auto.
    + intros j n Hn Hm. apply (Hdom j n); [|exact Hn].
      apply masknodes_In. eauto.
Qed.

(** *** The mask pass when every object in the image has its mask node *)

Lemma mask_render_fields imgpath maskpath obj masknode socketinput st :
  let sr := mask_render_scene imgpath maskpath obj masknode socketinput st in
  nodes sr = alter (with_links (links_of st masknode ++ [socketinput])) masknode (nodes st) /\
  samples sr = 1 /\ max_bounces sr = 1 /\
  slot_path (maskout sr) = maskpath +:+ "-" +:+ solo_id st obj /\
  slot_path (imgout sr) = imgpath +:+ "-" +:+ solo_id st obj /\
  frame_current sr = frame_current st /\
  base_path (maskout sr) = base_path (maskout st) /\
  base_path (imgout sr) = base_path (imgout st).
Proof. unfold mask_render_scene, render_settings. cbn. repeat split. Qed.

Lemma mask_rehidden_fields imgpath maskpath obj masknode socketinput st :
  let s7 := mask_rehidden imgpath maskpath obj masknode socketinput st in
  nodes s7 = alter (with_links (links_of st masknode ++ [socketinput])) masknode (nodes st) /\
  frame_current s7 = frame_current st /\
  base_path (maskout s7) = base_path (maskout st) /\
  base_path (imgout s7) = base_path (imgout st).
Proof. unfold mask_rehidden, rendered_scene, render_settings. cbn. repeat split. Qed.

Lemma with_links_same n : links n = [] -> with_links [] n = n.
Proof. destruct n as [nm ix l]. cbn. intros ->. reflexivity. Qed.

Lemma relink_unlink (ns : list CompositorNode) masknode socketinput n :
  ns !! masknode = Some n -> links n = [] ->
  alter (with_links []) masknode (alter (with_links [socketinput]) masknode ns) = ns.
Proof.
  intros Hn Hl. apply list_eq. intros k. rewrite !list_lookup_alter.
  destruct (decide (masknode = k)) as [<-|Hk]; [|reflexivity].
  destruct (decide (masknode = masknode)); [|congruence].
  rewrite Hn. cbn. f_equal.
  destruct n as [nm ix l]. cbn in *. subst. reflexivity.
Qed.

Lemma mask_loop_run s0 s objects masklinks imgpath maskpath :
  (forall j n, nodes s !! j = Some n -> is_masknode n = true -> links n = []) ->
  forall rendered_objects st,
    mask_pass_state objects s st ->
    (forall obj, In obj rendered_objects ->
       In obj objects /\
       exists masknode socketinput n0 n,
         masklinks !! instance (objs s obj) = Some (masknode, socketinput) /\
         nodes s0 !! masknode = Some n0 /\ is_masknode n0 = true /\
         index n0 = instance (objs s obj) /\ links n0 = [socketinput] /\
         nodes s !! masknode = Some n /\ is_masknode n = true) ->
    exists snaps st',
      for_each rendered_objects (mask_one masklinks imgpath maskpath) st
        = (st', map (EvRender "low") snaps, Return tt) /\
      mask_pass_state objects s st' /\
      Forall2 (mask_snapshot s0 s objects imgpath maskpath) rendered_objects snaps.
Proof.
  intros Hnolink. induction rendered_objects as [|obj R IH]; intros st Hst Hent.
  - exists [], st. cbn. split; [reflexivity|]. split; [exact Hst|constructor].
  - destruct (Hent obj (or_introl eq_refl))
      as (Hobj & mn & sock & n0 & n & Hml & Hn0 & Hm0 & Hi0 & Hl0 & Hn & Hm).
    destruct Hst as (Hinst & Hhid & Hnodes & Hframe & Hmb & Hib).
    pose proof (Hnolink mn n Hn Hm) as Hl.
    assert (Hlinks : links_of st mn = []).
    { unfold links_of. rewrite Hnodes, Hn. exact Hl. }
    pose proof (mask_one_run masklinks imgpath maskpath obj st) as Erun.
    rewrite Hinst, Hml in Erun. cbn zeta in Erun.
    destruct (mask_render_fields imgpath maskpath obj mn sock st)
      as (Rn & Rs & Rb & Rm & Ri & Rf & Rmb & Rib).
    destruct (mask_rehidden_fields imgpath maskpath obj mn sock st)
      as (Fn & Ff & Fmb & Fib).
    rewrite Hlinks in Rn, Fn. cbn [app] in Rn, Fn. rewrite Hnodes in Rn, Fn.
    assert (Hl7 : links_of (mask_rehidden imgpath maskpath obj mn sock st) mn = [sock]).
    { unfold links_of. rewrite Fn, list_lookup_alter.
      destruct (decide (mn = mn)); [|congruence]. rewrite Hn. reflexivity. }
    rewrite Hl7 in Erun.
    set (sr := mask_render_scene imgpath maskpath obj mn sock st) in *.
    set (s7 := mask_rehidden imgpath maskpath obj mn sock st) in *.
    assert (Hst' : mask_pass_state objects s (set_links mn [] s7)).
    { split; [|split; [|split; [|split; [|split]]]].
      - intros h. change (instance (objs s7 h) = instance (objs s h)).
        subst s7. rewrite mask_rehidden_objs.
        destruct (Nat.eqb h obj); cbn; apply Hinst.
      - intros h Hh. change (hide_render (objs s7 h) = true).
        subst s7. exact (mask_rehidden_all_hidden objects _ _ _ _ _ _ Hhid h Hh).
      - change (alter (with_links []) mn (nodes s7) = nodes s).
        rewrite Fn. eapply relink_unlink; eauto.
      - change (frame_current s7 = frame_current s). congruence.
      - change (base_path (maskout s7) = base_path (maskout s)). congruence.
      - change (base_path (imgout s7) = base_path (imgout s)). congruence. }
    destruct (IH (set_links mn [] s7) Hst') as (snaps & st' & Eloop & Hst'' & Hsnaps).
    { intros o Ho. apply Hent. right. exact Ho. }
    exists (sr :: snaps), st'. cbn [for_each map].
    rewrite (bind_run _ _ _ _ _ _ Erun), Eloop.
    split; [reflexivity|]. split; [exact Hst''|].
    constructor; [|exact Hsnaps].
    split; [subst sr; apply mask_render_only_visible; assumption|].
    split; [exact Rs|]. split; [exact Rb|].
    assert (Hsolo : solo_id st obj = solo_id s obj)
      by (unfold solo_id; rewrite Hinst; reflexivity).
    rewrite Hsolo in Rm, Ri.
    split; [exact Rm|]. split; [exact Ri|].
    exists mn, sock, n0. repeat split; auto.
    intros j nj Hj Hmj. rewrite Rn, list_lookup_alter in Hj.
    destruct (Nat.eqb_spec j mn) as [->|Hne].
    + destruct (decide (mn = mn)); [|congruence]. rewrite Hn in Hj.
      injection Hj as <-. reflexivity.
    + destruct (decide (mn = j)); [congruence|]. eapply Hnolink; eauto.
Qed.

Lemma per_object_masks_run s0 s objects masklinks rendered_objects :
  (forall j n, nodes s !! j = Some n -> is_masknode n = true -> links n = []) ->
  all_hidden objects s ->
  (forall obj, In obj rendered_objects ->
     In obj objects /\
     exists masknode socketinput n0 n,
       masklinks !! instance (objs s obj) = Some (masknode, socketinput) /\
       nodes s0 !! masknode = Some n0 /\ is_masknode n0 = true /\
       index n0 = instance (objs s obj) /\ links n0 = [socketinput] /\
       nodes s !! masknode = Some n /\ is_masknode n = true) ->
  exists snaps st',
    per_object_masks masklinks rendered_objects s
      = (st', map (EvRender "low") snaps,
         Return (slot_path (imgout s), slot_path (maskout s))) /\
    mask_pass_state objects s st' /\
    Forall2 (mask_snapshot s0 s objects (slot_path (imgout s)) (slot_path (maskout s)))
      rendered_objects snaps.
Proof.
  intros Hnolink Hhid Hent.
  destruct (mask_loop_run s0 s objects masklinks (slot_path (imgout s))
              (slot_path (maskout s)) Hnolink rendered_objects s)
    as (snaps & st' & Eloop & Hst' & Hsnaps); [repeat split; auto|exact Hent|].
  exists snaps, st'. split; [|split; assumption].
  unfold per_object_masks. rewrite bind_get. cbn beta zeta.
  rewrite (bind_run _ _ _ _ _ _ Eloop). unfold prepend, mret, M_ret. cbn [fst snd].
  rewrite app_nil_r. reflexivity.
Qed.


(** *** The run of [exec] when the obstruction is calculated *)

Lemma mask_snapshot_instances s0 s s' objects imgpath maskpath obj sn :
  (forall h, instance (objs s' h) = instance (objs s h)) ->
  mask_snapshot s0 s objects imgpath maskpath obj sn ->
  mask_snapshot s0 s' objects imgpath maskpath obj sn.
Proof.
  intros Hi. unfold mask_snapshot, solo_id. rewrite Hi. auto.
Qed.

Lemma is_masknode_with_links l n : is_masknode (with_links l n) = is_masknode n.
Proof. reflexivity. Qed.

Lemma unlinked_no_link s0 s j n :
  unlinked s0 s -> nodes s !! j = Some n -> is_masknode n = true -> links n = [].
Proof.
  intros Hu Hn Hm. rewrite (Hu j) in Hn.
  destruct (nodes s0 !! j) as [n0|]; [|discriminate].
  cbn in Hn. injection Hn as <-.
  destruct (is_masknode n0) eqn:E; [reflexivity|congruence].
Qed.

Lemma masks_and_annotations_run co objects s3 compimg :
  one_link_each s3 ->
  files s3 !! compositemaskfile s3 = Some compimg ->
  (forall obj, In obj (renderedobjects s3 compimg objects) ->
     exists j n, nodes s3 !! j = Some n /\ is_masknode n = true /\
                 index n = instance (objs s3 obj)) ->
  exists snaps s5,
    masks_and_annotations co objects s3
      = (s5,
         EvUnlinkImage :: map (EvRender "low") snaps
           ++ [EvWriteAnnotations (Some co); EvWriteMetadata],
         Return (slot_path (imgout s3), slot_path (maskout s3))) /\
    Forall2 (mask_snapshot s3 s3 objects (slot_path (imgout s3)) (slot_path (maskout s3)))
      (renderedobjects s3 compimg objects) snaps /\
    (forall h, instance (objs s5 h) = instance (objs s3 h)) /\
    all_hidden objects s5 /\
    (forall j n, nodes s5 !! j = Some n -> is_masknode n = true -> links n = []) /\
    frame_current s5 = frame_current s3 /\
    base_path (maskout s5) = base_path (maskout s3) /\
    base_path (imgout s5) = base_path (imgout s3).
Proof.
  intros Hone Hf Hnode.
  destruct (unlink_masks_run s3 Hone) as (s4 & masklinks & Eu & Hsame & Hunl & Hml).
  destruct Hsame as (Hobjs & Hmo & Hio & Hfr & Hfiles).
  assert (Ecf : compositemaskfile s4 = compositemaskfile s3).
  { unfold compositemaskfile, masktemplate. rewrite Hmo, Hfr. reflexivity. }
  assert (Er : renderedobjects s4 compimg objects = renderedobjects s3 compimg objects).
  { unfold renderedobjects. rewrite Hobjs. reflexivity. }
  destruct (mask_discovery_run objects s4 compimg) as (g & Eg & Hg).
  { rewrite Ecf, Hfiles. exact Hf. }
  rewrite Er in Eg, Hg.
  assert (Hinst : forall h, instance (objs (set_objs g s4) h) = instance (objs s3 h)).
  { intros h. cbn. rewrite Hg, Hobjs. unfold marked.
    destruct (in_list h objects); [|reflexivity].
    destruct (in_list h (renderedobjects s3 compimg objects)); reflexivity. }
  destruct (per_object_masks_run s3 (set_objs g s4) objects masklinks
              (renderedobjects s3 compimg objects))
    as (snaps & s5 & Ep & Hst & Hsnaps).
  { intros j n Hn. apply (unlinked_no_link s3 s4 j n Hunl Hn). }
  { intros h Hh. cbn. rewrite Hg. unfold marked.
    apply in_list_In in Hh. rewrite Hh.
    destruct (in_list h (renderedobjects s3 compimg objects)); reflexivity. }
  { intros obj Hobj. split; [apply renderedobjects_In in Hobj; tauto|].
    destruct (Hnode obj Hobj) as (j & n & Hn & Hm & Hi).
    destruct Hml as [Hml1 Hml2].
    destruct (Hml2 j n Hn Hm) as [[masknode socketinput] He].
    rewrite Hi in He.
    destruct (Hml1 _ _ _ He) as (n0 & Hn0 & Hm0 & Hi0 & Hl0).
    exists masknode, socketinput, n0, (with_links [] n0).
    rewrite Hinst. repeat split; auto.
    cbn. rewrite (Hunl masknode), Hn0. cbn. rewrite Hm0. reflexivity. }
  exists snaps, s5.
  destruct Hst as (Hi5 & Hhid & Hn5 & Hfr5 & Hmb & Hib).
  split; [|split; [|repeat split]].
  - unfold masks_and_annotations.
    rewrite (bind_run _ _ _ _ _ _ Eu), (bind_run _ _ _ _ _ _ Eg),
      (bind_run _ _ _ _ _ _ Ep), bind_emit, bind_emit.
    cbn. rewrite Hio, Hmo. reflexivity.
  - eapply Forall2_impl; [exact Hsnaps|].
    intros obj sn Hs. cbn in Hs. rewrite Hio, Hmo in Hs.
    eapply mask_snapshot_instances; [|exact Hs].
    intros h. symmetry. apply Hinst.
  - intros h. rewrite Hi5. apply Hinst.
  - exact Hhid.
  - intros j n Hn. rewrite Hn5 in Hn. apply (unlinked_no_link s3 s4 j n Hunl Hn).
  - rewrite Hfr5. exact Hfr.
  - rewrite Hmb. cbn. rewrite Hmo. reflexivity.
  - rewrite Hib. cbn. rewrite Hio. reflexivity.
Qed.


Lemma mask_snapshot_nodes s0 s0' s objects imgpath maskpath obj sn :
  nodes s0' = nodes s0 ->
  mask_snapshot s0 s objects imgpath maskpath obj sn ->
  mask_snapshot s0' s objects imgpath maskpath obj sn.
Proof.
  intros Hn. unfold mask_snapshot. rewrite Hn. auto.
Qed.

Lemma scratch_file_same s s' imgpath maskpath k :
  frame_current s' = frame_current s ->
  base_path (maskout s') = base_path (maskout s) ->
  base_path (imgout s') = base_path (imgout s) ->
  scratch_file s' imgpath maskpath k = scratch_file s imgpath maskpath k.
Proof.
  intros Hf Hm Hi. unfold scratch_file, maskpattern, imgpattern.
  rewrite Hf, Hm, Hi. reflexivity.
Qed.

Lemma exec_obstruction_run (ctx : Ctx) (inputs : Inputs) (s0 : Scene)
    objects os c cs res rs rx ry rest collect_depth cds co cos compimg :
  preview ctx = false ->
  Calculate_Obstruction inputs = co :: cos -> co <> "F"%string ->
  Objects_of_Interest inputs = objects :: os ->
  lights_ok (Lights inputs) -> Lights inputs <> [] ->
  Camera inputs = c :: cs ->
  Resolution inputs = res :: rs ->
  parse_resolution res = Return (rx :: ry :: rest) ->
  Collect_Depth_and_Normal_Masks inputs = collect_depth :: cds ->
  let s1 := set_resolution_y ry (set_resolution_x rx s0) in
  let sm := render_settings "masks" (rendered_scene "high" s1) in
  one_link_each s0 ->
  bpy_render sm !! compositemaskfile s0 = Some compimg ->
  (forall obj, In obj (renderedobjects s0 compimg objects) ->
     exists j n, nodes s0 !! j = Some n /\ is_masknode n = true /\
                 index n = instance (objs s0 obj)) ->
  let imgpath := slot_path (imgout s0) in
  let maskpath := slot_path (maskout s0) in
  exists t snaps s5 F tc,
    exec ctx inputs s0
      = (set_files F s5,
         t ++ EvRender "high" (render_settings "high" s1)
           :: mask_setup_events objects collect_depth
           ++ EvRender "masks" sm :: EvUnlinkImage :: map (EvRender "low") snaps
           ++ [EvWriteAnnotations (Some co); EvWriteMetadata;
               EvGlob (maskpattern s0 maskpath +:+ "-*")] ++ tc,
         Return tt) /\
    Forall setup_event t /\ Forall cleanup_event tc /\
    Forall2 (mask_snapshot s0 s0 objects imgpath maskpath)
      (renderedobjects s0 compimg objects) snaps /\
    all_hidden objects s5 /\
    (forall j n, nodes s5 !! j = Some n -> is_masknode n = true -> links n = []) /\
    forall k, F !! k = if scratch_file s0 imgpath maskpath k then None
                       else files s5 !! k.
Proof.
  intros Hp Hco HnF HO HL HLn HC HR HP HD s1 sm Hone Hmask Hnode imgpath maskpath.
  destruct (setup_run inputs s0 objects os c cs res rs rx ry rest HO HL HLn HC HR HP)
    as (t & Et & Ht).
  pose proof (composite_and_masks_run inputs objects s1) as Ec.
  rewrite HD in Ec. cbn [index0] in Ec. cbn zeta in Ec.
  set (s3 := rendered_scene "masks" (rendered_scene "high" s1)) in *.
  destruct (masks_and_annotations_run co objects s3 compimg Hone Hmask Hnode)
    as (snaps & s5 & Em & Hsnaps & Hi5 & Hhid & Hn5 & Hfr & Hmb & Hib).
  destruct (cleanup_run imgpath maskpath s5) as (F & tc & Ecl & Htc & HF).
  exists t, snaps, s5, F, tc.
  split; [|split; [exact Ht|split; [exact Htc|split; [|split; [exact Hhid|split; [exact Hn5|]]]]]].
  - unfold exec. rewrite (bind_run _ _ _ _ _ _ Et), Hp. fold s1.
    rewrite (bind_run _ _ _ _ _ _ Ec), Hco. cbn [index0].
    rewrite bind_lift.
    destruct (String.eqb_spec co "F") as [?|_]; [contradiction|].
    unfold obstruction_pass. rewrite (bind_run _ _ _ _ _ _ Em).
    change (cleanup _ _ s5) with (cleanup imgpath maskpath s5). rewrite Ecl.
    unfold prepend. cbn [fst snd].
    assert (Epat : maskpattern s5 maskpath = maskpattern s0 maskpath).
    { unfold maskpattern. rewrite Hfr, Hmb. reflexivity. }
    rewrite Epat.
    f_equal. f_equal. f_equal. cbn [app]. f_equal.
    rewrite <- !app_assoc. reflexivity.
  - eapply Forall2_impl; [exact Hsnaps|].
    intros obj sn Hs. exact Hs.
  - intros k. rewrite HF.
    rewrite (scratch_file_same s0 s5 imgpath maskpath k); [reflexivity|..].
    + exact Hfr.
    + exact Hmb.
    + exact Hib.
Qed.

Lemma mask_paths_distinct s maskpath obj1 obj2 :
  instance (objs s obj1) <> instance (objs s obj2) ->
  maskpath +:+ "-" +:+ solo_id s obj1 <> maskpath +:+ "-" +:+ solo_id s obj2.
Proof.
  intros Hne E. apply Hne.
  apply PyStrSpec.append_inj_l, PyStrSpec.append_inj_l in E.
  unfold solo_id in E. apply PyStrSpec.append_inj_l in E.
  exact (PyStrSpec.format_0w_inj 3 _ _ E).
Qed.


(** *** The files that the clean up removes and leaves *)

Import PyStrSpec.

Lemma strip_prefix_app a p f : strip_prefix (a +:+ p) (a +:+ f) = strip_prefix p f.
Proof.
  induction a as [|c a IH]; [reflexivity|].
  rewrite !append_cons. cbn [strip_prefix]. rewrite Ascii.eqb_refl. exact IH.
Qed.

Lemma strip_prefix_longer p c q : strip_prefix (p +:+ String c q) p = None.
Proof.
  induction p as [|a p IH]; [reflexivity|].
  rewrite append_cons. cbn [strip_prefix]. rewrite Ascii.eqb_refl. exact IH.
Qed.

Lemma glob_match_app a p f : glob_match (a +:+ p) (a +:+ f) = glob_match p f.
Proof. unfold glob_match. rewrite append_assoc, strip_prefix_app. reflexivity. Qed.

Lemma glob_match_self p : glob_match p p = false.
Proof. unfold glob_match. rewrite strip_prefix_longer. reflexivity. Qed.

Lemma glob_match_extension p x : glob_match p (p +:+ "." +:+ x) = false.
Proof.
  unfold glob_match. rewrite strip_prefix_app. reflexivity.
Qed.

Lemma frame_relative z : starts_with "/" (str_int z) = false.
Proof. apply starts_with_slash_absent, contains_char_str_int; reflexivity. Qed.

Lemma imgfilename_relative ctx s : starts_with "/" (imgfilename ctx s) = false.
Proof.
  apply starts_with_slash_absent. unfold imgfilename.
  rewrite !contains_char_app, contains_char_format_0w, contains_char_str_int
    by reflexivity.
  reflexivity.
Qed.

Lemma layout_maskpattern ctx s imgpath maskpath :
  anascene_layout ctx s imgpath maskpath ->
  maskpattern s maskpath
  = with_sep (output ctx) +:+ "masks/"
      +:+ replace_char "#" (str_int (frame_current s)) maskpath.
Proof.
  intros (Hmb & _ & _ & Hrel & _). unfold maskpattern.
  rewrite path_join_relative
    by (apply starts_with_slash_replace;
        [apply str_int_nonempty|apply frame_relative|exact Hrel]).
  rewrite Hmb, subdirectory by (reflexivity || discriminate).
  rewrite !append_assoc. reflexivity.
Qed.

Lemma layout_imgpattern ctx s imgpath maskpath :
  anascene_layout ctx s imgpath maskpath ->
  imgpattern s imgpath = with_sep (output ctx) +:+ "images/" +:+ imgfilename ctx s.
Proof.
  intros (_ & Hib & -> & _ & _). unfold imgpattern.
  assert (E : replace_char "#" (str_int (frame_current s))
                (format_0w 10 (interp_num ctx) +:+ "-#-" +:+ sensor_name +:+ ".png")
              = imgfilename ctx s).
  { rewrite replace_char_app, replace_char_absent
      by (apply contains_char_format_0w; reflexivity).
    reflexivity. }
  rewrite E, path_join_relative by apply imgfilename_relative.
  rewrite Hib, subdirectory by (reflexivity || discriminate).
  rewrite !append_assoc. reflexivity.
Qed.

Lemma layout_frame_path ctx s :
  frame_path ctx s = with_sep (output ctx) +:+ "images/" +:+ imgfilename ctx s.
Proof.
  unfold frame_path. rewrite path_join_relative by apply imgfilename_relative.
  rewrite subdirectory by (reflexivity || discriminate).
  rewrite !append_assoc. reflexivity.
Qed.

Lemma layout_mask_file ctx s imgpath maskpath :
  anascene_layout ctx s imgpath maskpath ->
  mask_file s maskpath
  = with_sep (output ctx) +:+ "masks/"
      +:+ replace_char "#" (str_int (frame_current s)) maskpath
      +:+ "." +:+ replace_char "#" (str_int (frame_current s))
                    (lower (file_format (maskout s))).
Proof.
  intros (Hmb & _ & _ & Hrel & Hout). unfold mask_file.
  rewrite path_join_relative.
  2:{ rewrite starts_with_slash_app. destruct maskpath; [reflexivity|exact Hrel]. }
  rewrite Hmb, subdirectory by (reflexivity || discriminate).
  rewrite !replace_char_app.
  rewrite (replace_char_absent _ _ (with_sep (output ctx)))
    by (rewrite contains_char_with_sep by reflexivity; exact Hout).
  rewrite !append_assoc. reflexivity.
Qed.

Lemma layout_keeps_outputs ctx s imgpath maskpath :
  anascene_layout ctx s imgpath maskpath ->
  scratch_file s imgpath maskpath (mask_file s maskpath) = false /\
  scratch_file s imgpath maskpath (frame_path ctx s) = false.
Proof.
  intros Hl. unfold scratch_file.
  rewrite (layout_maskpattern ctx s imgpath maskpath Hl),
    (layout_imgpattern ctx s imgpath maskpath Hl),
    (layout_mask_file ctx s imgpath maskpath Hl), layout_frame_path.
  rewrite !glob_match_app, glob_match_extension, glob_match_self.
  split; reflexivity.
Qed.

(** *** When the clean up is reached *)

Lemma bind_later {A B : Type} (G : event -> Prop) (m : M A) (f : A -> M B) s e :
  Forall (fun e => ~ G e) (trace m s) -> G e -> In e (trace (m ≫= f) s) ->
  exists a, outcome m s = Return a /\ In e (trace (f a) (final m s)) /\
            outcome (m ≫= f) s = outcome (f a) (final m s).
Proof.
  unfold trace, outcome, final, mbind, M_bind.
  destruct (m s) as [[s1 t1] [a|x]]; cbn [fst snd]; intros Hm HG Hin.
  - exists a. destruct (f a s1) as [[s2 t2] r]. cbn [fst snd] in *.
    repeat split; auto.
    apply in_app_or in Hin. destruct Hin as [Hin|Hin]; [|exact Hin].
    exfalso. exact (proj1 (List.Forall_forall _ _) Hm e Hin HG).
  - exfalso. exact (proj1 (List.Forall_forall _ _) Hm e Hin HG).
Qed.

Lemma triple_trace {A : Type} (m : M A) (E : event -> Prop) (Q : A -> Scene -> Prop) s :
  triple (eq s) m E Q -> Forall E (trace m s).
Proof. intros Ht. exact (proj1 (Ht s eq_refl)). Qed.

Lemma setup_not_cleanup e : setup_event e -> ~ cleanup_event e.
Proof. destruct e; cbn; tauto. Qed.

Lemma preview_not_cleanup ctx e : preview_event ctx e -> ~ cleanup_event e.
Proof. destruct e; cbn; tauto. Qed.

Lemma composite_not_cleanup e : composite_event e -> ~ cleanup_event e.
Proof. destruct e; cbn; tauto. Qed.

Lemma exec_reaches_cleanup (ctx : Ctx) (inputs : Inputs) (s0 : Scene) e :
  cleanup_event e -> In e (trace (exec ctx inputs) s0) ->
  preview ctx = false /\
  (exists co cos, Calculate_Obstruction inputs = co :: cos /\ co <> "F"%string) /\
  outcome (exec ctx inputs) s0 = Return tt.
Proof.
  intros HG Hin. unfold exec in *.
  apply (bind_later cleanup_event) in Hin; [|
    apply (triple_trace _ _ _ _ (setup_triple _ inputs s0 setup_not_cleanup))|
    exact HG].
  destruct Hin as (objects & _ & Hin & ->).
  set (s1 := final (setup inputs) s0) in *. clearbody s1.
  destruct (preview ctx).
  { exfalso.
    pose proof (triple_trace _ _ _ _
                  (preview_pass_triple ctx _ s1 (preview_not_cleanup ctx))) as Hp.
    exact (proj1 (List.Forall_forall _ _) Hp e Hin HG). }
  split; [reflexivity|].
  apply (bind_later cleanup_event) in Hin; [|
    apply (triple_trace _ _ _ _ (composite_and_masks_triple inputs objects _ s1
             composite_not_cleanup))|exact HG].
  destruct Hin as ([] & _ & Hin & ->).
  set (s3 := final (composite_and_masks inputs objects) s1) in *. clearbody s3.
  destruct (Calculate_Obstruction inputs) as [|co cos];
    [cbn in Hin; contradiction|].
  cbn [index0 lift] in *. unfold trace, outcome in *. rewrite bind_ret in *.
  destruct (String.eqb_spec co "F") as [->|HnF].
  { exfalso. cbn in Hin. destruct Hin as [<-|[<-|[]]]; exact HG. }
  split; [exists co, cos; auto|].
  unfold obstruction_pass in *.
  change ((?m s3).1.2) with (trace m s3) in Hin.
  change ((?m s3).2) with (outcome m s3).
  apply (bind_later cleanup_event) in Hin; [|
    apply (triple_trace _ _ _ _
             (masks_and_annotations_triple (fun e => ~ cleanup_event e) co objects s3
                (fun x => x) (fun _ _ _ x => x) (fun x => x) (fun x => x)))|exact HG].
  destruct Hin as (paths & _ & _ & ->). unfold outcome.
  destruct (cleanup_run paths.1 paths.2
              (final (masks_and_annotations co objects) s3)) as (F & t & -> & _).
  reflexivity.
Qed.



End Node.

Lemma preview_returns_early_witness :
  exists t sr,
    exec (H := sample_externals) sample_preview_ctx (sample_inputs "[1920,1080]" "T")
      sample_scene
      = (set_files (<["out/preview.png"%string := [[255]]]> (sample_render sr)) sr,
         t ++ [EvRender "preview" sr; EvImsave "out/preview.png"], Return tt) /\
    (resolution_x sr, resolution_y sr, samples sr, max_bounces sr) = (640, 384, 8, 6).
Proof.
  destruct (preview_returns_early (H := sample_externals) sample_preview_ctx
              (sample_inputs "[1920,1080]" "T") sample_scene eq_refl) as [_ Hrun].
  destruct (Hrun [0; 1; 2; 3]%nat [] 50%nat [] (RStr "[1920,1080]") [] 1920 1080 []
              [[255]] eq_refl) as (t & Et & _ & _).
  - cbn. repeat constructor.
  - discriminate.
  - reflexivity.
  - reflexivity.
  - reflexivity.
  - reflexivity.
  - exists t. eexists. split; [exact Et|reflexivity].
Defined.

Lemma obstruction_disabled_run_witness :
  exists t sm,
    trace (exec (H := sample_externals) sample_ctx (sample_inputs "[1920,1080]" "F"))
      sample_scene
      = t ++ [EvRender "masks" sm; EvWriteAnnotations None; EvWriteMetadata] /\
    (samples sm, max_bounces sm) = (1, 1).
Proof.
  destruct (obstruction_disabled_run (H := sample_externals) sample_ctx
              (sample_inputs "[1920,1080]" "F") sample_scene [] eq_refl eq_refl)
    as [_ Hrun].
  destruct (Hrun [0; 1; 2; 3]%nat [] 50%nat [] (RStr "[1920,1080]") [] 1920 1080 []
              "F"%string []) as (t & Et & _ & _).
  - reflexivity.
  - cbn. repeat constructor.
  - discriminate.
  - reflexivity.
  - reflexivity.
  - reflexivity.
  - reflexivity.
  - unfold trace. rewrite Et. cbn [fst snd].
    lazymatch type of Et with
    | _ = (_, ?t0 ++ ?a :: ?m ++ [EvRender _ ?sm; _; _], _) =>
        exists (t0 ++ a :: m), sm
    end.
    split.
    + rewrite <- app_assoc. reflexivity.
    + reflexivity.
Defined.

(** With the obstruction disabled the sample run still renders the masks:
    the render with ['masks'] comes before the test of line 211. *)
Lemma obstruction_disabled_renders_masks :
  ~ obstruction_disabled_skips_mask_render.
Proof.
  intros Hclaim.
  destruct (exec_obstruction_disabled (H := sample_externals) sample_ctx
              (sample_inputs "[1920,1080]" "F") sample_scene []
              [0; 1; 2; 3]%nat [] 50%nat [] (RStr "[1920,1080]") [] 1920 1080 []
              "F"%string [] eq_refl eq_refl eq_refl ltac:(cbn; repeat constructor)
              ltac:(discriminate) eq_refl eq_refl eq_refl eq_refl) as (t & Et & _ & _).
  specialize (Hclaim sample_externals sample_ctx (sample_inputs "[1920,1080]" "F")
                sample_scene [] eq_refl eq_refl "masks"%string).
  unfold trace in Hclaim. rewrite Et in Hclaim. cbn [fst snd] in Hclaim.
  eassert (Hm : "masks"%string = "high"%string).
  { eapply Hclaim. apply in_or_app. right. right.
    apply in_or_app. right. left. reflexivity. }
  discriminate Hm.
Qed.


Lemma sample_one_link_each : one_link_each sample_scene.
Proof.
  intros j n Hn Hm.
  do 5 (destruct j as [|j];
        [injection Hn as <-; first [discriminate Hm|eexists; reflexivity]|]).
  discriminate Hn.
Qed.


Lemma sample_layout :
  anascene_layout sample_ctx sample_scene_scratch
    "0000000000-#-RGBCamera.png" "0000000000-#-RGBCamera".
Proof. repeat split. Qed.


End SimulationSpec.

(** ** [RenderNode.exec]: further properties *)

Module SimulationExtra.
Import Py PyStr Simulation SimulationSpec.

Section Node.
Context `{Externals}.

(** *** The order of the calls *)

Lemma sorted_app (k : nat) (l1 l2 : list nat) :
  StronglySorted le l1 -> StronglySorted le l2 ->
  Forall (fun x => (x <= k)%nat) l1 -> Forall (fun x => (k <= x)%nat) l2 ->
  StronglySorted le (l1 ++ l2).
Proof.
  intros H1 H2 Hle Hge. induction H1 as [|x l1 Hs IH Hx]; [exact H2|].
  cbn. inversion Hle as [|? ? Hxk Hle']; subst.
  constructor; [apply IH, Hle'|].
  apply Forall_app. split; [exact Hx|].
  eapply List.Forall_impl; [|exact Hge]. cbn. intros y Hy. lia.
Qed.

Lemma staged_bind {A B : Type} (a b c : nat) (m : M A) (f : A -> M B) :
  (a <= b <= c)%nat ->
  staged a b m -> (forall x, staged b c (f x)) -> staged a c (m ≫= f).
Proof.
  intros Hb Hm Hf s. destruct (Hm s) as [Hs1 Hb1].
  unfold trace, mbind, M_bind in *.
  destruct (m s) as [[s1 t1] [x|e]]; cbn [fst snd] in *.
  - destruct (Hf x s1) as [Hs2 Hb2]. unfold trace in *.
    destruct (f x s1) as [[s2 t2] r]; cbn [fst snd] in *. split.
    + rewrite map_app. apply (sorted_app b); auto.
      * apply Forall_map. eapply List.Forall_impl; [|exact Hb1]. cbn. lia.
      * apply Forall_map. eapply List.Forall_impl; [|exact Hb2]. cbn. lia.
    + apply Forall_app. split.
      * eapply List.Forall_impl; [|exact Hb1]. cbn. lia.
      * eapply List.Forall_impl; [|exact Hb2]. cbn. lia.
  - split; [exact Hs1|]. eapply List.Forall_impl; [|exact Hb1]. cbn. lia.
Qed.

Lemma staged_silent {A : Type} (lo hi : nat) (m : M A) : silent m -> staged lo hi m.
Proof. intros Hm s. rewrite Hm. split; constructor. Qed.

Lemma silent_get : silent get.
Proof. intros s. reflexivity. Qed.

Lemma silent_modify g : silent (modify g).
Proof. intros s. reflexivity. Qed.

Lemma silent_ret {A : Type} (a : A) : silent (mret a).
Proof. intros s. reflexivity. Qed.

Lemma silent_raise {A : Type} e : silent (raise (A := A) e).
Proof. intros s. reflexivity. Qed.

Lemma silent_lift {A : Type} (r : result A) : silent (lift r).
Proof. intros s. destruct r; reflexivity. Qed.

Lemma staged_emit (lo hi : nat) e :
  (lo <= stage e <= hi)%nat -> staged lo hi (emit e).
Proof.
  intros He s. cbn. split; [repeat constructor|]. constructor; [exact He|constructor].
Qed.

Lemma staged_weaken {A : Type} (lo hi lo' hi' : nat) (m : M A) :
  (lo' <= lo)%nat -> (hi <= hi')%nat -> staged lo hi m -> staged lo' hi' m.
Proof.
  intros Hl Hh Hm s. destruct (Hm s) as [Hs Hb]. split; [exact Hs|].
  eapply List.Forall_impl; [|exact Hb]. cbn. lia.
Qed.

Lemma staged_for_each {A : Type} (k : nat) (body : A -> M unit) (l : list A) :
  (forall x, staged k k (body x)) -> staged k k (for_each l body).
Proof.
  intros Hb. induction l as [|x l IH]; cbn [for_each].
  - apply staged_silent, silent_ret.
  - apply (staged_bind k k k); [lia|apply Hb|intros _; exact IH].
Qed.

Lemma silent_fold_each {A B : Type} (body : B -> A -> M B) (l : list A) :
  (forall b x, silent (body b x)) -> forall b, silent (fold_each l body b).
Proof.
  intros Hb. induction l as [|x l IH]; intros b s; cbn [fold_each].
  - reflexivity.
  - specialize (Hb b x s). unfold trace, mbind, M_bind in *.
    destruct (body b x s) as [[s1 t1] [b'|e]]; cbn [fst snd] in *; [|exact Hb].
    specialize (IH b' s1). unfold trace in IH.
    destruct (fold_each l body b' s1) as [[s2 t2] r]; cbn [fst snd] in *.
    rewrite Hb, IH. reflexivity.
Qed.

Lemma silent_bind {A B : Type} (m : M A) (f : A -> M B) :
  silent m -> (forall x, silent (f x)) -> silent (m ≫= f).
Proof.
  intros Hm Hf s. specialize (Hm s). unfold trace, mbind, M_bind in *.
  destruct (m s) as [[s1 t1] [x|e]]; cbn [fst snd] in *; [|exact Hm].
  specialize (Hf x s1). unfold trace in Hf.
  destruct (f x s1) as [[s2 t2] r]; cbn [fst snd] in *.
  rewrite Hm, Hf. reflexivity.
Qed.

Lemma staged_render resolution :
  staged (render_stage resolution) (render_stage resolution) (render resolution).
Proof.
  intros s. unfold trace. rewrite render_run. cbn [fst snd map].
  split; [repeat constructor|]. constructor; [|constructor]. cbn. lia.
Qed.

Lemma staged_bind_silent {A B : Type} (a c : nat) (m : M A) (f : A -> M B) :
  (a <= c)%nat -> silent m -> (forall x, staged a c (f x)) -> staged a c (m ≫= f).
Proof.
  intros Hac Hm Hf. apply (staged_bind a a c); [lia|apply staged_silent, Hm|exact Hf].
Qed.

Lemma staged_bind_emit {B : Type} (a c : nat) e (f : unit -> M B) :
  (a <= stage e <= c)%nat -> (forall x, staged (stage e) c (f x)) ->
  staged a c (emit e ≫= f).
Proof.
  intros He Hf. apply (staged_bind a (stage e) c); [lia|apply staged_emit; lia|exact Hf].
Qed.

Lemma staged_same (k : nat) (t : list event) :
  Forall (fun e => stage e = k) t ->
  StronglySorted le (map stage t) /\ Forall (fun e => (k <= stage e <= k)%nat) t.
Proof.
  intros Ht. split.
  - induction Ht as [|e t He Ht IH]; cbn; constructor; [exact IH|].
    apply Forall_map. eapply List.Forall_impl; [|exact Ht]. cbn. lia.
  - eapply List.Forall_impl; [|exact Ht]. cbn. lia.
Qed.

Ltac staged_step :=
  cbn [stage];
  lazymatch goal with
  | |- staged _ _ (emit _ ≫= _) => apply staged_bind_emit; [cbn; lia|intros ?]
  | |- staged _ _ (get ≫= _) => apply staged_bind_silent; [lia|apply silent_get|intros ?]
  | |- staged _ _ (modify _ ≫= _) =>
      apply staged_bind_silent; [lia|apply silent_modify|intros ?]
  | |- staged _ _ (lift _ ≫= _) => apply staged_bind_silent; [lia|apply silent_lift|intros ?]
  | |- staged _ _ (mret _) => apply staged_silent, silent_ret
  | |- staged _ _ (raise _) => apply staged_silent, silent_raise
  | |- staged _ _ (modify _) => apply staged_silent, silent_modify
  | |- staged _ _ (emit _) => apply staged_emit; cbn; lia
  end.

Lemma staged_setup inputs : staged 0 3 (setup inputs).
Proof.
  unfold setup. do 2 staged_step.
  apply (staged_bind 0 0 3); [lia| |intros ?].
  { assert (Hl : staged 0 0 (for_each (Lights inputs) (fun l =>
                   match l with
                   | LRef h => emit (EvLinkLight h)
                   | LStr _ => raise TypeError
                   end))).
    { apply staged_for_each. intros [?|?]; staged_step. }
    destruct x0 as [[|? ?]|?]; [staged_step|exact Hl|exact Hl]. }
  repeat staged_step.
Qed.

Lemma silent_imread path : silent (imread path).
Proof.
  unfold imread. apply silent_bind; [apply silent_get|intros s].
  destruct (files s !! path); [apply silent_ret|apply silent_raise].
Qed.

Lemma staged_preview_pass ctx : staged 4 5 (preview_pass ctx).
Proof.
  unfold preview_pass.
  apply (staged_bind 4 4 5); [lia|apply (staged_render "preview")|intros ?].
  staged_step.
  apply staged_bind_silent; [lia|apply silent_imread|intros img].
  unfold imsave. repeat staged_step.
Qed.

Lemma staged_composite_and_masks inputs objects :
  staged 4 8 (composite_and_masks inputs objects).
Proof.
  unfold composite_and_masks.
  apply (staged_bind 4 4 8); [lia|apply (staged_render "high")|intros ?].
  apply (staged_bind 4 5 8); [lia| |intros ?].
  { apply (staged_weaken 5 5); [lia|lia|].
    apply staged_for_each. intros obj. staged_step. }
  apply staged_bind_silent; [lia|apply silent_lift|intros collect_depth].
  apply (staged_bind 5 6 8); [lia| |intros ?].
  { destruct (String.eqb collect_depth "T"); staged_step. }
  staged_step. apply (staged_weaken 8 8); [cbn; lia|lia|apply (staged_render "masks")].
Qed.

Lemma silent_unlink_mask masklinks masknode : silent (unlink_mask masklinks masknode).
Proof.
  unfold unlink_mask. apply silent_bind; [apply silent_get|intros s].
  destruct (nodes s !! masknode) as [n|]; [|apply silent_ret].
  destruct (links n); [apply silent_raise|].
  apply silent_bind; [apply silent_modify|intros ?; apply silent_ret].
Qed.

Lemma staged_unlink_masks : staged 9 9 unlink_masks.
Proof.
  unfold unlink_masks. staged_step.
  apply staged_bind_silent; [lia| |intros masklinks].
  { apply silent_fold_each. intros ml masknode. apply silent_unlink_mask. }
  repeat staged_step.
Qed.

Lemma silent_mask_discovery objects : silent (mask_discovery objects).
Proof.
  intros s. unfold trace.
  destruct (files s !! compositemaskfile s) as [compimg|] eqn:Ef.
  - destruct (mask_discovery_run objects s compimg Ef) as (g & -> & _). reflexivity.
  - unfold mask_discovery. rewrite bind_get.
    erewrite run_bind_raise; [reflexivity|].
    unfold imread. rewrite bind_get, Ef. reflexivity.
Qed.

Lemma staged_mask_one masklinks imgpath maskpath obj :
  staged 10 10 (mask_one masklinks imgpath maskpath obj).
Proof.
  intros s. unfold trace. rewrite mask_one_run.
  destruct (masklinks !! instance (objs s obj)) as [[masknode socketinput]|].
  - cbn zeta. destruct (links_of _ masknode); cbn [fst snd];
      apply staged_same; repeat constructor.
  - cbn [fst snd]. apply staged_same. constructor.
Qed.

Lemma staged_per_object_masks masklinks rendered_objects :
  staged 10 10 (per_object_masks masklinks rendered_objects).
Proof.
  unfold per_object_masks. staged_step. cbn zeta.
  apply (staged_bind 10 10 10); [lia| |intros ?; staged_step].
  apply staged_for_each. intros obj. apply staged_mask_one.
Qed.

Lemma staged_masks_and_annotations co objects :
  staged 9 12 (masks_and_annotations co objects).
Proof.
  unfold masks_and_annotations.
  apply (staged_bind 9 9 12); [lia|apply staged_unlink_masks|intros masklinks].
  apply staged_bind_silent; [lia|apply silent_mask_discovery|intros rendered_objects].
  apply (staged_bind 9 10 12); [lia| |intros paths].
  { apply (staged_weaken 10 10); [lia|lia|apply staged_per_object_masks]. }
  repeat staged_step.
Qed.

Lemma staged_cleanup imgpath maskpath : staged 13 13 (cleanup imgpath maskpath).
Proof.
  intros s. unfold trace.
  destruct (cleanup_run imgpath maskpath s) as (F & t & -> & Ht & _).
  cbn [fst snd]. apply staged_same. constructor; [reflexivity|].
  eapply List.Forall_impl; [|exact Ht]. intros []; cbn; tauto.
Qed.

Lemma staged_exec ctx inputs : staged 0 13 (exec ctx inputs).
Proof.
  unfold exec.
  apply (staged_bind 0 3 13); [lia|apply staged_setup|intros objects].
  destruct (preview ctx).
  { apply (staged_weaken 4 5); [lia|lia|apply staged_preview_pass]. }
  apply (staged_bind 3 8 13); [lia| |intros ?].
  { apply (staged_weaken 4 8); [lia|lia|apply staged_composite_and_masks]. }
  apply staged_bind_silent; [lia|apply silent_lift|intros co].
  destruct (String.eqb co "F"); [repeat staged_step|].
  unfold obstruction_pass.
  apply (staged_bind 8 12 13); [lia| |intros paths].
  { apply (staged_weaken 9 12); [lia|lia|apply staged_masks_and_annotations]. }
  apply (staged_weaken 13 13); [lia|lia|apply staged_cleanup].
Qed.

(** X1. In every run of [exec], whatever the inputs and whether it returns
    or raises, the calls are made in the order of the stages: lights, camera,
    AnaScene, compositor, the render of the image (or of the preview), the
    set-up of the masks (or the save of the preview), the depth and normal
    outputs, the clearing of the image slots, the render of the masks, the
    unlinking of the image, the renders of the masks of the objects, the
    annotations, the metadata, and the clean up. *)
Theorem exec_call_order (ctx : Ctx) (inputs : Inputs) (s0 : Scene) :
  StronglySorted le (map stage (trace (exec ctx inputs) s0)) /\
  forall i j e1 e2,
    trace (exec ctx inputs) s0 !! i = Some e1 ->
    trace (exec ctx inputs) s0 !! j = Some e2 ->
    (i < j)%nat -> (stage e1 <= stage e2)%nat.
Proof.
  destruct (staged_exec ctx inputs s0) as [Hs _]. split; [exact Hs|].
  intros i j e1 e2 H1 H2 Hij.
  revert Hs i j H1 H2 Hij. generalize (trace (exec ctx inputs) s0) as t.
  induction t as [|e t IH]; intros Hs i j H1 H2 Hij; [discriminate|].
  cbn in Hs. inversion Hs as [|? ? Hs' Hall]; subst.
  destruct j as [|j]; [lia|]. cbn in H2.
  destruct i as [|i].
  - cbn in H1. injection H1 as ->.
    rewrite List.Forall_forall in Hall. apply Hall, in_map.
    apply list_elem_of_In, (list_elem_of_lookup_2 _ j), H2.
  - cbn in H1. apply (IH Hs' i j H1 H2). lia.
Qed.


(** *** Invariants of the state *)

Section Always.
Context {A B : Type} (Inv : Scene -> Prop).

Lemma always_bind (m : M A) (f : A -> M B) (Q : A -> Prop) (Q' : B -> Prop) :
  always Inv m Q -> (forall a, Q a -> always Inv (f a) Q') -> always Inv (m ≫= f) Q'.
Proof.
  intros Hm Hf s Hs. destruct (Hm s Hs) as [H1 HQ].
  unfold final, outcome, mbind, M_bind in *.
  destruct (m s) as [[s1 t1] [a|e]]; cbn [fst snd] in *.
  - destruct (Hf a (HQ a eq_refl) s1 H1) as [H2 HQ2].
    unfold final, outcome in *.
    destruct (f a s1) as [[s2 t2] r]; cbn [fst snd] in *. auto.
  - split; [exact H1|discriminate].
Qed.

Lemma always_weaken (m : M A) (Q Q' : A -> Prop) :
  always Inv m Q -> (forall a, Q a -> Q' a) -> always Inv m Q'.
Proof. intros Hm HQ s Hs. destruct (Hm s Hs). split; auto. Qed.

Lemma always_ret (a : A) (Q : A -> Prop) : Q a -> always Inv (mret a) Q.
Proof. intros Ha s Hs. split; [exact Hs|]. intros a' [= <-]. exact Ha. Qed.

Lemma always_raise e (Q : A -> Prop) : always Inv (raise e) Q.
Proof. intros s Hs. split; [exact Hs|discriminate]. Qed.

Lemma always_lift (r : result A) : always Inv (lift r) (fun a => r = Return a).
Proof.
  destruct r as [a|e]; [apply always_ret; reflexivity|apply always_raise].
Qed.

End Always.

Lemma always_get (Inv : Scene -> Prop) : always Inv get (fun _ => True).
Proof. intros s Hs. split; [exact Hs|auto]. Qed.

Lemma always_modify (Inv : Scene -> Prop) g :
  (forall s, Inv s -> Inv (g s)) -> always Inv (modify g) (fun _ => True).
Proof. intros Hg s Hs. split; [apply Hg, Hs|auto]. Qed.

Lemma always_emit (Inv : Scene -> Prop) e : always Inv (emit e) (fun _ => True).
Proof. intros s Hs. split; [exact Hs|auto]. Qed.

Lemma always_for_each {A : Type} (Inv : Scene -> Prop) (body : A -> M unit) (l : list A) :
  (forall x, In x l -> always Inv (body x) (fun _ => True)) ->
  always Inv (for_each l body) (fun _ => True).
Proof.
  induction l as [|x l IH]; intros Hb; cbn [for_each].
  - apply always_ret. exact Logic.I.
  - eapply always_bind; [apply Hb; left; reflexivity|].
    intros _ _. apply IH. intros y Hy. apply Hb. right. exact Hy.
Qed.

Lemma always_fold_each {A B : Type} (Inv : Scene -> Prop) (body : B -> A -> M B)
    (l : list A) :
  (forall b x, always Inv (body b x) (fun _ => True)) ->
  forall b, always Inv (fold_each l body b) (fun _ => True).
Proof.
  intros Hb. induction l as [|x l IH]; intros b; cbn [fold_each].
  - apply always_ret. exact Logic.I.
  - eapply always_bind; [apply Hb|]. intros b' _. apply IH.
Qed.

(** *** The parts of [exec] under an invariant of the state *)

Section Tail.
Variables (objects : list nat) (Inv : Scene -> Prop).
Hypothesis Inv_obj : forall s obj f,
  In obj objects ->
  (forall o, instance (f o) = instance o /\
             (rendered (f o) = true -> rendered o = true)) ->
  Inv s -> Inv (update_obj obj f s).
Hypothesis Inv_links : forall s i l, Inv s -> Inv (set_links i l s).
Hypothesis Inv_maskout : forall s p,
  Inv s -> Inv (set_maskout (with_slot_path p (maskout s)) s).
Hypothesis Inv_imgout : forall s p,
  Inv s -> Inv (set_imgout (with_slot_path p (imgout s)) s).
Hypothesis Inv_files : forall s F, Inv s -> Inv (set_files F s).
Hypothesis Inv_low : forall s, Inv s -> Inv (render_settings "low" s).

Lemma always_unlink_mask masklinks masknode :
  always Inv (unlink_mask masklinks masknode) (fun _ => True).
Proof.
  unfold unlink_mask. eapply always_bind; [apply always_get|intros s _].
  destruct (nodes s !! masknode) as [n|]; [|apply always_ret; exact Logic.I].
  destruct (links n); [apply always_raise|].
  eapply always_bind; [apply always_modify; intros; apply Inv_links; assumption|].
  intros _ _. apply always_ret. exact Logic.I.
Qed.

Lemma always_unlink_masks : always Inv unlink_masks (fun _ => True).
Proof.
  unfold unlink_masks. eapply always_bind; [apply always_get|intros s _].
  eapply always_bind; [apply always_fold_each; intros; apply always_unlink_mask|].
  intros masklinks _.
  eapply always_bind; [apply always_emit|]. intros _ _. apply always_ret. exact Logic.I.
Qed.

Lemma always_imread path : always Inv (imread path) (fun _ => True).
Proof.
  unfold imread. eapply always_bind; [apply always_get|intros s _].
  destruct (files s !! path); [apply always_ret; exact Logic.I|apply always_raise].
Qed.

Lemma always_mark_one rendered_objects obj :
  In obj objects -> always Inv (mark_one rendered_objects obj) (fun _ => True).
Proof.
  intros Hobj. unfold mark_one.
  eapply always_bind.
  { apply always_modify. intros s. apply Inv_obj; [exact Hobj|]. intros o. cbn. auto. }
  intros _ _. destruct (negb (in_list obj rendered_objects)).
  - apply always_modify. intros s. apply Inv_obj; [exact Hobj|].
    intros o. cbn. split; [reflexivity|discriminate].
  - apply always_ret. exact Logic.I.
Qed.

Lemma always_mask_discovery :
  always Inv (mask_discovery objects)
    (fun rendered_objects => forall obj, In obj rendered_objects -> In obj objects).
Proof.
  unfold mask_discovery. eapply always_bind; [apply always_get|intros s _].
  eapply always_bind; [apply always_imread|intros compimg _].
  cbn zeta. eapply always_bind.
  { unfold mark. apply always_for_each. intros obj Hobj. apply always_mark_one, Hobj. }
  intros _ _. apply always_ret.
  intros obj Hobj. apply renderedobjects_In in Hobj. tauto.
Qed.

Lemma always_mask_one masklinks imgpath maskpath obj :
  In obj objects ->
  always Inv (mask_one masklinks imgpath maskpath obj) (fun _ => True).
Proof.
  intros Hobj s Hs. split; [|auto]. unfold final. rewrite mask_one_run.
  assert (Hsolo : forall st m, Inv st -> Inv (update_obj obj (with_solo_mask_id m) st)).
  { intros st m. apply Inv_obj; [exact Hobj|]. intros o. cbn. auto. }
  assert (Hhide : forall st b, Inv st -> Inv (update_obj obj (with_hide_render b) st)).
  { intros st b. apply Inv_obj; [exact Hobj|]. intros o. cbn. auto. }
  destruct (masklinks !! instance (objs s obj)) as [[masknode socketinput]|].
  - cbn zeta.
    assert (H7 : Inv (mask_rehidden imgpath maskpath obj masknode socketinput s)).
    { unfold mask_rehidden, rendered_scene. cbn zeta.
      apply Hhide, Inv_files, Inv_low, Inv_links, Hhide.
      exact (Inv_imgout _ _ (Inv_maskout _ _ (Hsolo s _ Hs))). }
    destruct (links_of _ masknode); cbn [fst snd]; [exact H7|].
    apply Inv_links, H7.
  - cbn [fst snd]. apply Hhide.
    exact (Inv_imgout _ _ (Inv_maskout _ _ (Hsolo s _ Hs))).
Qed.

Lemma always_per_object_masks masklinks rendered_objects :
  (forall obj, In obj rendered_objects -> In obj objects) ->
  always Inv (per_object_masks masklinks rendered_objects) (fun _ => True).
Proof.
  intros Hsub. unfold per_object_masks.
  eapply always_bind; [apply always_get|intros s _]. cbn zeta.
  eapply always_bind.
  { apply always_for_each. intros obj Hobj. apply always_mask_one, Hsub, Hobj. }
  intros _ _. apply always_ret. exact Logic.I.
Qed.

Lemma always_masks_and_annotations co :
  always Inv (masks_and_annotations co objects) (fun _ => True).
Proof.
  unfold masks_and_annotations.
  eapply always_bind; [apply always_unlink_masks|intros masklinks _].
  eapply always_bind; [apply always_mask_discovery|intros rendered_objects Hsub].
  eapply always_bind; [apply always_per_object_masks, Hsub|intros paths _].
  eapply always_bind; [apply always_emit|intros _ _].
  eapply always_bind; [apply always_emit|intros _ _].
  apply always_ret. exact Logic.I.
Qed.

Lemma always_cleanup imgpath maskpath :
  always Inv (cleanup imgpath maskpath) (fun _ => True).
Proof.
  intros s Hs. split; [|auto]. unfold final.
  destruct (cleanup_run imgpath maskpath s) as (F & t & -> & _).
  cbn [fst snd]. apply Inv_files, Hs.
Qed.

Lemma always_obstruction_pass co :
  always Inv (obstruction_pass co objects) (fun _ => True).
Proof.
  unfold obstruction_pass.
  eapply always_bind; [apply always_masks_and_annotations|intros paths _].
  apply always_cleanup.
Qed.

Lemma always_imsave path img : always Inv (imsave path img) (fun _ => True).
Proof.
  unfold imsave. eapply always_bind; [apply always_emit|intros _ _].
  apply always_modify. intros s. apply Inv_files.
Qed.

End Tail.

Section Head.
Variables (inputs : Inputs) (Inv : Scene -> Prop).
Hypothesis Inv_obj : forall s obj f,
  In obj (objects_of inputs) ->
  (forall o, instance (f o) = instance o /\
             (rendered (f o) = true -> rendered o = true)) ->
  Inv s -> Inv (update_obj obj f s).
Hypothesis Inv_links : forall s i l, Inv s -> Inv (set_links i l s).
Hypothesis Inv_maskout : forall s p,
  Inv s -> Inv (set_maskout (with_slot_path p (maskout s)) s).
Hypothesis Inv_imgout : forall s p,
  Inv s -> Inv (set_imgout (with_slot_path p (imgout s)) s).
Hypothesis Inv_files : forall s F, Inv s -> Inv (set_files F s).
Hypothesis Inv_render : forall resolution s, Inv s -> Inv (render_settings resolution s).
Hypothesis Inv_resolution_x : forall s x, Inv s -> Inv (set_resolution_x x s).
Hypothesis Inv_resolution_y : forall s y, Inv s -> Inv (set_resolution_y y s).

Lemma always_render resolution : always Inv (render resolution) (fun _ => True).
Proof.
  intros s Hs. split; [|auto]. unfold final. rewrite render_run. cbn [fst snd].
  apply Inv_files, Inv_render, Hs.
Qed.

Lemma always_setup :
  always Inv (setup inputs) (fun objects => objects = objects_of inputs).
Proof.
  unfold setup.
  eapply always_bind; [apply always_lift|intros objects Hobjects].
  eapply always_bind; [apply always_lift|intros l0 _].
  eapply always_bind with (Q := fun _ => True).
  { assert (Hl : always Inv (for_each (Lights inputs) (fun l =>
                   match l with
                   | LRef h => emit (EvLinkLight h)
                   | LStr _ => raise TypeError
                   end)) (fun _ => True)).
    { apply always_for_each. intros [?|?] _; [apply always_raise|apply always_emit]. }
    destruct l0 as [[|? ?]|?]; [apply always_ret; exact Logic.I|exact Hl|exact Hl]. }
  intros _ _.
  eapply always_bind; [apply always_lift|intros camera _].
  eapply always_bind; [apply always_emit|intros _ _].
  eapply always_bind; [apply always_lift|intros res _].
  eapply always_bind; [apply always_lift|intros res' _].
  eapply always_bind; [apply always_lift|intros x _].
  eapply always_bind; [apply always_modify; intros; apply Inv_resolution_x; assumption|].
  intros _ _.
  eapply always_bind; [apply always_lift|intros y _].
  eapply always_bind; [apply always_modify; intros; apply Inv_resolution_y; assumption|].
  intros _ _.
  eapply always_bind; [apply always_emit|intros _ _].
  eapply always_bind; [apply always_emit|intros _ _].
  apply always_ret. unfold objects_of.
  destruct (Objects_of_Interest inputs); [discriminate|].
  injection Hobjects as ->. reflexivity.
Qed.

Lemma always_preview_pass ctx : always Inv (preview_pass ctx) (fun _ => True).
Proof.
  unfold preview_pass.
  eapply always_bind; [apply always_render|intros _ _].
  eapply always_bind; [apply always_get|intros s _].
  eapply always_bind; [apply always_imread|intros img _].
  apply always_imsave. exact Inv_files.
Qed.

Lemma always_composite_and_masks objects :
  always Inv (composite_and_masks inputs objects) (fun _ => True).
Proof.
  unfold composite_and_masks.
  eapply always_bind; [apply always_render|intros _ _].
  eapply always_bind with (Q := fun _ => True).
  { apply always_for_each. intros obj _. apply always_emit. }
  intros _ _.
  eapply always_bind; [apply always_lift|intros collect_depth _].
  eapply always_bind with (Q := fun _ => True).
  { destruct (String.eqb collect_depth "T");
      [apply always_emit|apply always_ret; exact Logic.I]. }
  intros _ _.
  eapply always_bind; [apply always_emit|intros _ _].
  apply always_render.
Qed.

Lemma always_exec ctx : always Inv (exec ctx inputs) (fun _ => True).
Proof.
  unfold exec.
  eapply always_bind; [apply always_setup|intros objects ->].
  destruct (preview ctx); [apply always_preview_pass|].
  eapply always_bind; [apply always_composite_and_masks|intros _ _].
  eapply always_bind; [apply always_lift|intros co _].
  destruct (String.eqb co "F").
  - eapply always_bind; [apply always_emit|intros _ _]. apply always_emit.
  - apply always_obstruction_pass; auto.
Qed.

End Head.

(** *** What [exec] leaves alone *)

Lemma exec_frame_same objects s0 s s' :
  same_objects s s' -> exec_frame objects s0 s -> exec_frame objects s0 s'.
Proof.
  intros (Ho & Hn & Hm & Hi & Hf). unfold exec_frame.
  rewrite Ho, Hn, Hm, Hi, Hf. auto.
Qed.


(** *** The quality that [exec] leaves in the scene *)

Lemma final_prepend {A : Type} t (x : Scene * list event * result A) :
  (prepend t x).1.1 = x.1.1.
Proof. reflexivity. Qed.

(** X2. When [exec] returns, the scene is left with the quality of its
    last render: 8 samples and 6 bounces after a preview, 1 sample and 1
    bounce otherwise (the quality of the masks), not the 15 samples and 12
    bounces of the image. *)
Theorem exec_leaves_quality (ctx : Ctx) (inputs : Inputs) (s0 : Scene) :
  outcome (exec ctx inputs) s0 = Return tt ->
  (samples (final (exec ctx inputs) s0), max_bounces (final (exec ctx inputs) s0))
  = if preview ctx then (8, 6) else (1, 1).
Proof.
  unfold outcome, final.
  destruct (exec ctx inputs s0) as [[s' t] r] eqn:E. cbn [fst snd]. intros ->.
  unfold exec in E.
  apply bind_returns in E as (s1 & t1 & objects & t2 & _ & Er & _).
  destruct (preview ctx).
  - unfold preview_pass in Er. rewrite bind_render in Er.
    set (sp := rendered_scene "preview" s1) in *.
    assert (Hq : (fun s => samples s = 8 /\ max_bounces s = 6) sp).
    { subst sp. unfold rendered_scene, render_settings. cbn.
      destruct (1000 <? resolution_x s1); split; reflexivity. }
    assert (Ha : always (fun s => samples s = 8 /\ max_bounces s = 6)
                   (s ← get;
                    img ← imread (path_join (path_join (output ctx) "images")
                                    (imgfilename ctx s));
                    imsave (path_join (output ctx) "preview.png") img)
                   (fun _ => True)).
    { eapply always_bind; [apply always_get|intros s _].
      eapply always_bind; [apply always_imread|intros img _].
      apply always_imsave. intros; cbn; assumption. }
    destruct (Ha sp Hq) as [[Hs Hb] _]. unfold final in Hs, Hb.
    apply (f_equal (fun x => x.1.1)) in Er. rewrite final_prepend in Er.
    cbn [fst snd] in Er. rewrite Er in Hs, Hb. rewrite Hs, Hb. reflexivity.
  - apply bind_returns in Er as (s2 & t3 & [] & t4 & Ec & Er & _).
    rewrite composite_and_masks_run in Ec.
    destruct (index0 (Collect_Depth_and_Normal_Masks inputs)); [|discriminate].
    cbn zeta in Ec. injection Ec as <- _.
    set (sm := rendered_scene "masks" _) in *.
    assert (Hq : (fun s => samples s = 1 /\ max_bounces s = 1) sm).
    { subst sm. split; reflexivity. }
    assert (Ha : always (fun s => samples s = 1 /\ max_bounces s = 1)
                   (calculate_obstruction ← lift (index0 (Calculate_Obstruction inputs));
                    if String.eqb calculate_obstruction "F" then
                      emit (EvWriteAnnotations None) ;; emit EvWriteMetadata
                    else obstruction_pass calculate_obstruction objects)
                   (fun _ => True)).
    { eapply always_bind; [apply always_lift|intros co _].
      destruct (String.eqb co "F").
      - eapply always_bind; [apply always_emit|intros _ _]. apply always_emit.
      - apply always_obstruction_pass; intros; cbn; auto. }
    destruct (Ha sm Hq) as [[Hs Hb] _]. unfold final in Hs, Hb.
    rewrite Er in Hs, Hb. cbn [fst snd] in Hs, Hb. rewrite Hs, Hb. reflexivity.
Qed.

(** *** The results are written by the runs that return *)

Lemma bind_cases {A B : Type} (m : M A) (f : A -> M B) s e :
  In e (trace (m ≫= f) s) ->
  In e (trace m s) \/
  exists a, outcome m s = Return a /\ In e (trace (f a) (final m s)).
Proof.
  unfold trace, outcome, final, mbind, M_bind.
  destruct (m s) as [[s1 t1] [a|x]]; cbn [fst snd]; [|auto].
  destruct (f a s1) as [[s2 t2] r] eqn:Ef. cbn [fst snd].
  intros [Hin|Hin]%in_app_or; [auto|].
  right. exists a. rewrite Ef. auto.
Qed.

Lemma outcome_bind {A B : Type} (m : M A) (f : A -> M B) s a :
  outcome m s = Return a -> outcome (m ≫= f) s = outcome (f a) (final m s).
Proof.
  unfold outcome, final, mbind, M_bind.
  destruct (m s) as [[s1 t1] [a'|x]]; cbn [fst snd]; [|discriminate].
  intros [= ->]. destruct (f a s1) as [[s2 t2] r]. reflexivity.
Qed.

Lemma result_event_stage e : result_event e -> (11 <= stage e <= 12)%nat.
Proof. intros [->|[c ->]]; cbn; lia. Qed.

Lemma staged_later {A B : Type} (lo hi : nat) (m : M A) (f : A -> M B) s e :
  staged lo hi m -> (hi < stage e)%nat -> In e (trace (m ≫= f) s) ->
  exists a, outcome m s = Return a /\ In e (trace (f a) (final m s)) /\
            outcome (m ≫= f) s = outcome (f a) (final m s).
Proof.
  intros Hm He Hin. apply bind_cases in Hin as [Hin|(a & Ha & Hin)].
  - exfalso. destruct (Hm s) as [_ Hb].
    pose proof (proj1 (List.Forall_forall _ _) Hb e Hin). cbn in *. lia.
  - exists a. split; [exact Ha|]. split; [exact Hin|]. apply outcome_bind, Ha.
Qed.


(** *** A rendered object without a mask node *)

Lemma for_each_app {A : Type} (body : A -> M unit) (l1 l2 : list A) s s1 t1 :
  for_each l1 body s = (s1, t1, Return tt) ->
  for_each (l1 ++ l2) body s = prepend t1 (for_each l2 body s1).
Proof.
  revert s t1. induction l1 as [|x l1 IH]; intros s t1; cbn [for_each app].
  - intros [= <- <-]. symmetry. apply prepend_nil.
  - intros E. apply bind_returns in E as (s' & t' & [] & t2 & Ex & El & ->).
    rewrite (bind_run _ _ _ _ _ _ Ex), (IH _ _ El), prepend_prepend. reflexivity.
Qed.


(** *** The clean up, twice *)

Lemma glob_dash_star_none pattern (m : gmap string image) :
  (forall k, glob_match pattern k = true -> m !! k = None) ->
  glob_dash_star pattern m = [].
Proof.
  intros Hm. destruct (glob_dash_star pattern m) as [|k l] eqn:E; [reflexivity|].
  assert (Hin : In k (glob_dash_star pattern m)) by (rewrite E; left; reflexivity).
  apply glob_dash_star_In in Hin as [Hk [img Himg]].
  rewrite (Hm k Hk) in Himg. discriminate.
Qed.

Lemma remove_matching_none pattern s :
  (forall k, glob_match pattern k = true -> files s !! k = None) ->
  remove_matching pattern s = (s, [EvGlob (pattern +:+ "-*")], Return tt).
Proof.
  intros Hm. unfold remove_matching.
  rewrite bind_emit, bind_get, (glob_dash_star_none _ _ Hm).
  destruct s; reflexivity.
Qed.


Import PyStrSpec.

(** *** The two forms of a resolution *)

Lemma split_char_absent c s : contains_char c s = false -> split_char c s = [s].
Proof.
  induction s as [|a s IH]; [reflexivity|].
  cbn [contains_char split_char]. intros [Ha Hs]%orb_false_elim.
  rewrite Ha, IH by exact Hs. reflexivity.
Qed.

Lemma split_char_app c a b :
  contains_char c a = false ->
  split_char c (a +:+ String c b) = a :: split_char c b.
Proof.
  induction a as [|x a IH]; cbn [contains_char].
  - intros _. rewrite append_nil_l. cbn [split_char]. rewrite Ascii.eqb_refl. reflexivity.
  - intros [Hx Ha]%orb_false_elim. rewrite append_cons. cbn [split_char].
    rewrite Hx, IH by exact Ha. reflexivity.
Qed.

Lemma resolution_fields fx fy :
  resolution_field fx -> resolution_field fy ->
  split_char "," (replace_char "]" "" (replace_char "[" "" ("[" +:+ fx +:+ "," +:+ fy +:+ "]")))
  = [fx; fy].
Proof.
  intros (Hx1 & Hx2 & Hx3) (Hy1 & Hy2 & Hy3).
  change ("[" +:+ fx +:+ "," +:+ fy +:+ "]") with (String "[" (fx +:+ "," +:+ fy +:+ "]")).
  cbn [replace_char Ascii.eqb Bool.eqb]. rewrite append_nil_l.
  rewrite !replace_char_app.
  rewrite !(replace_char_absent _ _ fx), !(replace_char_absent _ _ fy) by assumption.
  change (replace_char "]" "" (replace_char "[" "" ",")) with ",".
  change (replace_char "]" "" (replace_char "[" "" "]")) with "".
  change ("," +:+ fy +:+ "") with (String "," (fy +:+ "")).
  rewrite split_char_app by assumption.
  assert (E : fy +:+ "" = fy).
  { clear. induction fy as [|a fy IH]; [reflexivity|]. rewrite append_cons, IH. reflexivity. }
  rewrite E, split_char_absent by assumption. reflexivity.
Qed.

Lemma bind_ext {A B : Type} (m : M A) (f g : A -> M B) s :
  (forall a s1, f a s1 = g a s1) -> (m ≫= f) s = (m ≫= g) s.
Proof.
  intros Hfg. unfold mbind, M_bind.
  destruct (m s) as [[s1 t1] [a|e]]; [|reflexivity]. rewrite Hfg. reflexivity.
Qed.

(** X7. A resolution given as the string ["[fx,fy]"], where the two fields
    hold no bracket and no comma and [int] reads them as [x] and [y], is
    parsed to the list [[x, y]], and [exec] runs on it exactly as on the list
    [[x, y]] itself (lines 124-128), whatever the other links of the port. *)
Theorem resolution_string_as_list (ctx : Ctx) (inputs : Inputs) fx fy x y rs rs' s0 :
  resolution_field fx -> resolution_field fy ->
  py_int fx = inr x -> py_int fy = inr y ->
  parse_resolution (RStr ("[" +:+ fx +:+ "," +:+ fy +:+ "]")) = Return [x; y] /\
  exec ctx (with_resolution (RStr ("[" +:+ fx +:+ "," +:+ fy +:+ "]") :: rs) inputs) s0
  = exec ctx (with_resolution (RList [x; y] :: rs') inputs) s0.
Proof.
  intros Hfx Hfy Hx Hy.
  assert (Hparse : parse_resolution (RStr ("[" +:+ fx +:+ "," +:+ fy +:+ "]"))
                   = Return [x; y]).
  { unfold parse_resolution. rewrite resolution_fields by assumption.
    cbn [ints]. rewrite Hx, Hy. reflexivity. }
  split; [exact Hparse|].
  unfold exec. unfold mbind at 1 3. unfold M_bind at 1 3.
  assert (Es : forall s,
             setup (with_resolution (RStr ("[" +:+ fx +:+ "," +:+ fy +:+ "]") :: rs) inputs) s
             = setup (with_resolution (RList [x; y] :: rs') inputs) s).
  { intros s. unfold setup. cbn [Objects_of_Interest Lights Camera Resolution with_resolution].
    apply bind_ext. intros objects s1.
    apply bind_ext. intros l0 s2.
    apply bind_ext. intros ? s3.
    apply bind_ext. intros camera s4.
    apply bind_ext. intros ? s5.
    cbn [index0]. rewrite !bind_lift, Hparse. reflexivity. }
  rewrite Es. reflexivity.
Qed.

End Node.

Lemma exec_leaves_quality_witness :
  (samples (final (exec (H := sample_externals) sample_ctx
                     (sample_inputs "[1920,1080]" "T")) sample_scene),
   max_bounces (final (exec (H := sample_externals) sample_ctx
                         (sample_inputs "[1920,1080]" "T")) sample_scene))
  = (1, 1).
Proof.
  apply (exec_leaves_quality (H := sample_externals) sample_ctx
           (sample_inputs "[1920,1080]" "T") sample_scene).
  vm_compute. reflexivity.
Defined.



Lemma resolution_string_as_list_witness :
  exec (H := sample_externals) sample_ctx (sample_inputs "[1920,1080]" "T") sample_scene
  = exec (H := sample_externals) sample_ctx
      (with_resolution [RList [1920; 1080]] (sample_inputs "[1920,1080]" "T")) sample_scene.
Proof.
  apply (resolution_string_as_list (H := sample_externals) sample_ctx
           (sample_inputs "[1920,1080]" "T") "1920" "1080" 1920 1080 [] [] sample_scene);
    try (repeat split; reflexivity).
Defined.

End SimulationExtra.

(** ** [LightNode.exec] and [CameraNode.exec] *)

Module SceneNodesSpec.
Import Py PyStr SceneNodes.

Section Nodes.
Context `{Externals}.

(** The object that a node has just made, after the stores [f] and [g]. *)
Lemma lookup_new_object (l : list BObject) (o : BObject) (f g : BObject -> BObject) :
  alter g (length l) (alter f (length l) (l ++ [o])) !! length l = Some (g (f o)).
Proof.
  rewrite !list_lookup_alter.
  rewrite lookup_app_r by lia. rewrite Nat.sub_diag.
  destruct (decide (length l = length l)); [reflexivity|congruence].
Qed.

Lemma camera_run name inputs (w : Bpy) h0 hs height :
  Location_Height inputs = h0 :: hs -> py_float h0 = inr height ->
  let '(u1, r1) := rng_random (random w) in
  let x := (0 + (height - 0) * u1)%Q in
  let created :=
    {| random := random w; lights := lights w; cameras := cameras w ++ [name];
       objects := objects w ++ [{| object_name := name;
                                   object_data := DCamera (length (cameras w));
                                   location := LFloats [0; 0; 0]%Q; pointed := None |}] |} in
  CameraNode_exec name inputs w
  = match math_sqrt (height ^ 2 - x ^ 2)%Q with
    | inl e =>
        ({| random := r1; lights := lights created; cameras := cameras created;
            objects := objects created |}, Raise e)
    | inr y_limit =>
        let '(u2, r2) := rng_random r1 in
        let y := (- y_limit + (y_limit - - y_limit) * u2)%Q in
        let placed :=
          {| random := r2; lights := lights created; cameras := cameras created;
             objects := alter (fun o =>
                          {| object_name := object_name o; object_data := object_data o;
                             location := LFloats [x; y; height]; pointed := pointed o |})
                          (length (objects w)) (objects created) |} in
        match index0 (Roll inputs) with
        | Raise e => (placed, Raise e)
        | Return roll =>
            match mul_float roll 3.14%Q with
            | Raise e => (placed, Raise e)
            | Return r =>
                ({| random := r2; lights := lights placed; cameras := cameras placed;
                    objects := alter (fun o =>
                                 {| object_name := object_name o;
                                    object_data := object_data o;
                                    location := location o;
                                    pointed := Some ([0; 0; 0]%Q, (r / 180)%Q) |})
                                 (length (objects w)) (objects placed) |},
                 Return (length (objects w)))
            end
        end
    end.
Proof.
  intros HL Hf. destruct (rng_random (random w)) as [u1 r1] eqn:E1. cbn zeta.
  unfold CameraNode_exec, mbind, St_bind, cameras_new, objects_new, lift, uniform,
    set_location, point_at, update_object, mret, St_ret.
  cbn. rewrite HL. cbn. rewrite Hf. cbn. rewrite E1. cbn.
  destruct (math_sqrt _) as [e|y_limit]; cbn; [reflexivity|].
  destruct (rng_random r1) as [u2 r2] eqn:E2. cbn.
  destruct (index0 (Roll inputs)) as [roll|e]; cbn; [|reflexivity].
  destruct (mul_float roll 3.14%Q) as [r|e]; cbn; reflexivity.
Qed.

(** X8. The height of the camera is never drawn: whenever [exec] returns,
    the camera is at the height that [float] read from the port and the
    random source has been drawn from exactly twice (for [x] and [y]); the
    comparison of line 79 is of a float with a string, so the draw between
    the [height_limits] is never made.  On the link ["<random>"], which
    [float] rejects, [exec] raises what [float] raises, with the camera data
    and the camera object already made and nothing drawn. *)
Theorem camera_height_never_drawn name inputs (w : Bpy) :
  (forall w' obj,
     CameraNode_exec name inputs w = (w', Return obj) ->
     exists h0 hs height x y o,
       Location_Height inputs = h0 :: hs /\ py_float h0 = inr height /\
       objects w' !! obj = Some o /\ location o = LFloats [x; y; height] /\
       random w' = (rng_random (rng_random (random w)).2).2) /\
  (forall e hs,
     py_float (PStr "<random>") = inl e ->
     Location_Height inputs = PStr "<random>" :: hs ->
     exists w',
       CameraNode_exec name inputs w = (w', Raise e) /\
       random w' = random w /\ cameras w' = cameras w ++ [name] /\
       length (objects w') = S (length (objects w))).
Proof.
  split.
  - intros w' obj E.
    destruct (Location_Height inputs) as [|h0 hs] eqn:HL.
    { unfold CameraNode_exec, mbind, St_bind, cameras_new, objects_new, lift in E.
      cbn in E. rewrite HL in E. discriminate. }
    destruct (py_float h0) as [e|height] eqn:Hf.
    { unfold CameraNode_exec, mbind, St_bind, cameras_new, objects_new, lift in E.
      cbn in E. rewrite HL in E. cbn in E. rewrite Hf in E. discriminate. }
    pose proof (camera_run name inputs w h0 hs height HL Hf) as Hrun.
    destruct (rng_random (random w)) as [u1 r1]. cbn zeta in Hrun.
    rewrite Hrun in E. clear Hrun.
    destruct (math_sqrt _) as [e|y_limit]; [discriminate|].
    destruct (rng_random r1) as [u2 r2] eqn:E2. cbn zeta in E.
    destruct (index0 (Roll inputs)) as [roll|e]; [|discriminate].
    destruct (mul_float roll 3.14%Q) as [r|e]; [|discriminate].
    injection E as <- <-.
    eexists h0, hs, height, _, _, _. split; [reflexivity|]. split; [exact Hf|].
    cbn [objects random fst snd]. rewrite E2.
    split; [apply lookup_new_object|]. split; reflexivity.
  - intros e hs He HL. eexists. split.
    + unfold CameraNode_exec, mbind, St_bind, cameras_new, objects_new, lift.
      cbn. rewrite HL. cbn. rewrite He. reflexivity.
    + cbn. rewrite length_app. cbn. repeat split. lia.
Qed.

Lemma Qsquare (q : Q) : (q ^ 2 == q * q)%Q.
Proof. reflexivity. Qed.


(** *** [LightNode.exec] *)

Lemma light_run name inputs (w : Bpy) t ts p ps energy0 l ls :
  Type_ inputs = t :: ts -> Radiant_Power inputs = p :: ps ->
  py_float p = inr energy0 -> Location inputs = l :: ls ->
  let lit :=
    {| random := random w;
       lights := lights w ++ [{| light_name := name; light_type := t;
                                 energy := Some energy0 |}];
       cameras := cameras w; objects := objects w |} in
  LightNode_exec name inputs w
  = match parse_location l with
    | Raise e => (lit, Raise e)
    | Return loc =>
        ({| random := random w; lights := lights lit; cameras := cameras w;
            objects := objects w ++ [{| object_name := name;
                                        object_data := DLight (length (lights w));
                                        location := loc;
                                        pointed := Some ([0; 0; 0]%Q, 0%Q) |}] |},
         Return (length (objects w)))
    end.
Proof.
  intros HT HP Hf HL. cbn zeta.
  unfold LightNode_exec, mbind, St_bind, lights_new, set_energy, objects_new, lift,
    set_location, point_at, update_object, mret, St_ret.
  cbn. rewrite HT. cbn. rewrite HP. cbn. rewrite Hf. cbn. rewrite HL. cbn.
  assert (El : alter (fun d => {| light_name := light_name d; light_type := light_type d;
                                  energy := Some energy0 |}) (length (lights w))
                 (lights w ++ [{| light_name := name; light_type := t; energy := None |}])
               = lights w ++ [{| light_name := name; light_type := t;
                                 energy := Some energy0 |}]).
  { generalize (lights w). intros l0. induction l0 as [|d l0 IH]; cbn; [reflexivity|].
    f_equal. exact IH. }
  rewrite El.
  destruct (parse_location l) as [loc|e]; cbn; [|reflexivity].
  f_equal. f_equal.
  generalize (objects w). intros l0. induction l0 as [|d l0 IH]; cbn; [reflexivity|].
  f_equal. exact IH.
Qed.

Lemma contains_char_join c fields :
  Forall (fun f => contains_char c f = false) fields -> Ascii.eqb "," c = false ->
  contains_char c (join_comma fields) = false.
Proof.
  intros Hf Hc. induction Hf as [|f fields Hx Hf IH]; [reflexivity|].
  cbn [join_comma]. destruct fields as [|g fields]; [exact Hx|].
  rewrite !PyStrSpec.contains_char_app, Hx, IH. cbn [contains_char].
  rewrite Hc. reflexivity.
Qed.

Lemma split_join fields :
  fields <> [] -> Forall (fun f => contains_char "," f = false) fields ->
  split_char "," (join_comma fields) = fields.
Proof.
  intros Hne Hf. induction Hf as [|f fields Hx Hf IH]; [congruence|].
  cbn [join_comma]. destruct fields as [|g fields].
  - apply SimulationExtra.split_char_absent, Hx.
  - change ("," +:+ join_comma (g :: fields)) with (String "," (join_comma (g :: fields))).
    rewrite SimulationExtra.split_char_app by exact Hx.
    rewrite IH by discriminate. reflexivity.
Qed.

Lemma location_fields fields :
  fields <> [] -> Forall location_field fields ->
  split_char "," (replace_char "]" "" (replace_char "[" "" ("[" +:+ join_comma fields +:+ "]")))
  = fields.
Proof.
  intros Hne Hf.
  assert (H1 : contains_char "[" (join_comma fields) = false).
  { apply contains_char_join; [|reflexivity].
    eapply List.Forall_impl; [|exact Hf]. intros f Hx. apply Hx. }
  assert (H2 : contains_char "]" (join_comma fields) = false).
  { apply contains_char_join; [|reflexivity].
    eapply List.Forall_impl; [|exact Hf]. intros f Hx. apply Hx. }
  change ("[" +:+ join_comma fields +:+ "]")
    with (String "[" (join_comma fields +:+ "]")).
  cbn [replace_char Ascii.eqb Bool.eqb]. rewrite PyStrSpec.append_nil_l.
  rewrite !PyStrSpec.replace_char_app.
  rewrite (PyStrSpec.replace_char_absent "[" "" (join_comma fields)) by assumption.
  rewrite (PyStrSpec.replace_char_absent "]" "" (join_comma fields)) by assumption.
  change (replace_char "]" "" (replace_char "[" "" "]")) with "".
  assert (E : forall s, s +:+ "" = s).
  { clear. induction s as [|a s IH]; [reflexivity|].
    rewrite PyStrSpec.append_cons, IH. reflexivity. }
  rewrite E. apply split_join; [exact Hne|].
  eapply List.Forall_impl; [|exact Hf]. intros f Hx. apply Hx.
Qed.

Lemma St_bind_ext {A B : Type} (m : St A) (f g : A -> St B) w :
  (forall a w1, f a w1 = g a w1) -> (m ≫= f) w = (m ≫= g) w.
Proof.
  intros Hfg. unfold mbind, St_bind.
  destruct (m w) as [w1 [a|e]]; [apply Hfg|reflexivity].
Qed.

(** X10. A location given as the string ["[f1,...,fn]"], whose fields hold
    no bracket and no comma and are read by [float] as [q1, ..., qn], is
    parsed to that list, and [exec] runs on it exactly as on the list
    itself. *)
Theorem light_location_string name inputs (w : Bpy) fields qs ls ls' :
  fields <> [] -> Forall location_field fields -> floats fields = Return qs ->
  parse_location (PStr ("[" +:+ join_comma fields +:+ "]")) = Return (LFloats qs) /\
  LightNode_exec name
    (with_location (PStr ("[" +:+ join_comma fields +:+ "]") :: ls) inputs) w
  = LightNode_exec name (with_location (PList qs :: ls') inputs) w.
Proof.
  intros Hne Hfields Hfloats.
  assert (Hparse : parse_location (PStr ("[" +:+ join_comma fields +:+ "]"))
                   = Return (LFloats qs)).
  { unfold parse_location. rewrite location_fields by assumption.
    rewrite Hfloats. reflexivity. }
  split; [exact Hparse|].
  unfold LightNode_exec. cbn [Type_ Radiant_Power Location with_location].
  apply St_bind_ext. intros lightType w1.
  apply St_bind_ext. intros power w2.
  apply St_bind_ext. intros lightEnergy w3.
  apply St_bind_ext. intros lightData w4.
  apply St_bind_ext. intros ? w5.
  cbn [index0]. unfold mbind at 1 3. unfold St_bind at 1 3. unfold lift at 1 3.
  unfold mbind at 1 2. unfold St_bind at 1 2. unfold lift at 1 2.
  rewrite Hparse. reflexivity.
Qed.

(** X11. When [float] rejects the radiant power, [exec] raises with nothing
    made.  When the location cannot be parsed, [exec] raises what [float]
    raises after the light data was made and given its energy and before any
    object is made: the light data stays in [bpy.data.lights] without an
    object.  The string ["[]"] is such a location when [float] rejects the
    empty string. *)
Theorem light_failures name inputs (w : Bpy) t ts p ps :
  Type_ inputs = t :: ts -> Radiant_Power inputs = p :: ps ->
  (forall e, py_float p = inl e -> LightNode_exec name inputs w = (w, Raise e)) /\
  (forall energy0 l ls e,
     py_float p = inr energy0 -> Location inputs = l :: ls ->
     parse_location l = Raise e ->
     LightNode_exec name inputs w
     = ({| random := random w;
           lights := lights w ++ [{| light_name := name; light_type := t;
                                     energy := Some energy0 |}];
           cameras := cameras w; objects := objects w |}, Raise e)) /\
  (forall e, py_float (PStr "") = inl e -> parse_location (PStr "[]") = Raise e).
Proof.
  intros HT HP. split; [|split].
  - intros e He. unfold LightNode_exec, mbind, St_bind, lift.
    rewrite HT. cbn. rewrite HP. cbn. rewrite He. reflexivity.
  - intros energy0 l ls e He HL Hl.
    pose proof (light_run name inputs w t ts p ps energy0 l ls HT HP He HL) as Hrun.
    cbn zeta in Hrun. rewrite Hl in Hrun. exact Hrun.
  - intros e He.
    change (parse_location (PStr "[]"))
      with (match floats [""%string] with
            | Raise e => Raise e
            | Return l => Return (LFloats l)
            end).
    cbn [floats]. rewrite He. reflexivity.
Qed.

End Nodes.

Lemma sample_random_unit : forall r, (0 <= fst (sample_random r) <= 1)%Q.
Proof.
  intros r. unfold sample_random. cbn [fst].
  pose proof (Nat.mod_upper_bound r 8 ltac:(discriminate)) as Hm.
  unfold Qle. cbn. lia.
Qed.

Lemma sample_sqrt_below (v : Q) :
  (0 <= v)%Q -> exists r, sample_sqrt v = inr r /\ (0 <= r)%Q /\ (r * r <= v)%Q.
Proof.
  destruct v as [n d]. unfold Qle. cbn. intros Hn.
  unfold sample_sqrt. cbn [Qnum Qden].
  destruct (Z.ltb_spec n 0) as [Hneg|_]; [lia|].
  eexists. split; [reflexivity|].
  pose proof (Z.sqrt_spec (n * Z.pos d) ltac:(lia)) as [Hlo _].
  pose proof (Z.sqrt_nonneg (n * Z.pos d)) as Hs.
  unfold Qle. cbn. rewrite Pos2Z.inj_mul. split; nia.
Qed.

Lemma camera_height_never_drawn_witness :
  exists w',
    CameraNode_exec (H := sample_externals) "Camera"
      {| Location_Height := [PStr "<random>"]; Roll := [PNum 0%Q] |} sample_bpy
    = (w', Raise ValueError) /\
    random w' = 0%nat.
Proof.
  destruct (camera_height_never_drawn (H := sample_externals) "Camera"
              {| Location_Height := [PStr "<random>"]; Roll := [PNum 0%Q] |} sample_bpy)
    as [_ Hrandom].
  destruct (Hrandom ValueError [] eq_refl eq_refl) as (w' & E & Hr & _).
  exists w'. split; [exact E|exact Hr].
Defined.


Lemma light_location_string_witness :
  LightNode_exec (H := sample_externals) "Light" (sample_light_inputs (PStr "[1,2,3]"))
    sample_bpy
  = LightNode_exec (H := sample_externals) "Light"
      (sample_light_inputs (PList [1; 2; 3]%Q)) sample_bpy.
Proof.
  refine (proj2 (light_location_string (H := sample_externals) "Light"
                   (sample_light_inputs (PStr "")) sample_bpy
                   ["1"; "2"; "3"]%string [1; 2; 3]%Q [] [] _ _ _)).
  - discriminate.
  - repeat constructor.
  - reflexivity.
Defined.

Lemma light_failures_witness :
  LightNode_exec (H := sample_externals) "Light" (sample_light_inputs (PStr "[]")) sample_bpy
  = (@Build_Bpy sample_externals 0%nat
       [{| light_name := "Light"; light_type := PStr "POINT"; energy := Some 100%Q |}]
       [] [],
     Raise ValueError).
Proof.
  destruct (light_failures (H := sample_externals) "Light"
              (sample_light_inputs (PStr "[]")) sample_bpy (PStr "POINT") []
              (PStr "100") [] eq_refl eq_refl) as (_ & Hloc & Hempty).
  apply (Hloc 100%Q (PStr "[]") [] ValueError eq_refl eq_refl).
  apply Hempty. reflexivity.
Defined.

End SceneNodesSpec.
